(** * MARC-21 record model of ub_tools: a shallow embedding and its properties

    The development follows [cpp/lib/src/MarcRecord.cc] (the record API),
    [cpp/lib/DirectoryEntry.h] (directory entries),
    [cpp/fix_article_biblio_levels.cc] (the bibliographic level patch) and
    [cpp/merge_print_and_online.cc] (merging of control fields).

    Conventions of the embedding:
    - [std::string] is a list of bytes ([list ascii]);
    - [size_t] is an [N] below [2^64], [unsigned] an [N] below [2^32]; every
      narrowing conversion is written out;
    - a [std::vector] is a list; a random access iterator is the signed
      position of its element relative to [begin()];
    - a call either returns, throws a C++ exception, terminates the process
      through [Error], or has undefined behaviour: type [outcome]. *)

From Stdlib Require Import NArith ZArith Ascii String.
From stdpp Require Import base list strings gmap sorting.

(** ** C++ values *)

Module Cpp.

Abbreviation std_string := (list ascii).

(** A string literal. *)
Definition str (s : string) : std_string := list_ascii_of_string s.

Definition size_t : Type := N.
Bind Scope N_scope with size_t.
Definition SIZE_MAX : size_t := (2 ^ 64 - 1)%N.

(** Conversion of a [size_t] to [unsigned] (32 bits). *)
Definition to_unsigned (n : N) : N := (n mod 2 ^ 32)%N.

(** Conversion of a [size_t] to [difference_type] (64 bits, signed), as it
    happens when an iterator is advanced by a [size_t]. *)
Definition to_ptrdiff (n : size_t) : Z :=
  if (n <? 2 ^ 63)%N then Z.of_N n else (Z.of_N n - 2 ^ 64)%Z.

(** [v.size()] *)
Definition size {A : Type} (v : list A) : size_t := N.of_nat (length v).

Inductive exception : Type :=
| out_of_range
| length_error.

Inductive outcome (A : Type) : Type :=
| Ok (a : A)
| Throw (e : exception)
| Exit (msg : string)
| Undefined.
Arguments Ok {A} a.
Arguments Throw {A} e.
Arguments Exit {A} msg.
Arguments Undefined {A}.

#[global] Instance outcome_ret : MRet outcome := fun A a => Ok a.
#[global] Instance outcome_bind : MBind outcome := fun A B k m =>
  match m with
  | Ok a => k a
  | Throw e => Throw e
  | Exit msg => Exit msg
  | Undefined => Undefined
  end.

(** The call does not end in [Error]. *)
Definition no_exit {A : Type} (o : outcome A) : Prop := ∀ msg, o ≠ Exit msg.

(** [v[index]]: outside of the vector the behaviour is undefined. *)
Definition at_ {A : Type} (v : list A) (index : size_t) : outcome A :=
  if (index <? size v)%N then
    match v !! N.to_nat index with
    | Some x => Ok x
    | None => Undefined
    end
  else Undefined.

(** [s[pos]] on a [const std::string]: the terminating NUL at [pos == size()],
    undefined beyond. *)
Definition char_at (s : std_string) (pos : size_t) : outcome ascii :=
  if (pos <? size s)%N then
    match s !! N.to_nat pos with
    | Some c => Ok c
    | None => Undefined
    end
  else if (pos =? size s)%N then Ok zero
  else Undefined.

(** [std::string(s, pos, n)] and [s.substr(pos, n)]: at most [n] bytes from
    [pos], [std::out_of_range] when [pos > s.size()]. *)
Definition substr (s : std_string) (pos n : size_t) : outcome std_string :=
  if (size s <? pos)%N then Throw out_of_range
  else Ok (take (N.to_nat n) (drop (N.to_nat pos) s)).

(** [StringUtil::StartsWith(s, prefix)] *)
Fixpoint StartsWith (s prefix : std_string) : bool :=
  match prefix, s with
  | [], _ => true
  | _ :: _, [] => false
  | p :: prefix', c :: s' => bool_decide (c = p) && StartsWith s' prefix'
  end.

(** [a < b] on [std::string]: lexicographic on unsigned bytes. *)
Fixpoint string_lt (a b : std_string) : bool :=
  match a, b with
  | _, [] => false
  | [], _ :: _ => true
  | x :: a', y :: b' =>
      if (N_of_ascii x <? N_of_ascii y)%N then true
      else if (N_of_ascii y <? N_of_ascii x)%N then false
      else string_lt a' b'
  end.

(** [a >= b] *)
Definition string_ge (a b : std_string) : bool := negb (string_lt a b).

(** [std::max(a, b)]: [(a < b) ? b : a]. *)
Definition std_max (a b : std_string) : std_string :=
  if string_lt a b then b else a.

End Cpp.
Import Cpp.

(** ** Directory entries, [DirectoryEntry.h]

    A tag is a string of three bytes; tags are compared as strings. *)

Record DirectoryEntry : Type := mkDirectoryEntry {
  tag_ : std_string;
  field_length_ : N;   (* unsigned *)
  field_offset_ : N    (* unsigned *)
}.

Module DirEntry.

(** [DirectoryEntry(tag, field_length, field_offset)] called with [size_t]
    arguments: both are narrowed to [unsigned]. *)
Definition make (tag : std_string) (field_length field_offset : size_t)
  : DirectoryEntry :=
  {| tag_ := tag;
     field_length_ := to_unsigned field_length;
     field_offset_ := to_unsigned field_offset |}.

Definition getTag (e : DirectoryEntry) : std_string := tag_ e.
Definition getFieldLength (e : DirectoryEntry) : N := field_length_ e.
Definition getFieldOffset (e : DirectoryEntry) : N := field_offset_ e.

Definition setFieldLength (e : DirectoryEntry) (new_field_length : size_t)
  : DirectoryEntry :=
  {| tag_ := tag_ e;
     field_length_ := to_unsigned new_field_length;
     field_offset_ := field_offset_ e |}.

Definition setFieldOffset (e : DirectoryEntry) (new_field_offset : size_t)
  : DirectoryEntry :=
  {| tag_ := tag_ e;
     field_length_ := field_length_ e;
     field_offset_ := to_unsigned new_field_offset |}.

End DirEntry.

(** ** Subfields *)

Module Subfields.

Record t : Type := mk {
  indicator1_ : ascii;
  indicator2_ : ascii;
  subfields_ : list (ascii * std_string)   (* code_, value_ *)
}.

(** [Subfields()] *)
Definition empty : t :=
  {| indicator1_ := zero; indicator2_ := zero; subfields_ := [] |}.

(** The subfield delimiter 0x1F. *)
Definition delimiter : ascii := ascii_of_N 31.

(** Cuts [l] at every delimiter: the bytes before the first delimiter, and
    one (code, value) pair for each delimiter that is followed by a code. *)
Fixpoint groups (l : std_string) : std_string * list (ascii * std_string) :=
  match l with
  | [] => ([], [])
  | c :: l' =>
      let '(pre, gs) := groups l' in
      if bool_decide (c = delimiter) then
        ([], match pre with
             | code :: value => (code, value) :: gs
             | [] => gs
             end)
      else (c :: pre, gs)
  end.

(** Modelled from the spec: the constructor [Subfields(field_data)] of
    [Subfields.h], which is not part of the sources.  "Given raw field bytes
    indicator1 indicator2 (0x1F code value)*, produce the ordered subfield
    list." *)
Definition parse (field_data : std_string) : t :=
  match field_data with
  | i1 :: i2 :: rest =>
      {| indicator1_ := i1; indicator2_ := i2; subfields_ := (groups rest).2 |}
  | _ => empty
  end.

(** Modelled from the spec: [getFirstSubfieldValue(code)] of [Subfields.h],
    "the value of the first subfield with the given code, or empty string if
    absent". *)
Fixpoint first_value (code : ascii) (l : list (ascii * std_string)) : std_string :=
  match l with
  | [] => []
  | (c, v) :: l' => if bool_decide (c = code) then v else first_value code l'
  end.

Definition getFirstSubfieldValue (s : t) (subfield_code : ascii) : std_string :=
  first_value subfield_code (subfields_ s).

End Subfields.

(** ** The record, [MarcRecord.cc] *)

Record MarcRecord : Type := mkMarcRecord {
  leader_ : std_string;
  directory_entries_ : list DirectoryEntry;
  raw_data_ : std_string
}.

Module Marc.

(** The declaration of [FIELD_NOT_FOUND] is in [MarcRecord.h], which is not
    part of the sources: the largest [size_t], the usual not-found value
    (compare [std::string::npos]). *)
Definition FIELD_NOT_FOUND : size_t := SIZE_MAX.

(** The field terminator 0x1E. *)
Definition field_terminator : ascii := ascii_of_N 30.

Definition getNumberOfFields (r : MarcRecord) : size_t :=
  size (directory_entries_ r).

(** [directory_entries_.cbegin() + index >= directory_entries_.cend()]:
    [index] is converted to the iterator's [difference_type].  The sum is
    pointer arithmetic, scaled by the size of an entry: behind [cend()] it
    is not defined, the product wraps and the comparison can come out
    either way.  A negative distance lies in front of [cbegin()] and the
    comparison is false. *)
Definition past_the_end (r : MarcRecord) (index : size_t) : outcome bool :=
  let position := (0 + to_ptrdiff index)%Z in
  if (Z.of_N (size (directory_entries_ r)) <? position)%Z then Undefined
  else Ok (Z.of_N (size (directory_entries_ r)) <=? position)%Z.

(** The length of the substring is [entry.getFieldLength() - 1], computed in
    [unsigned]. *)
Definition getFieldData (r : MarcRecord) (index : size_t) : outcome std_string :=
  past ← past_the_end r index;
  if past : bool then Ok []
  else
    entry ← at_ (directory_entries_ r) index;
    substr (raw_data_ r) (DirEntry.getFieldOffset entry)
           (to_unsigned (DirEntry.getFieldLength entry + 2 ^ 32 - 1)).

Definition getSubfields (r : MarcRecord) (index : size_t) : outcome Subfields.t :=
  past ← past_the_end r index;
  if past : bool then Ok Subfields.empty
  else
    field_data ← getFieldData r index;
    Ok (Subfields.parse field_data).

Definition getTag (r : MarcRecord) (index : size_t) : outcome std_string :=
  past ← past_the_end r index;
  if past : bool then Ok []
  else
    entry ← at_ (directory_entries_ r) index;
    Ok (DirEntry.getTag entry).

(** The loop of [getFieldIndex] over the entries from position [i] on. *)
Fixpoint getFieldIndex_from (entries : list DirectoryEntry)
    (field_tag : std_string) (i : size_t) : size_t :=
  match entries with
  | [] => FIELD_NOT_FOUND
  | e :: entries' =>
      if bool_decide (DirEntry.getTag e = field_tag) then i
      else getFieldIndex_from entries' field_tag (i + 1)%N
  end.

Definition getFieldIndex (r : MarcRecord) (field_tag : std_string) : size_t :=
  getFieldIndex_from (directory_entries_ r) field_tag 0%N.

(** [getFieldData(tag)] *)
Definition getFieldData_tag (r : MarcRecord) (tag : std_string) : outcome std_string :=
  getFieldData r (getFieldIndex r tag).

(** The [while] loop of [getFieldIndices] over the entries from position
    [field_index] on. *)
Fixpoint getFieldIndices_from (entries : list DirectoryEntry)
    (field_tag : std_string) (field_index : size_t) : list size_t :=
  match entries with
  | [] => []
  | e :: entries' =>
      if bool_decide (DirEntry.getTag e = field_tag) then
        field_index :: getFieldIndices_from entries' field_tag (field_index + 1)%N
      else []
  end.

(** The indices written to [*field_indices]; the function returns their
    number. *)
Definition getFieldIndices (r : MarcRecord) (field_tag : std_string) : list size_t :=
  let field_index := getFieldIndex r field_tag in
  if (field_index <? size (directory_entries_ r))%N then
    getFieldIndices_from (drop (N.to_nat field_index) (directory_entries_ r))
                         field_tag field_index
  else [].

Definition updateField (r : MarcRecord) (field_index : size_t)
    (new_field_value : std_string) : outcome MarcRecord :=
  entry ← at_ (directory_entries_ r) field_index;
  let offset := size (raw_data_ r) in
  let length := (size new_field_value + 1)%N in
  let entry := DirEntry.setFieldLength entry length in
  let entry := DirEntry.setFieldOffset entry offset in
  Ok {| leader_ := leader_ r;
        directory_entries_ := <[N.to_nat field_index := entry]> (directory_entries_ r);
        raw_data_ := raw_data_ r ++ new_field_value ++ [field_terminator] |}.

(** The position at which the scan
    [while (it != end and new_field_tag >= it->getTag()) ++it] stops. *)
Fixpoint insertion_location (entries : list DirectoryEntry)
    (new_field_tag : std_string) : nat :=
  match entries with
  | [] => 0
  | e :: entries' =>
      if string_ge new_field_tag (DirEntry.getTag e)
      then S (insertion_location entries' new_field_tag)
      else 0
  end.

(** Returns the record after the insertion and the index of the new entry. *)
Definition insertField (r : MarcRecord) (new_field_tag new_field_value : std_string)
  : MarcRecord * size_t :=
  let location := insertion_location (directory_entries_ r) new_field_tag in
  let offset := size (raw_data_ r) in
  let length := (size new_field_value + 1)%N in
  let entry := DirEntry.make new_field_tag length offset in
  ({| leader_ := leader_ r;
      directory_entries_ :=
        take location (directory_entries_ r) ++ entry :: drop location (directory_entries_ r);
      raw_data_ := raw_data_ r ++ new_field_value ++ [field_terminator] |},
   N.of_nat location).

(** The entries in [[first, last)]; the iterator range has to be valid. *)
Definition range (entries : list DirectoryEntry) (first last : size_t)
  : outcome (list DirectoryEntry) :=
  if (first <=? last)%N && (last <=? size entries)%N
  then Ok (take (N.to_nat last - N.to_nat first) (drop (N.to_nat first) entries))
  else Undefined.

(** The loop of [deleteFields] over [blocks]. *)
Fixpoint deleteFields_loop (entries : list DirectoryEntry)
    (blocks : list (size_t * size_t))
    (new_entries : list DirectoryEntry) (copy_start : size_t)
  : outcome (list DirectoryEntry) :=
  match blocks with
  | [] =>
      kept ← range entries copy_start (size entries);
      Ok (new_entries ++ kept)
  | block :: blocks' =>
      kept ← range entries copy_start block.1;
      deleteFields_loop entries blocks' (new_entries ++ kept) block.2
  end.

Definition deleteFields (r : MarcRecord) (blocks : list (size_t * size_t))
  : outcome MarcRecord :=
  new_entries ← deleteFields_loop (directory_entries_ r) blocks [] 0%N;
  Ok {| leader_ := leader_ r;
        directory_entries_ := new_entries;
        raw_data_ := raw_data_ r |}.

(** The inner loop of [filterTags]: the number of leading entries with
    [tag]. *)
Fixpoint run_length (entries : list DirectoryEntry) (tag : std_string) : nat :=
  match entries with
  | [] => 0
  | e :: entries' =>
      if bool_decide (DirEntry.getTag e = tag) then S (run_length entries' tag) else 0
  end.

(** The outer loop of [filterTags]; [entry] is the position of the iterator,
    and every iteration advances it, so that [length entries - entry]
    iterations are enough ([fuel]). *)
Fixpoint filterTags_loop (fuel : nat) (entries : list DirectoryEntry)
    (drop_tags : gset std_string) (entry : nat) : list (size_t * size_t) :=
  match fuel with
  | 0 => []
  | S fuel' =>
      match entries !! entry with
      | None => []
      | Some e =>
          if bool_decide (DirEntry.getTag e ∈ drop_tags) then
            let block_start := entry in
            let block_end :=
              entry + run_length (drop entry entries) (DirEntry.getTag e) in
            (N.of_nat block_start, N.of_nat block_end)
              :: filterTags_loop fuel' entries drop_tags (S block_end)
          else filterTags_loop fuel' entries drop_tags (S entry)
      end
  end.

Definition filterTags (r : MarcRecord) (drop_tags : gset std_string)
  : outcome MarcRecord :=
  let deleted_blocks :=
    filterTags_loop (length (directory_entries_ r)) (directory_entries_ r) drop_tags 0 in
  deleteFields r deleted_blocks.

(** The literal ["  " "\x1F" "0000"] of [findAllLocalDataBlocks]. *)
Definition local_block_header : std_string :=
  str "  " ++ [Subfields.delimiter] ++ str "0000".

(** The [while] loop of [findAllLocalDataBlocks]; [iterations] is the number
    of positions from [local_block_end] to the end of the directory. *)
Fixpoint findAllLocalDataBlocks_loop (r : MarcRecord) (iterations : nat)
    (local_block_start local_block_end : size_t)
  : outcome (list (size_t * size_t)) :=
  match iterations with
  | 0 => Ok [(local_block_start, local_block_end)]
  | S iterations' =>
      field_data ← getFieldData r local_block_end;
      if StartsWith field_data local_block_header then
        boundaries ← findAllLocalDataBlocks_loop r iterations'
                       local_block_end (local_block_end + 1)%N;
        Ok ((local_block_start, local_block_end) :: boundaries)
      else
        findAllLocalDataBlocks_loop r iterations'
          local_block_start (local_block_end + 1)%N
  end.

(** The ranges written to [*local_block_boundaries]; the function returns
    their number. *)
Definition findAllLocalDataBlocks (r : MarcRecord) : outcome (list (size_t * size_t)) :=
  let local_block_start := getFieldIndex r (str "LOK") in
  if bool_decide (local_block_start = FIELD_NOT_FOUND) then Ok []
  else
    let local_block_end := (local_block_start + 1)%N in
    findAllLocalDataBlocks_loop r
      (N.to_nat (size (directory_entries_ r) - local_block_end))
      local_block_start local_block_end.

Definition question_mark : ascii := ascii_of_N 63.

Definition IndicatorsMatch (indicator_pattern indicators : std_string) : outcome bool :=
  p0 ← char_at indicator_pattern 0%N;
  differ0 ← (if bool_decide (p0 ≠ question_mark)
             then i0 ← char_at indicators 0%N; Ok (bool_decide (p0 ≠ i0))
             else Ok false);
  if differ0 : bool then Ok false
  else
    p1 ← char_at indicator_pattern 1%N;
    differ1 ← (if bool_decide (p1 ≠ question_mark)
               then i1 ← char_at indicators 1%N; Ok (bool_decide (p1 ≠ i1))
               else Ok false);
    if differ1 : bool then Ok false else Ok true.

(** The [for] loop of [findFieldsInLocalBlock] from [index] on, for
    [iterations] indices. *)
Fixpoint findFieldsInLocalBlock_loop (r : MarcRecord)
    (FIELD_PREFIX indicators : std_string) (iterations : nat) (index : size_t)
  : outcome (list size_t) :=
  match iterations with
  | 0 => Ok []
  | S iterations' =>
      current_field ← getFieldData r index;
      found ← (if StartsWith current_field FIELD_PREFIX
               then current_indicators ← substr current_field 7%N 2%N;
                    IndicatorsMatch indicators current_indicators
               else Ok false);
      field_indices ← findFieldsInLocalBlock_loop r FIELD_PREFIX indicators
                        iterations' (index + 1)%N;
      Ok (if found : bool then index :: field_indices else field_indices)
  end.

(** The indices written to [*field_indices]; the function returns their
    number. *)
Definition findFieldsInLocalBlock (r : MarcRecord) (field_tag indicators : std_string)
    (block_start_and_end : size_t * size_t) : outcome (list size_t) :=
  if bool_decide (size indicators ≠ 2%N) then
    Exit "in MarcUtil::FindFieldInLocalBlock: indicators must be precisely 2 characters long!"
  else
    let FIELD_PREFIX := str "  " ++ [Subfields.delimiter] ++ str "0" ++ field_tag in
    findFieldsInLocalBlock_loop r FIELD_PREFIX indicators
      (N.to_nat (block_start_and_end.2 - block_start_and_end.1))
      block_start_and_end.1.

(** [combine]: [reserve(record.directory_entries_.size() - 1)] is
    [reserve(SIZE_MAX)] for a record without entries, which throws. *)
Definition combine (r record : MarcRecord) : outcome MarcRecord :=
  let offset := size (raw_data_ r) in
  let raw_data := raw_data_ r ++ raw_data_ record in
  match directory_entries_ record with
  | [] => Throw length_error
  | _ :: others =>
      Ok {| leader_ := leader_ r;
            directory_entries_ :=
              directory_entries_ r ++
              map (λ e, DirEntry.setFieldOffset e (DirEntry.getFieldOffset e + offset)%N)
                  others;
            raw_data_ := raw_data |}
  end.

(** Field [index] is the header of a local block, as
    [findAllLocalDataBlocks] tests it. *)
Definition starts_local_block (r : MarcRecord) (index : size_t) : Prop :=
  ∃ field_data, getFieldData r index = Ok field_data ∧
                StartsWith field_data local_block_header = true.

(** An entry of another record as [combine] appends it. *)
Definition shifted (offset : N) (e : DirectoryEntry) : DirectoryEntry :=
  {| tag_ := tag_ e;
     field_length_ := field_length_ e;
     field_offset_ := (field_offset_ e + offset)%N |}.

(** The invariant of the data model: the bytes of an entry, terminator
    included, lie within [raw_data_]. *)
Definition entry_in_bounds (r : MarcRecord) (e : DirectoryEntry) : Prop :=
  (1 <= DirEntry.getFieldLength e)%N ∧
  (DirEntry.getFieldOffset e + DirEntry.getFieldLength e <= size (raw_data_ r))%N.

Definition entries_in_bounds (r : MarcRecord) : Prop :=
  Forall (entry_in_bounds r) (directory_entries_ r).

(** [deleteField]: [directory_entries_.erase(directory_entries_.begin() +
    field_index)]; the index is converted to the iterator's
    [difference_type], and erasing where no entry is, is undefined. *)
Definition deleteField (r : MarcRecord) (field_index : size_t) : outcome MarcRecord :=
  let position := to_ptrdiff field_index in
  if (0 <=? position)%Z && (position <? Z.of_N (size (directory_entries_ r)))%Z then
    Ok {| leader_ := leader_ r;
          directory_entries_ := delete (Z.to_nat position) (directory_entries_ r);
          raw_data_ := raw_data_ r |}
  else Undefined.

(** [insertSubfield] returns [bool]: the index that [insertField] returns is
    converted, and is [true] when it is not 0. *)
Definition insertSubfield (r : MarcRecord) (new_field_tag : std_string)
    (subfield_code : ascii) (new_subfield_value : std_string)
    (indicator1 indicator2 : ascii) : MarcRecord * bool :=
  let inserted :=
    insertField r new_field_tag
      ([indicator1] ++ [indicator2] ++ [Subfields.delimiter]
       ++ [subfield_code] ++ new_subfield_value) in
  (inserted.1, negb (inserted.2 =? 0)%N).

(** [getSubfields(tag)] *)
Definition getSubfields_tag (r : MarcRecord) (tag : std_string) : outcome Subfields.t :=
  getSubfields r (getFieldIndex r tag).

(** [extractFirstSubfield(tag, subfield_code)] *)
Definition extractFirstSubfield (r : MarcRecord) (tag : std_string)
    (subfield_code : ascii) : outcome std_string :=
  let index := getFieldIndex r tag in
  if bool_decide (index = FIELD_NOT_FOUND) then Ok []
  else
    subfields ← getSubfields_tag r tag;
    Ok (Subfields.getFirstSubfieldValue subfields subfield_code).

(** [extractFirstSubfield(field_index, subfield_code)] *)
Definition extractFirstSubfield_at (r : MarcRecord) (field_index : size_t)
    (subfield_code : ascii) : outcome std_string :=
  field_data ← getFieldData r field_index;
  Ok (Subfields.getFirstSubfieldValue (Subfields.parse field_data) subfield_code).

Definition getLanguage (r : MarcRecord) (default_language_code : std_string)
  : outcome std_string :=
  language ← extractFirstSubfield r (str "041") "a"%char;
  if bool_decide (language ≠ []) then Ok language else Ok default_language_code.

(** [getLanguageCode]: the offset [entry.getFieldOffset() + 35] is computed
    in [unsigned]. *)
Definition getLanguageCode (r : MarcRecord) : outcome std_string :=
  let index_008 := getFieldIndex r (str "008") in
  if bool_decide (index_008 = FIELD_NOT_FOUND) then Ok []
  else
    entry ← at_ (directory_entries_ r) index_008;
    if (DirEntry.getFieldLength entry <? 38)%N then Ok []
    else substr (raw_data_ r) (to_unsigned (DirEntry.getFieldOffset entry + 35)) 3.

End Marc.

(** ** The bibliographic level patch, [fix_article_biblio_levels.cc] *)

Module Regex.

Definition is_digit (c : ascii) : bool :=
  (48 <=? N_of_ascii c)%N && (N_of_ascii c <=? 57)%N.

Definition newline : ascii := ascii_of_N 10.
Definition lparen : ascii := ascii_of_N 40.
Definition rparen : ascii := ascii_of_N 41.
Definition letter_X : ascii := ascii_of_N 88.

(** [(\d{8}[\dX])] at the head of [l]: the nine bytes of the group. *)
Definition serial_id (l : std_string) : option std_string :=
  let id := take 9 l in
  if bool_decide (length id = 9)
     && forallb is_digit (take 8 id)
     && match id !! 8 with
        | Some c => is_digit c || bool_decide (c = letter_X)
        | None => false
        end
  then Some id else None.

(** The rest of the pattern once [.+] has taken one byte: [.+] is greedy, so
    taking one more byte is tried before closing with [\)]. *)
Fixpoint after_any (l : std_string) : option std_string :=
  match l with
  | [] => None
  | c :: l' =>
      match (if bool_decide (c = newline) then None else after_any l') with
      | Some group => Some group
      | None => if bool_decide (c = rparen) then serial_id l' else None
      end
  end.

(** A match that starts at the head of [l]. *)
Definition match_here (l : std_string) : option std_string :=
  match l with
  | c0 :: c1 :: l' =>
      if bool_decide (c0 = lparen) && negb (bool_decide (c1 = newline))
      then after_any l' else None
  | _ => None
  end.

(** [RegexMatcher.h] is not part of the sources.  This is the pattern
    [\(.+\)(\d{8}[\dX])] of [HasSerialParent] as PCRE matches it: not
    anchored, the leftmost start first, [.+] greedy, [.] any byte except a
    newline.  [None]: [matched] is false; [Some id]: [matched] is true and
    group 1 of the matcher is [id]. *)
Fixpoint parent_id_match (l : std_string) : option std_string :=
  match match_here l with
  | Some group => Some group
  | None => match l with
            | [] => None
            | _ :: l' => parent_id_match l'
            end
  end.

End Regex.

Module FixArticleBiblioLevels.

(** [MarcUtil::Record] as this tool uses it ([MarcUtil.h] declares it
    elsewhere): a leader, the directory and the field contents, the latter
    two in parallel. *)
Record Record_ : Type := mkRecord {
  leader : std_string;
  dir_entries : list DirectoryEntry;
  fields : list std_string
}.

(** Modelled from the spec: [Record::getFieldIndex(tag)] of this older
    interface, "first-match linear scan over directory entries", with -1 as
    the not-found value that [HasSerialParent] tests for. *)
Fixpoint getFieldIndex_from (entries : list DirectoryEntry) (tag : std_string)
    (i : Z) : Z :=
  match entries with
  | [] => (-1)%Z
  | e :: entries' =>
      if bool_decide (DirEntry.getTag e = tag) then i
      else getFieldIndex_from entries' tag (i + 1)%Z
  end.

Definition getFieldIndex (record : Record_) (tag : std_string) : Z :=
  getFieldIndex_from (dir_entries record) tag 0%Z.

(** [StringUtil::Split(s, delimiter, &parts)]; [StringUtil.h] is not part of
    the sources. *)
Fixpoint Split (s : std_string) (delimiter : ascii) : list std_string :=
  match s with
  | [] => [[]]
  | c :: s' =>
      if bool_decide (c = delimiter) then [] :: Split s' delimiter
      else match Split s' delimiter with
           | part :: parts => (c :: part) :: parts
           | [] => [[c]]
           end
  end.

(** The globals of the tool. *)
Record globals : Type := mkGlobals {
  serial_control_numbers : gset std_string;
  output : list Record_;      (* the records written to [output_ptr] *)
  patch_count : N
}.

Definition HasSerialParent (serials : gset std_string) (subfield : std_string)
    (record : Record_) : outcome bool :=
  tag ← substr subfield 0%N 3%N;
  subfield_code ← char_at subfield 3%N;
  let field_index := getFieldIndex record tag in
  if bool_decide (field_index = (-1)%Z) then Ok false
  else
    field ← at_ (fields record) (Z.to_N field_index);
    let subfields := Subfields.parse field in
    let subfield_contents := Subfields.getFirstSubfieldValue subfields subfield_code in
    if bool_decide (subfield_contents = []) then Ok false
    else
      match Regex.parent_id_match subfield_contents with
      | None => Ok false
      | Some parent_id => Ok (bool_decide (parent_id ∈ serials))
      end.

Fixpoint HasAtLeastOneSerialParent_loop (serials : gset std_string)
    (subfields : list std_string) (record : Record_) : outcome bool :=
  match subfields with
  | [] => Ok false
  | subfield :: subfields' =>
      found ← HasSerialParent serials subfield record;
      if found : bool then Ok true
      else HasAtLeastOneSerialParent_loop serials subfields' record
  end.

Definition HasAtLeastOneSerialParent (serials : gset std_string)
    (subfield_list : std_string) (record : Record_) : outcome bool :=
  HasAtLeastOneSerialParent_loop serials (Split subfield_list ":"%char) record.

(** [record->write(output_ptr)] *)
Definition write (record : Record_) (g : globals) : globals :=
  {| serial_control_numbers := serial_control_numbers g;
     output := output g ++ [record];
     patch_count := patch_count g |}.

(** Returns the record as the call leaves it, the globals and the result. *)
Definition PatchUpArticle (g : globals) (record : Record_)
  : outcome (Record_ * globals * bool) :=
  level ← at_ (leader record) 7%N;
  if bool_decide (level ≠ "a"%char) then Ok (record, write record g, true)
  else
    serial ← HasAtLeastOneSerialParent (serial_control_numbers g)
               (str "800w:810w:830w:773w") record;
    if negb serial then Ok (record, write record g, true)
    else
      let record := {| leader := <[7 := "b"%char]> (leader record);
                       dir_entries := dir_entries record;
                       fields := fields record |} in
      let g := {| serial_control_numbers := serial_control_numbers g;
                  output := output g;
                  patch_count := to_unsigned (patch_count g + 1) |} in
      Ok (record, write record g, true).

(** [RecordSerialControlNumbers]: the first field of a record is its control
    number. *)
Definition RecordSerialControlNumbers (g : globals) (record : Record_)
  : outcome (globals * bool) :=
  level ← at_ (leader record) 7%N;
  if bool_decide (level = "s"%char) then
    control_number ← at_ (fields record) 0%N;
    Ok ({| serial_control_numbers := {[ control_number ]} ∪ serial_control_numbers g;
           output := output g;
           patch_count := patch_count g |}, true)
  else Ok (g, true).

(** [MarcUtil::ProcessRecords(input, process_record, &err_msg)] of the older
    interface is not part of the sources; the loop here is the one of its
    successor [MarcRecord::ProcessRecords] in [MarcRecord.cc].  The records
    of a file are a list; the function is called on one record after the
    other, and the iteration ends with [false] as soon as a call returns
    [false]. *)
Fixpoint ProcessRecords (process_record : globals → Record_ → outcome (globals * bool))
    (input : list Record_) (g : globals) : outcome (globals * bool) :=
  match input with
  | [] => Ok (g, true)
  | record :: input' =>
      result ← process_record g record;
      if result.2 : bool then ProcessRecords process_record input' result.1
      else Ok (result.1, false)
  end.

(** [CollectSerials], without the message for [verbose]. *)
Fixpoint CollectSerials (inputs : list (list Record_)) (g : globals) : outcome globals :=
  match inputs with
  | [] => Ok g
  | input :: inputs' =>
      result ← ProcessRecords RecordSerialControlNumbers input g;
      if result.2 : bool then CollectSerials inputs' result.1
      else Exit "error while looking for serials: "
  end.

(** [PatchUpSerialComponentParts], without the message for [verbose]. *)
Definition PatchUpSerialComponentParts (input : list Record_) (g : globals)
  : outcome globals :=
  result ← ProcessRecords
             (λ g record, patched ← PatchUpArticle g record; Ok (patched.1.2, patched.2))
             input g;
  if result.2 : bool then Ok result.1
  else Exit "error while patching up article records: ".

(** The two passes of [main] over the inputs: the serials of all inputs are
    collected, then the first input is read again and patched. *)
Definition collect_and_patch (inputs : list (list Record_)) : outcome globals :=
  g ← CollectSerials inputs
         {| serial_control_numbers := ∅; output := []; patch_count := 0 |};
  input ← at_ inputs 0%N;
  PatchUpSerialComponentParts input g.

(** What the two passes need of a record: a leader with byte 7, and a
    content for every entry of the directory, the control number first. *)
Definition well_formed (record : Record_) : Prop :=
  (8 <= size (leader record))%N ∧
  length (fields record) = length (dir_entries record) ∧
  fields record ≠ [].

End FixArticleBiblioLevels.

(** ** Merging control fields, [merge_print_and_online.cc] *)

Module MergePrintAndOnline.

(** [MARC::Record::Field(tag, contents)] *)
Record Field : Type := mkField {
  field_tag : std_string;
  field_contents : std_string
}.

Definition MergeControlFields (tag field_contents1 field_contents2 : std_string)
  : Field :=
  let merged_contents :=
    if bool_decide (tag = str "005") then std_max field_contents1 field_contents2
    else field_contents1 in
  {| field_tag := tag; field_contents := merged_contents |}.

Definition double_quote : ascii := ascii_of_N 34.

(** [NormaliseISSN]: the string returned and the warnings logged.  With a
    length of 9 neither [issn[4]] nor the two [substr] calls can fail:
    [substr(0, 4)] are the first four bytes, [substr(5)] all bytes from
    position 5 on. *)
Definition NormaliseISSN (issn : std_string) : std_string * list std_string :=
  if bool_decide (size issn = 8%N) then (issn, [])
  else if bool_decide (size issn = 9%N) && bool_decide (issn !! 4 = Some "-"%char)
  then (take 4 issn ++ drop 5 issn, [])
  else (issn, [str "Strange ISSN " ++ [double_quote] ++ issn ++ [double_quote] ++ str "!"]).

(** [SubfieldPrefixIsIdentical] on the subfields of the two fields, each a
    list of codes and values: [subfield1] and [subfield2] are the [begin()]
    of the two lists, and the loop does not advance them. *)
Fixpoint SubfieldPrefixIsIdentical (subfields1 subfields2 : list (ascii * std_string))
    (subfield_codes : list ascii) : bool :=
  match subfield_codes with
  | [] => true
  | subfield_code :: subfield_codes' =>
      match subfields1, subfields2 with
      | subfield1 :: _, subfield2 :: _ =>
          if bool_decide (subfield1.1 ≠ subfield_code)
             || bool_decide (subfield2.1 ≠ subfield_code)
          then false
          else if bool_decide (subfield1.2 ≠ subfield2.2) then false
          else SubfieldPrefixIsIdentical subfields1 subfields2 subfield_codes'
      | _, _ => false
      end
  end.

End MergePrintAndOnline.

(** ** What [findFieldsInLocalBlock] is to return, in the words of its
    description *)

Module LocalBlockSpec.

(** A character of the pattern matches a character of the field: ['?']
    matches any character. *)
Definition indicator_matches (pattern_char c : ascii) : bool :=
  bool_decide (pattern_char = Marc.question_mark) || bool_decide (pattern_char = c).

(** The content starts with ["  " 0x1F "0"] and the tag, and its two
    characters at the offsets 7 and 8 match the pattern. *)
Definition selected (field_tag indicator_pattern content : std_string) : bool :=
  StartsWith content (str "  " ++ [Subfields.delimiter] ++ str "0" ++ field_tag)
  && match indicator_pattern, content !! 7, content !! 8 with
     | [p0; p1], Some c7, Some c8 => indicator_matches p0 c7 && indicator_matches p1 c8
     | _, _, _ => false
     end.

(** The indices of [[first, second)]. *)
Definition indices (first second : size_t) : list size_t :=
  (λ k, first + N.of_nat k)%N <$> seq 0 (N.to_nat (second - first)).

Definition selects (r : MarcRecord) (field_tag indicator_pattern : std_string)
    (index : size_t) : bool :=
  match Marc.getFieldData r index with
  | Ok content => selected field_tag indicator_pattern content
  | _ => false
  end.

Definition fields_in_block (r : MarcRecord) (field_tag indicator_pattern : std_string)
    (block_range : size_t * size_t) : list size_t :=
  List.filter (selects r field_tag indicator_pattern)
              (indices block_range.1 block_range.2).

(** What the code compares a pattern character with: the byte of the
    content at [pos], and the terminating NUL where the content ends in
    front of [pos]. *)
Definition byte_or_nul (content : std_string) (pos : nat) : ascii :=
  default zero (content !! pos).

(** A ['?'] passes without a look at the content. *)
Definition indicator_passes (pattern_char : ascii) (content : std_string) (pos : nat)
  : bool :=
  bool_decide (pattern_char = Marc.question_mark)
  || bool_decide (pattern_char = byte_or_nul content pos).

(** The content starts with ["  " 0x1F "0"] and the tag, and both
    characters of the pattern pass at the offsets 7 and 8. *)
Definition picked (field_tag indicator_pattern content : std_string) : bool :=
  StartsWith content (str "  " ++ [Subfields.delimiter] ++ str "0" ++ field_tag)
  && match indicator_pattern with
     | [p0; p1] => indicator_passes p0 content 7 && indicator_passes p1 content 8
     | _ => false
     end.

Definition picks (r : MarcRecord) (field_tag indicator_pattern : std_string)
    (index : size_t) : bool :=
  match Marc.getFieldData r index with
  | Ok content => picked field_tag indicator_pattern content
  | _ => false
  end.

Definition fields_picked (r : MarcRecord) (field_tag indicator_pattern : std_string)
    (block_range : size_t * size_t) : list size_t :=
  List.filter (picks r field_tag indicator_pattern)
              (indices block_range.1 block_range.2).

(** The content of field [index] starts with the header literal of
    [findAllLocalDataBlocks]. *)
Definition is_header (r : MarcRecord) (index : size_t) : bool :=
  match Marc.getFieldData r index with
  | Ok field_data => StartsWith field_data Marc.local_block_header
  | _ => false
  end.

(** The fields behind [first] that start with the header literal, whatever
    their tag. *)
Definition headers_behind (r : MarcRecord) (first : size_t) : list size_t :=
  List.filter (is_header r) (indices (first + 1) (size (directory_entries_ r))).

(** The ranges from [first] to [last] cut at [boundaries]. *)
Fixpoint ranges_between (first : size_t) (boundaries : list size_t) (last : size_t)
  : list (size_t * size_t) :=
  match boundaries with
  | [] => [(first, last)]
  | boundary :: boundaries' => (first, boundary) :: ranges_between boundary boundaries' last
  end.

End LocalBlockSpec.

(** ** Notions for the statements about the directory *)

Module Directory.

(** [a <= b] on tags. *)
Definition tag_le (a b : std_string) : Prop := string_lt b a = false.

(** The entries are in the order of their tags. *)
Definition tag_sorted (entries : list DirectoryEntry) : Prop :=
  StronglySorted (λ e1 e2, tag_le (DirEntry.getTag e1) (DirEntry.getTag e2)) entries.

(** The entries that one pass of [filterTags] leaves, read off its two
    loops: an entry with a tag to drop opens a run, the run takes the
    entries with that same tag, and the entry behind the run is stepped over
    by the outer loop and stays. *)
Inductive pass : Type :=
| Scanning
| InRun (tag : std_string).

Fixpoint survivors (drop_tags : gset std_string) (state : pass)
    (entries : list DirectoryEntry) : list DirectoryEntry :=
  match entries with
  | [] => []
  | e :: entries' =>
      match state with
      | Scanning =>
          if bool_decide (DirEntry.getTag e ∈ drop_tags)
          then survivors drop_tags (InRun (DirEntry.getTag e)) entries'
          else e :: survivors drop_tags Scanning entries'
      | InRun tag =>
          if bool_decide (DirEntry.getTag e = tag)
          then survivors drop_tags (InRun tag) entries'
          else e :: survivors drop_tags Scanning entries'
      end
  end.

(** The ranges follow one another from [first] to [last], none is empty. *)
Fixpoint tiles (ranges : list (size_t * size_t)) (first last : size_t) : Prop :=
  match ranges with
  | [] => False
  | range :: ranges' =>
      range.1 = first ∧ (range.1 < range.2)%N ∧
      match ranges' with
      | [] => range.2 = last
      | _ :: _ => tiles ranges' range.2 last
      end
  end.

End Directory.

(** ** Sample records *)

Module Samples.

Definition entry (tag : string) (field_length field_offset : N) : DirectoryEntry :=
  {| tag_ := str tag; field_length_ := field_length; field_offset_ := field_offset |}.

Definition terminated (value : string) : std_string :=
  str value ++ [Marc.field_terminator].

Definition a_leader : std_string := str "00000naa a2200000 a 4500".

(** 001 "123", 100 "ab", 200 "cd" *)
Definition three_fields : MarcRecord :=
  {| leader_ := a_leader;
     directory_entries_ := [entry "001" 4 0; entry "100" 3 4; entry "200" 3 7];
     raw_data_ := terminated "123" ++ terminated "ab" ++ terminated "cd" |}.

(** Two runs of 100 fields with a 200 field in between. *)
Definition split_runs : MarcRecord :=
  {| leader_ := a_leader;
     directory_entries_ :=
       [entry "001" 4 0; entry "100" 3 4; entry "200" 3 7; entry "100" 3 10];
     raw_data_ :=
       terminated "123" ++ terminated "ab" ++ terminated "cd" ++ terminated "ef" |}.

(** The directory and the data of a record with the given fields, the
    data starting at [offset]. *)
Fixpoint layout (fields : list (string * std_string)) (offset : N)
  : list DirectoryEntry * std_string :=
  match fields with
  | [] => ([], [])
  | (tag, value) :: fields' =>
      let field_length := (size value + 1)%N in
      let '(entries, data) := layout fields' (offset + field_length)%N in
      (entry tag field_length offset :: entries,
       value ++ [Marc.field_terminator] ++ data)
  end.

Definition record_of (fields : list (string * std_string)) : MarcRecord :=
  {| leader_ := a_leader;
     directory_entries_ := (layout fields 0).1;
     raw_data_ := (layout fields 0).2 |}.

(** The content of a field of a local block: [field] of the local record
    behind two blanks and the subfield code 0. *)
Definition local (field : string) : std_string :=
  str "  " ++ [Subfields.delimiter] ++ str "0" ++ str field.

Definition no_local_data : MarcRecord :=
  record_of [("001", str "123"); ("245", str "10" ++ [Subfields.delimiter] ++ str "aTitle")].

(** Two local blocks: indices 1 to 2 and 3 to 5. *)
Definition two_local_blocks : MarcRecord :=
  record_of [("001", str "123");
             ("LOK", local "000 xxxxxnu a22        4500");
             ("LOK", local "852  " ++ [Subfields.delimiter] ++ str "aDE-21");
             ("LOK", local "000 yyyyynu a22        4500");
             ("LOK", local "852 1" ++ [Subfields.delimiter] ++ str "aDE-21-110");
             ("LOK", local "866  " ++ [Subfields.delimiter] ++ str "x1.2003")].

(** The LOK fields hold two headers, and the first LOK field is none. *)
Definition headless_block : MarcRecord :=
  record_of [("001", str "123");
             ("LOK", local "852  " ++ [Subfields.delimiter] ++ str "aDE-21");
             ("LOK", local "000 xxxxxnu a22        4500");
             ("LOK", local "000 yyyyynu a22        4500")].

(** The two local blocks of [two_local_blocks], and behind them a field
    with another tag whose content starts like a header. *)
Definition header_behind_blocks : MarcRecord :=
  record_of [("001", str "123");
             ("LOK", local "000 xxxxxnu a22        4500");
             ("LOK", local "852  " ++ [Subfields.delimiter] ++ str "aDE-21");
             ("LOK", local "000 yyyyynu a22        4500");
             ("LOK", local "852 1" ++ [Subfields.delimiter] ++ str "aDE-21-110");
             ("SPR", local "000 zzzzz")].

(** A local field that ends with the tag of the local record: 7 bytes. *)
Definition short_local_field : MarcRecord :=
  record_of [("001", str "123"); ("LOK", local "852")].

(** A directory that is not in the order of its tags. *)
Definition unsorted : MarcRecord :=
  {| leader_ := a_leader;
     directory_entries_ := [entry "001" 4 0; entry "200" 3 4; entry "100" 3 7];
     raw_data_ := terminated "123" ++ terminated "cd" ++ terminated "ab" |}.

(** An article: bibliographic level 'a', and a 773 field whose subfield w
    is [parent]. *)
Definition article (parent : string) : FixArticleBiblioLevels.Record_ :=
  {| FixArticleBiblioLevels.leader := a_leader;
     FixArticleBiblioLevels.dir_entries := [entry "001" 10 0; entry "773" 30 10];
     FixArticleBiblioLevels.fields :=
       [str "987654321";
        str "08" ++ [Subfields.delimiter] ++ str "iIn" ++ [Subfields.delimiter]
          ++ str "w" ++ str parent] |}.

(** The globals once the serials are collected, nothing written yet. *)
Definition collected (serial : string) : FixArticleBiblioLevels.globals :=
  {| FixArticleBiblioLevels.serial_control_numbers := {[ str serial ]};
     FixArticleBiblioLevels.output := [];
     FixArticleBiblioLevels.patch_count := 0 |}.

(** 001 "123" and an 008 field of 40 bytes with the language code "ger". *)
Definition with_008 : MarcRecord :=
  record_of [("001", str "123");
             ("008", str "160101s2016    gw            000 0 ger  ")].

(** A serial with the control number [ppn]. *)
Definition serial (ppn : string) : FixArticleBiblioLevels.Record_ :=
  {| FixArticleBiblioLevels.leader := str "00000nas a2200000 a 4500";
     FixArticleBiblioLevels.dir_entries := [entry "001" 10 0];
     FixArticleBiblioLevels.fields := [str ppn] |}.

End Samples.

(** * Properties *)

(** ** C++ values *)

Section CppFacts.

Lemma size_app {A : Type} (u v : list A) : size (u ++ v) = (size u + size v)%N.
Proof. unfold size. rewrite length_app. lia. Qed.

Lemma to_unsigned_small n : (n < 2 ^ 32)%N → to_unsigned n = n.
Proof. intros Hn. unfold to_unsigned. by apply N.mod_small. Qed.

Lemma to_ptrdiff_small n : (n < 2 ^ 63)%N → to_ptrdiff n = Z.of_N n.
Proof.
  intros Hn. unfold to_ptrdiff.
  destruct (N.ltb_spec n (2 ^ 63)) as [_ | Hge]; [done | lia].
Qed.

(** The length stored in an entry minus one, computed in [unsigned]. *)
Lemma unsigned_pred n : (n < 2 ^ 32)%N → to_unsigned (n + 1 + 2 ^ 32 - 1) = n.
Proof.
  intros Hn. unfold to_unsigned.
  replace (n + 1 + 2 ^ 32 - 1)%N with (n + 1 * 2 ^ 32)%N by lia.
  rewrite N.Div0.mod_add. by apply N.mod_small.
Qed.

Lemma at_lookup {A : Type} (v : list A) (i : size_t) (x : A) :
  v !! N.to_nat i = Some x → at_ v i = Ok x.
Proof.
  intros Hx. unfold at_. rewrite Hx.
  apply lookup_lt_Some in Hx.
  destruct (N.ltb_spec i (size v)) as [_ | Hge]; [done |].
  unfold size in Hge. lia.
Qed.

Lemma at_outside {A : Type} (v : list A) (i : size_t) :
  (size v <= i)%N → at_ v i = Undefined.
Proof.
  intros Hi. unfold at_.
  destruct (N.ltb_spec i (size v)); [lia | done].
Qed.

Lemma substr_Ok (s : std_string) (pos n : size_t) :
  (pos <= size s)%N → substr s pos n = Ok (take (N.to_nat n) (drop (N.to_nat pos) s)).
Proof.
  intros Hpos. unfold substr.
  destruct (N.ltb_spec (size s) pos); [lia | done].
Qed.

(** Reading back what was appended at the end. *)
Lemma substr_appended (s v w : std_string) :
  substr (s ++ v ++ w) (size s) (size v) = Ok v.
Proof.
  rewrite substr_Ok by (rewrite size_app; lia).
  unfold size. rewrite !Nat2N.id.
  rewrite drop_app_length. by rewrite take_app_length.
Qed.

(** Bytes that lie inside [s] are not changed by an append. *)
Lemma substr_app_inside (s w : std_string) (pos n : size_t) :
  (pos + n <= size s)%N → substr (s ++ w) pos n = substr s pos n.
Proof.
  intros Hin.
  rewrite !substr_Ok by (rewrite ?size_app; lia).
  f_equal. unfold size in Hin.
  rewrite drop_app_le by lia.
  rewrite take_app_le; [done |]. rewrite length_drop. lia.
Qed.

(** A prefix shifts positions. *)
Lemma substr_app_shift (s w : std_string) (pos n : size_t) :
  substr (s ++ w) (size s + pos)%N n = substr w pos n.
Proof.
  unfold substr. rewrite size_app.
  destruct (N.ltb_spec (size w) pos), (N.ltb_spec (size s + size w) (size s + pos));
    try lia; [done |].
  do 2 f_equal. unfold size.
  replace (N.to_nat (N.of_nat (length s) + pos)) with (length s + N.to_nat pos) by lia.
  by rewrite drop_app_add.
Qed.

End CppFacts.

(** ** Accessors of the record *)

Section Accessors.

Implicit Types (r : MarcRecord) (e : DirectoryEntry) (tag : std_string).
Implicit Types (i index : size_t).

Lemma past_the_end_inside r i :
  (i < size (directory_entries_ r))%N →
  (size (directory_entries_ r) < 2 ^ 63)%N →
  Marc.past_the_end r i = Ok false.
Proof.
  intros Hi Hsize. unfold Marc.past_the_end.
  rewrite to_ptrdiff_small by lia.
  destruct (Z.ltb_spec (Z.of_N (size (directory_entries_ r))) (0 + Z.of_N i));
    [lia |].
  f_equal. apply Z.leb_gt. lia.
Qed.

(** [cbegin() + size()] is [cend()]. *)
Lemma past_the_end_at_end r :
  (size (directory_entries_ r) < 2 ^ 63)%N →
  Marc.past_the_end r (size (directory_entries_ r)) = Ok true.
Proof.
  intros Hsize. unfold Marc.past_the_end.
  rewrite to_ptrdiff_small by lia.
  rewrite Z.add_0_l, Z.ltb_irrefl.
  f_equal. apply Z.leb_refl.
Qed.

Lemma past_the_end_behind r i :
  (size (directory_entries_ r) < i)%N → (i < 2 ^ 63)%N →
  Marc.past_the_end r i = Undefined.
Proof.
  intros Hi Hsmall. unfold Marc.past_the_end.
  rewrite to_ptrdiff_small by lia.
  destruct (Z.ltb_spec (Z.of_N (size (directory_entries_ r))) (0 + Z.of_N i));
    [done | lia].
Qed.

(** An index of the upper half of [size_t] is a negative distance: the
    guard does not see it. *)
Lemma past_the_end_negative r i :
  (2 ^ 63 <= i)%N → (i < 2 ^ 64)%N → Marc.past_the_end r i = Ok false.
Proof.
  intros Hi Hmax. unfold Marc.past_the_end, to_ptrdiff.
  destruct (N.ltb_spec i (2 ^ 63)); [lia |].
  destruct (Z.ltb_spec (Z.of_N (size (directory_entries_ r)))
              (0 + (Z.of_N i - 2 ^ 64))); [unfold size in *; lia |].
  f_equal. apply Z.leb_gt. unfold size. lia.
Qed.

Lemma lookup_inside {A : Type} (v : list A) i x :
  v !! N.to_nat i = Some x → (i < size v)%N.
Proof. intros Hx%lookup_lt_Some. unfold size. lia. Qed.

Lemma getFieldData_entry r i e :
  directory_entries_ r !! N.to_nat i = Some e →
  (size (directory_entries_ r) < 2 ^ 63)%N →
  Marc.getFieldData r i =
    substr (raw_data_ r) (DirEntry.getFieldOffset e)
           (to_unsigned (DirEntry.getFieldLength e + 2 ^ 32 - 1)).
Proof.
  intros He Hsize. unfold Marc.getFieldData.
  rewrite past_the_end_inside by eauto using lookup_inside.
  cbn [mbind outcome_bind].
  by rewrite (at_lookup _ _ _ He).
Qed.

(** The guarded accessors at the index that the guard recognises. *)
Lemma accessors_at_end r :
  (size (directory_entries_ r) < 2 ^ 63)%N →
  Marc.getFieldData r (size (directory_entries_ r)) = Ok [] ∧
  Marc.getSubfields r (size (directory_entries_ r)) = Ok Subfields.empty ∧
  Marc.getTag r (size (directory_entries_ r)) = Ok [].
Proof.
  intros Hsize.
  unfold Marc.getFieldData, Marc.getSubfields, Marc.getTag.
  by rewrite past_the_end_at_end.
Qed.

(** Behind [cend()] the sum of the guard is not defined. *)
Lemma accessors_behind r i :
  (size (directory_entries_ r) < i)%N → (i < 2 ^ 63)%N →
  Marc.getFieldData r i = Undefined ∧
  Marc.getSubfields r i = Undefined ∧
  Marc.getTag r i = Undefined.
Proof.
  intros Hi Hsmall.
  unfold Marc.getFieldData, Marc.getSubfields, Marc.getTag.
  by rewrite past_the_end_behind.
Qed.

(** On a record that satisfies the invariant [getFieldData] returns, up to
    the index of [cend()]. *)
Lemma getFieldData_returns r i :
  Marc.entries_in_bounds r →
  (size (directory_entries_ r) < 2 ^ 63)%N → (i <= size (directory_entries_ r))%N →
  ∃ content, Marc.getFieldData r i = Ok content.
Proof.
  intros Hbounds Hsize Hi.
  destruct (directory_entries_ r !! N.to_nat i) as [e |] eqn:He.
  - rewrite (getFieldData_entry _ _ _ He) by done.
    apply list_elem_of_lookup_2 in He.
    destruct (proj1 (Forall_forall _ _) Hbounds e He) as [_ Hend].
    rewrite substr_Ok by lia. eauto.
  - apply lookup_ge_None in He.
    assert (i = size (directory_entries_ r)) as -> by (unfold size in *; lia).
    exists []. by apply accessors_at_end.
Qed.

Lemma getFieldIndex_from_found pre e post tag i :
  Forall (λ x, DirEntry.getTag x ≠ tag) pre → DirEntry.getTag e = tag →
  Marc.getFieldIndex_from (pre ++ e :: post) tag i = (i + size pre)%N.
Proof.
  intros Hpre He. revert i.
  induction Hpre as [| x pre Hx _ IH]; intros i; simpl.
  - rewrite bool_decide_eq_true_2 by done. unfold size. simpl. lia.
  - rewrite bool_decide_eq_false_2 by done. rewrite IH. unfold size. simpl. lia.
Qed.

Lemma getFieldIndex_from_absent entries tag i :
  Forall (λ x, DirEntry.getTag x ≠ tag) entries →
  Marc.getFieldIndex_from entries tag i = Marc.FIELD_NOT_FOUND.
Proof.
  intros Hall. revert i.
  induction Hall as [| x entries Hx _ IH]; intros i; simpl; [done |].
  by rewrite bool_decide_eq_false_2.
Qed.

Lemma insertion_location_le entries tag :
  Marc.insertion_location entries tag ≤ length entries.
Proof.
  induction entries as [| e entries IH]; simpl; [done |].
  destruct (string_ge _ _); simpl; lia.
Qed.

End Accessors.

(** ** Inserting and updating fields *)

Section Mutation.

Implicit Types (r : MarcRecord) (e : DirectoryEntry) (tag value : std_string).
Implicit Types (i j index : size_t).

Lemma insertField_entries r tag value :
  let location := Marc.insertion_location (directory_entries_ r) tag in
  directory_entries_ (Marc.insertField r tag value).1 =
    take location (directory_entries_ r)
    ++ DirEntry.make tag (size value + 1) (size (raw_data_ r))
    :: drop location (directory_entries_ r).
Proof. done. Qed.

Lemma insertField_lookup r tag value :
  directory_entries_ (Marc.insertField r tag value).1
    !! N.to_nat (Marc.insertField r tag value).2
  = Some (DirEntry.make tag (size value + 1) (size (raw_data_ r))).
Proof.
  rewrite insertField_entries. simpl. rewrite Nat2N.id.
  pose proof (insertion_location_le (directory_entries_ r) tag) as Hle.
  rewrite lookup_app_r by (rewrite length_take; lia).
  rewrite length_take, Nat.min_l by done.
  by rewrite Nat.sub_diag.
Qed.

Lemma insertField_size r tag value :
  size (directory_entries_ (Marc.insertField r tag value).1)
  = (size (directory_entries_ r) + 1)%N.
Proof.
  rewrite insertField_entries. simpl.
  pose proof (insertion_location_le (directory_entries_ r) tag) as Hle.
  unfold size. rewrite length_app, length_take. simpl. rewrite length_drop. lia.
Qed.

(** The index that [insertField] returns leads to the inserted value. *)
Lemma insertField_getFieldData r tag value :
  (size (directory_entries_ r) + 1 < 2 ^ 63)%N →
  (size (raw_data_ r) < 2 ^ 32)%N →
  (size value + 1 < 2 ^ 32)%N →
  Marc.getFieldData (Marc.insertField r tag value).1 (Marc.insertField r tag value).2
  = Ok value.
Proof.
  intros Hentries Hraw Hvalue.
  rewrite (getFieldData_entry _ _ _ (insertField_lookup r tag value))
    by (rewrite insertField_size; lia).
  unfold DirEntry.getFieldOffset, DirEntry.getFieldLength, DirEntry.make. simpl.
  rewrite (to_unsigned_small (size (raw_data_ r))) by done.
  rewrite (to_unsigned_small (size value + 1)) by done.
  rewrite unsigned_pred by lia.
  apply substr_appended.
Qed.

(** C1 as stated fails when the record has a field with the tag already:
    [getFieldIndex] finds the older field, in front of the new one. *)
Lemma insertField_same_tag_counterexample :
  Marc.getFieldData (Marc.insertField Samples.three_fields (str "100") (str "zz")).1
    (Marc.getFieldIndex
       (Marc.insertField Samples.three_fields (str "100") (str "zz")).1 (str "100"))
  = Ok (str "ab")
  ∧ Ok (str "ab") ≠ Ok (str "zz").
Proof. split; [by vm_compute | by vm_compute]. Qed.

(** C3.  On a record that satisfies the invariant of the data model,
    [updateField(i, new_value)] at a valid index appends the value and the
    terminator to [raw_data_], which keeps its old bytes and grows; entry [i]
    keeps its tag and gets the old length of [raw_data_] as offset and
    [length(new_value) + 1] as length; every other entry is unchanged;
    [getFieldData(i)] is the new value and [getFieldData(j)] is unchanged for
    every other [j]. *)
Theorem updateField_appends r i new_value e :
  directory_entries_ r !! N.to_nat i = Some e →
  Marc.entries_in_bounds r →
  (size (directory_entries_ r) < 2 ^ 63)%N →
  (size (raw_data_ r) < 2 ^ 32)%N →
  (size new_value + 1 < 2 ^ 32)%N →
  ∃ r',
    Marc.updateField r i new_value = Ok r' ∧
    raw_data_ r' = raw_data_ r ++ new_value ++ [Marc.field_terminator] ∧
    (size (raw_data_ r) < size (raw_data_ r'))%N ∧
    directory_entries_ r' !! N.to_nat i =
      Some {| tag_ := tag_ e;
              field_length_ := (size new_value + 1)%N;
              field_offset_ := size (raw_data_ r) |} ∧
    (∀ j, j ≠ i →
       directory_entries_ r' !! N.to_nat j = directory_entries_ r !! N.to_nat j) ∧
    Marc.getFieldData r' i = Ok new_value ∧
    (∀ j, j ≠ i → Marc.getFieldData r' j = Marc.getFieldData r j).
Proof.
  intros He Hbounds Hentries Hraw Hvalue.
  pose proof (lookup_lt_Some _ _ _ He) as Hlt.
  eexists. unfold Marc.updateField. rewrite (at_lookup _ _ _ He). simpl.
  split; [reflexivity |]. simpl.
  unfold DirEntry.setFieldOffset, DirEntry.setFieldLength. simpl.
  rewrite (to_unsigned_small (size (raw_data_ r))) by done.
  rewrite (to_unsigned_small (size new_value + 1)) by done.
  set (e' := {| tag_ := tag_ e |}).
  set (r' := {| leader_ := leader_ r |}).
  assert (size (directory_entries_ r') = size (directory_entries_ r)) as Hsame.
  { unfold size. simpl. by rewrite length_insert. }
  assert (directory_entries_ r' !! N.to_nat i = Some e') as He'.
  { simpl. by apply list_lookup_insert_eq. }
  assert (∀ j, j ≠ i →
    directory_entries_ r' !! N.to_nat j = directory_entries_ r !! N.to_nat j) as Hother.
  { intros j Hj. simpl. apply list_lookup_insert_ne. lia. }
  split; [done |].
  split; [rewrite !size_app; unfold size; simpl; lia |].
  split; [done |].
  split; [done |].
  split.
  - rewrite (getFieldData_entry _ _ _ He') by (rewrite Hsame; lia).
    unfold DirEntry.getFieldOffset, DirEntry.getFieldLength. simpl.
    rewrite unsigned_pred by lia. apply substr_appended.
  - intros j Hj. specialize (Hother j Hj).
    unfold Marc.getFieldData, Marc.past_the_end. rewrite Hsame.
    destruct (_ <? _)%Z; [done |]. cbn [mbind outcome_bind].
    destruct (_ <=? _)%Z; [done |].
    unfold at_. rewrite Hsame, Hother.
    destruct (j <? _)%N; [| done].
    destruct (directory_entries_ r !! N.to_nat j) as [ej |] eqn:Hej; [| done].
    simpl.
    apply list_elem_of_lookup_2 in Hej.
    destruct (proj1 (Forall_forall _ _) Hbounds ej Hej) as [Hone Hend].
    apply substr_app_inside.
    unfold DirEntry.getFieldOffset, DirEntry.getFieldLength in *.
    assert (to_unsigned (field_length_ ej + 2 ^ 32 - 1) <= field_length_ ej - 1)%N.
    { unfold to_unsigned.
      replace (field_length_ ej + 2 ^ 32 - 1)%N
        with (field_length_ ej - 1 + 1 * 2 ^ 32)%N by lia.
      rewrite N.Div0.mod_add. apply N.Div0.mod_le. }
    lia.
Qed.

Lemma updateField_appends_witness :
  ∃ r',
    Marc.updateField Samples.three_fields 1%N (str "xyz") = Ok r' ∧
    raw_data_ r' =
      raw_data_ Samples.three_fields ++ str "xyz" ++ [Marc.field_terminator] ∧
    (size (raw_data_ Samples.three_fields) < size (raw_data_ r'))%N ∧
    directory_entries_ r' !! N.to_nat 1%N =
      Some {| tag_ := tag_ (Samples.entry "100" 3 4);
              field_length_ := (size (str "xyz") + 1)%N;
              field_offset_ := size (raw_data_ Samples.three_fields) |} ∧
    (∀ j, j ≠ 1%N →
       directory_entries_ r' !! N.to_nat j
       = directory_entries_ Samples.three_fields !! N.to_nat j) ∧
    Marc.getFieldData r' 1%N = Ok (str "xyz") ∧
    (∀ j, j ≠ 1%N → Marc.getFieldData r' j = Marc.getFieldData Samples.three_fields j).
Proof.
  apply (updateField_appends Samples.three_fields 1%N (str "xyz")
           (Samples.entry "100" 3 4)).
  - reflexivity.
  - repeat constructor; by vm_compute.
  - by vm_compute.
  - by vm_compute.
  - by vm_compute.
Defined.

End Mutation.

(** ** The guard of the accessors *)

(** From [2^63] on an index is a negative distance for the guard: the
    accessors read [directory_entries_[index]] outside of the vector. *)
Lemma accessors_upper_half (r : MarcRecord) (index : size_t) :
  (size (directory_entries_ r) < 2 ^ 63)%N →
  (2 ^ 63 <= index)%N → (index < 2 ^ 64)%N →
  Marc.getFieldData r index = Undefined ∧
  Marc.getSubfields r index = Undefined ∧
  Marc.getTag r index = Undefined.
Proof.
  intros Hsize Hlow Hhigh.
  unfold Marc.getSubfields, Marc.getFieldData, Marc.getTag.
  rewrite past_the_end_negative by done. cbn [mbind outcome_bind].
  by rewrite at_outside by lia.
Qed.

(** C9 does not hold for the not-found value.  The guard
    [directory_entries_.cbegin() + index >= directory_entries_.cend()] turns
    [FIELD_NOT_FOUND] into the distance -1, the accessor goes on to
    [directory_entries_[index]] and reads outside of the vector. *)
Lemma accessors_at_FIELD_NOT_FOUND :
  Marc.getFieldIndex Samples.three_fields (str "245") = Marc.FIELD_NOT_FOUND ∧
  Marc.getFieldData Samples.three_fields Marc.FIELD_NOT_FOUND = Undefined ∧
  Marc.getSubfields Samples.three_fields Marc.FIELD_NOT_FOUND = Undefined ∧
  Marc.getTag Samples.three_fields Marc.FIELD_NOT_FOUND = Undefined.
Proof. repeat split; by vm_compute. Qed.

(** ** All fields of a tag *)

Section Indices.

Implicit Types (r : MarcRecord) (e : DirectoryEntry) (tag : std_string).

Lemma getFieldIndices_from_run run post tag (p : nat) :
  Forall (λ e, DirEntry.getTag e = tag) run →
  (∀ e, head post = Some e → DirEntry.getTag e ≠ tag) →
  Marc.getFieldIndices_from (run ++ post) tag (N.of_nat p)
  = N.of_nat <$> seq p (length run).
Proof.
  intros Hrun Hpost. revert p.
  induction Hrun as [| e run He _ IH]; intros p; simpl.
  - destruct post as [| e post]; [done |]. simpl.
    by rewrite bool_decide_eq_false_2 by auto.
  - rewrite bool_decide_eq_true_2 by done.
    f_equal. rewrite <- IH. f_equal. lia.
Qed.

(** C5, as amended.  [getFieldIndices(t)] returns, in ascending order, the
    indices of the run of entries with tag [t] that starts at the first
    entry with tag [t], and nothing when no entry has the tag.  The
    directory is cut into [pre], without [t], the run, and [post], which
    does not start with [t]; what [post] holds further on does not matter. *)
Theorem getFieldIndices_first_run r tag pre run post :
  directory_entries_ r = pre ++ run ++ post →
  Forall (λ e, DirEntry.getTag e ≠ tag) pre →
  Forall (λ e, DirEntry.getTag e = tag) run →
  (∀ e, head post = Some e → DirEntry.getTag e ≠ tag) →
  (run = [] → post = []) →
  (size (directory_entries_ r) < 2 ^ 64 - 1)%N →
  Marc.getFieldIndices r tag = N.of_nat <$> seq (length pre) (length run).
Proof.
  intros Hentries Hpre Hrun Hpost Hnone Hsize.
  unfold Marc.getFieldIndices, Marc.getFieldIndex. rewrite Hentries.
  destruct run as [| e run].
  - rewrite (Hnone eq_refl), !app_nil_r in *.
    rewrite getFieldIndex_from_absent by done.
    rewrite Hentries in Hsize.
    destruct (N.ltb_spec Marc.FIELD_NOT_FOUND (size pre)) as [Hlt | _]; [| done].
    unfold Marc.FIELD_NOT_FOUND, SIZE_MAX in Hlt. lia.
  - rewrite (getFieldIndex_from_found pre e (run ++ post)); [| done | by inversion Hrun].
    rewrite N.add_0_l.
    destruct (N.ltb_spec (size pre) (size (pre ++ (e :: run) ++ post))) as [_ | Hge].
    + unfold size. rewrite Nat2N.id, drop_app_length.
      by apply getFieldIndices_from_run.
    + rewrite size_app in Hge. unfold size in Hge. simpl in Hge. lia.
Qed.

Lemma getFieldIndices_first_run_witness :
  Marc.getFieldIndices Samples.split_runs (str "100") = N.of_nat <$> seq 1 1.
Proof.
  apply (getFieldIndices_first_run Samples.split_runs (str "100")
           [Samples.entry "001" 4 0] [Samples.entry "100" 3 4]
           [Samples.entry "200" 3 7; Samples.entry "100" 3 10]).
  - reflexivity.
  - repeat constructor; by vm_compute.
  - repeat constructor.
  - intros e [= <-]. by vm_compute.
  - discriminate.
  - by vm_compute.
Defined.

(** C5 as stated fails: the entry at index 3 has the tag, and is not
    returned, because the entry at index 2 ends the run. *)
Lemma getFieldIndices_split_runs_counterexample :
  Marc.getFieldIndices Samples.split_runs (str "100") = [1%N] ∧
  DirEntry.getTag <$> directory_entries_ Samples.split_runs !! 3 = Some (str "100").
Proof. split; by vm_compute. Qed.

End Indices.

(** ** Dropping the fields of a tag *)

Section FilterTags.

Implicit Types (e : DirectoryEntry) (tag : std_string).
Implicit Types (entries new_entries : list DirectoryEntry).

Lemma filter_all {A : Type} (P : A → Prop) `{!∀ x, Decision (P x)} (l : list A) :
  Forall P l → filter P l = l.
Proof.
  induction 1 as [| x l Hx _ IH]; [done |].
  by rewrite filter_cons_True, IH.
Qed.

Lemma filter_none {A : Type} (P : A → Prop) `{!∀ x, Decision (P x)} (l : list A) :
  Forall (λ x, ¬ P x) l → filter P l = [].
Proof.
  induction 1 as [| x l Hx _ IH]; [done |].
  by rewrite filter_cons_False.
Qed.

Lemma run_length_le entries tag : Marc.run_length entries tag ≤ length entries.
Proof.
  induction entries as [| e entries IH]; simpl; [done |].
  case_bool_decide; simpl; lia.
Qed.

Lemma run_length_run entries tag :
  Forall (λ e, DirEntry.getTag e = tag) (take (Marc.run_length entries tag) entries).
Proof.
  induction entries as [| e entries IH]; simpl; [done |].
  case_bool_decide; simpl; [by constructor | done].
Qed.

Lemma run_length_stop entries tag e :
  entries !! Marc.run_length entries tag = Some e → DirEntry.getTag e ≠ tag.
Proof.
  induction entries as [| x entries IH]; simpl; [done |].
  case_bool_decide; simpl; [done |]. by intros [= <-].
Qed.

Lemma range_Ok entries (first last : nat) :
  first ≤ last ≤ length entries →
  Marc.range entries (N.of_nat first) (N.of_nat last)
  = Ok (take (last - first) (drop first entries)).
Proof.
  intros [Hfl Hlast]. unfold Marc.range, size.
  rewrite !Nat2N.id.
  destruct (N.leb_spec (N.of_nat first) (N.of_nat last)); [| lia].
  destruct (N.leb_spec (N.of_nat last) (N.of_nat (length entries))); [done | lia].
Qed.

(** More iterations than there are entries left do not change what the
    scan of [filterTags] returns. *)
Lemma filterTags_loop_enough entries (drop_tags : gset std_string) :
  ∀ fuel fuel' entry,
    length entries - entry ≤ fuel → length entries - entry ≤ fuel' →
    Marc.filterTags_loop fuel entries drop_tags entry
    = Marc.filterTags_loop fuel' entries drop_tags entry.
Proof.
  induction fuel as [| fuel IH]; intros fuel' entry Hfuel Hfuel'.
  - destruct fuel' as [| fuel']; [done |]. simpl.
    by rewrite (lookup_ge_None_2 entries entry) by lia.
  - destruct fuel' as [| fuel']; simpl.
    + by rewrite (lookup_ge_None_2 entries entry) by lia.
    + destruct (entries !! entry) as [e |] eqn:He; [| done].
      apply lookup_lt_Some in He.
      case_bool_decide; [f_equal |]; apply IH; lia.
Qed.

(** The blocks that [filterTags] computes for one tag, handed to the loop
    of [deleteFields]: [copy_start] is where the last block ended, [entry]
    where the scan goes on, and no entry between the two has the tag. *)
Lemma deleteFields_filterTags_loop entries tag :
  ∀ fuel entry copy_start new_entries,
    copy_start ≤ entry →
    copy_start ≤ length entries →
    length entries - entry ≤ fuel →
    (∀ k e, copy_start ≤ k < entry → entries !! k = Some e → DirEntry.getTag e ≠ tag) →
    Marc.deleteFields_loop entries
      (Marc.filterTags_loop fuel entries {[ tag ]} entry)
      new_entries (N.of_nat copy_start)
    = Ok (new_entries
          ++ filter (λ e, DirEntry.getTag e ≠ tag) (drop copy_start entries)).
Proof.
  assert (∀ entry copy_start new_entries,
    copy_start ≤ length entries → length entries ≤ entry →
    (∀ k e, copy_start ≤ k < entry → entries !! k = Some e → DirEntry.getTag e ≠ tag) →
    Marc.deleteFields_loop entries [] new_entries (N.of_nat copy_start)
    = Ok (new_entries
          ++ filter (λ e, DirEntry.getTag e ≠ tag) (drop copy_start entries)))
    as Hdone.
  { intros entry copy_start new_entries Hcs Hend Hclean. simpl.
    unfold size. rewrite range_Ok by lia. simpl.
    rewrite take_ge by (rewrite length_drop; lia).
    rewrite filter_all; [done |].
    apply Forall_forall. intros e [k Hk]%list_elem_of_lookup_1.
    rewrite lookup_drop in Hk.
    apply (Hclean (copy_start + k) e); [| done].
    apply lookup_lt_Some in Hk. lia. }
  induction fuel as [| fuel IH]; intros entry copy_start new_entries Hle Hcs Hfuel Hclean.
  { simpl. apply (Hdone entry); [done | lia | done]. }
  simpl. destruct (entries !! entry) as [e |] eqn:He.
  2:{ apply lookup_ge_None in He. by apply (Hdone entry). }
  pose proof (lookup_lt_Some _ _ _ He) as Hlt.
  case_bool_decide as Htag.
  - apply elem_of_singleton in Htag. rewrite Htag.
    set (n := Marc.run_length (drop entry entries) tag).
    assert (n ≤ length entries - entry) as Hn.
    { unfold n. etransitivity; [apply run_length_le |]. by rewrite length_drop. }
    simpl. rewrite range_Ok by lia. simpl.
    rewrite IH; [| lia | lia | lia |].
    + f_equal. rewrite <- (assoc_L (++)). f_equal.
      rewrite <- (take_drop (entry - copy_start) (drop copy_start entries)) at 2.
      rewrite filter_app. rewrite drop_drop.
      replace (copy_start + (entry - copy_start)) with entry by lia.
      rewrite (filter_all _ (take (entry - copy_start) (drop copy_start entries))).
      2:{ apply Forall_forall. intros x [k Hk]%list_elem_of_lookup_1.
          apply lookup_take_Some in Hk as [Hk Hklt].
          rewrite lookup_drop in Hk.
          apply (Hclean (copy_start + k) x); [lia | done]. }
      f_equal.
      rewrite <- (take_drop n (drop entry entries)).
      rewrite filter_app, drop_drop.
      rewrite (filter_none _ (take n (drop entry entries))); [done |].
      eapply Forall_impl; [apply run_length_run |].
      intros x Hx. simpl in Hx. by intros Hneq.
    + intros k x Hk Hx. assert (k = entry + n) as -> by lia.
      apply (run_length_stop (drop entry entries) tag).
      by rewrite lookup_drop.
  - rewrite elem_of_singleton in Htag.
    apply IH; [lia | lia | lia |].
    intros k x Hk Hx. destruct (decide (k = entry)) as [-> | Hne].
    + by simplify_eq.
    + apply (Hclean k x); [lia | done].
Qed.

Lemma filterTags_single (r : MarcRecord) tag :
  Marc.filterTags r {[ tag ]}
  = Ok {| leader_ := leader_ r;
          directory_entries_ :=
            filter (λ e, DirEntry.getTag e ≠ tag) (directory_entries_ r);
          raw_data_ := raw_data_ r |}.
Proof.
  unfold Marc.filterTags, Marc.deleteFields.
  change 0%N with (N.of_nat 0).
  rewrite deleteFields_filterTags_loop; [done | lia | lia | lia |].
  intros k e Hk. lia.
Qed.

(** C4.  For every record and every tag [t], [filterTags({t})] returns, and
    [getFieldIndex(t)] on the record it leaves is [FIELD_NOT_FOUND]: no
    entry with tag [t] remains, however the entries with tag [t] are
    spread over the directory. *)
Theorem filterTags_then_not_found (r : MarcRecord) tag :
  ∃ r', Marc.filterTags r {[ tag ]} = Ok r' ∧
        Marc.getFieldIndex r' tag = Marc.FIELD_NOT_FOUND ∧
        Forall (λ e, DirEntry.getTag e ≠ tag) (directory_entries_ r').
Proof.
  eexists. split; [apply filterTags_single |].
  assert (Forall (λ e, DirEntry.getTag e ≠ tag)
            (filter (λ e, DirEntry.getTag e ≠ tag) (directory_entries_ r))) as Hnone.
  { apply Forall_forall. by intros e [He _]%list_elem_of_filter. }
  split; [| done].
  by apply getFieldIndex_from_absent.
Qed.

End FilterTags.

(** ** Local data blocks *)

Section LocalBlocks.

Implicit Types (r : MarcRecord) (e : DirectoryEntry) (tag : std_string).
Implicit Types (i first second : size_t).

(** [getFieldIndex] returns the first entry with the tag. *)
Lemma getFieldIndex_from_le entries tag i (k : nat) e :
  entries !! k = Some e → DirEntry.getTag e = tag →
  (Marc.getFieldIndex_from entries tag i <= i + N.of_nat k)%N.
Proof.
  revert i k. induction entries as [| x entries IH]; intros i k Hk He; [done |].
  simpl. case_bool_decide; [lia |].
  destruct k as [| k]; simpl in Hk; [by simplify_eq |].
  specialize (IH (i + 1)%N k Hk He). lia.
Qed.

Lemma elem_of_indices first second i :
  i ∈ LocalBlockSpec.indices first second ↔ (first <= i < second)%N.
Proof.
  unfold LocalBlockSpec.indices. rewrite list_elem_of_fmap. split.
  - intros (k & -> & Hk%elem_of_seq). lia.
  - intros Hi. exists (N.to_nat (i - first)). split; [lia |].
    apply elem_of_seq. lia.
Qed.

Lemma indices_cons first second :
  (first < second)%N →
  LocalBlockSpec.indices first second
  = first :: LocalBlockSpec.indices (first + 1) second.
Proof.
  intros Hlt. unfold LocalBlockSpec.indices.
  replace (N.to_nat (second - first)) with (S (N.to_nat (second - (first + 1)))) by lia.
  cbn [seq fmap list_fmap]. rewrite N.add_0_r. f_equal.
  rewrite <- fmap_S_seq, <- list_fmap_compose.
  apply list_fmap_ext. intros _ k _. simpl. lia.
Qed.

Lemma indices_nil first : LocalBlockSpec.indices first first = [].
Proof. unfold LocalBlockSpec.indices. by rewrite N.sub_diag. Qed.

(** The loop cuts a range at every field that starts with the header
    literal. *)
Lemma findAllLocalDataBlocks_loop_cuts r (iterations : nat) (start finish : size_t) :
  Marc.entries_in_bounds r →
  (size (directory_entries_ r) < 2 ^ 63)%N →
  (finish + N.of_nat iterations = size (directory_entries_ r))%N →
  Marc.findAllLocalDataBlocks_loop r iterations start finish
  = Ok (LocalBlockSpec.ranges_between start
          (List.filter (LocalBlockSpec.is_header r)
             (LocalBlockSpec.indices finish (size (directory_entries_ r))))
          (size (directory_entries_ r))).
Proof.
  intros Hbounds Hsize. revert start finish.
  induction iterations as [| n IH]; intros start finish Hend.
  - assert (finish = size (directory_entries_ r)) as -> by lia.
    by rewrite indices_nil.
  - cbn [Marc.findAllLocalDataBlocks_loop].
    destruct (getFieldData_returns r finish Hbounds Hsize) as [content Hcontent]; [lia |].
    rewrite Hcontent. cbn [mbind outcome_bind].
    rewrite (indices_cons finish) by lia. cbn [List.filter].
    assert (LocalBlockSpec.is_header r finish
            = StartsWith content Marc.local_block_header) as ->
      by (unfold LocalBlockSpec.is_header; by rewrite Hcontent).
    destruct (StartsWith content Marc.local_block_header).
    + rewrite IH by lia. done.
    + apply IH. lia.
Qed.

Lemma findAllLocalDataBlocks_loop_tiles r (iterations : nat) (start finish : size_t) :
  Marc.entries_in_bounds r →
  (size (directory_entries_ r) < 2 ^ 63)%N →
  (start < finish)%N →
  (finish + N.of_nat iterations = size (directory_entries_ r))%N →
  ∃ ranges,
    Marc.findAllLocalDataBlocks_loop r iterations start finish = Ok ranges ∧
    Directory.tiles ranges start (size (directory_entries_ r)) ∧
    Forall (λ range, Marc.starts_local_block r range.1) (tail ranges).
Proof.
  intros Hbounds Hsize. revert start finish.
  induction iterations as [| n IH]; intros start finish Hlt Hend.
  - eexists. split; [reflexivity |]. simpl. repeat split; [done | lia | done].
  - cbn [Marc.findAllLocalDataBlocks_loop].
    destruct (getFieldData_returns r finish Hbounds Hsize) as [content Hcontent]; [lia |].
    rewrite Hcontent. cbn [mbind outcome_bind].
    destruct (StartsWith content Marc.local_block_header) eqn:Hheader.
    + destruct (IH finish (finish + 1)%N) as (ranges & -> & Htiles & Hheaders); [lia | lia |].
      cbn [mbind outcome_bind]. eexists. split; [reflexivity |].
      destruct ranges as [| range ranges]; [done |].
      split.
      { change (start = start ∧ (start < finish)%N ∧
                Directory.tiles (range :: ranges) finish (size (directory_entries_ r))).
        split; [done | split; [done | exact Htiles]]. }
      cbn [tail]. apply Forall_cons_2; [| done].
      destruct Htiles as (-> & _). by exists content.
    + destruct (IH start (finish + 1)%N) as (ranges & -> & Htiles & Hheaders); [lia | lia |].
      by exists ranges.
Qed.

Lemma tiles_cover ranges first last i :
  Directory.tiles ranges first last → (first <= i < last)%N →
  ∃ range, range ∈ ranges ∧ (range.1 <= i < range.2)%N.
Proof.
  revert first. induction ranges as [| range ranges IH]; intros first Htiles Hi; [done |].
  destruct range as [low high]. destruct Htiles as (Hfirst & Hlt & Hrest).
  cbn [fst snd] in *. subst first.
  destruct (N.lt_ge_cases i high) as [Hin | Hout].
  - exists (low, high). split; [apply list_elem_of_here | cbn [fst snd]; lia].
  - destruct ranges as [| range' ranges]; [subst last; lia |].
    destruct (IH high Hrest) as (found & Hfound & Hcovers); [lia |].
    exists found. split; [by apply list_elem_of_further | done].
Qed.

Lemma length_ranges_between first boundaries last :
  length (LocalBlockSpec.ranges_between first boundaries last) = S (length boundaries).
Proof.
  revert first. induction boundaries as [| b boundaries IH]; intros first; [done |].
  cbn [LocalBlockSpec.ranges_between length]. by rewrite IH.
Qed.

(** C2, as amended.  On a record without a LOK entry
    [findAllLocalDataBlocks] returns no range.  On a record that satisfies
    the invariant of the data model and has a LOK entry it returns the
    ranges from the first LOK field to the end of the directory, cut at
    every field behind the first LOK field whose content starts with the
    header literal, whatever the tag of that field and whatever the content
    of the first LOK field: one range more than there are such fields.  The
    ranges are not empty, each ends where the next starts, and every LOK
    entry lies in one of them.  They are the two ranges from the first LOK
    field to [second] and from [second] to the end of the directory when the
    field at [second] is the one such field. *)
Theorem findAllLocalDataBlocks_ranges r :
  (Forall (λ e, DirEntry.getTag e ≠ str "LOK") (directory_entries_ r) →
   Marc.findAllLocalDataBlocks r = Ok [])
  ∧
  (∀ (k : nat) e,
     Marc.entries_in_bounds r →
     (size (directory_entries_ r) < 2 ^ 63)%N →
     directory_entries_ r !! k = Some e → DirEntry.getTag e = str "LOK" →
     let first := Marc.getFieldIndex r (str "LOK") in
     let last := size (directory_entries_ r) in
     ∃ ranges,
       Marc.findAllLocalDataBlocks r = Ok ranges ∧
       ranges = LocalBlockSpec.ranges_between first
                  (LocalBlockSpec.headers_behind r first) last ∧
       length ranges = S (length (LocalBlockSpec.headers_behind r first)) ∧
       Directory.tiles ranges first last ∧
       (∀ i e', directory_entries_ r !! N.to_nat i = Some e' →
                DirEntry.getTag e' = str "LOK" →
                ∃ range, range ∈ ranges ∧ (range.1 <= i < range.2)%N) ∧
       (∀ second, LocalBlockSpec.headers_behind r first = [second] →
                  ranges = [(first, second); (second, last)])).
Proof.
  split.
  - intros Hnone. unfold Marc.findAllLocalDataBlocks, Marc.getFieldIndex.
    by rewrite getFieldIndex_from_absent.
  - intros k e Hbounds Hsize Hk He first last.
    pose proof (getFieldIndex_from_le _ _ 0%N _ _ Hk He) as Hfirst.
    fold (Marc.getFieldIndex r (str "LOK")) in Hfirst. fold first in Hfirst.
    pose proof (lookup_lt_Some _ _ _ Hk) as Hlt.
    assert (first < last)%N as Horder by (unfold last, size; lia).
    assert (Marc.findAllLocalDataBlocks r
            = Marc.findAllLocalDataBlocks_loop r (N.to_nat (last - (first + 1)))
                first (first + 1)) as Hloop.
    { unfold Marc.findAllLocalDataBlocks. fold first.
      rewrite bool_decide_eq_false_2; [done |].
      unfold Marc.FIELD_NOT_FOUND, SIZE_MAX. unfold last in Horder. lia. }
    destruct (findAllLocalDataBlocks_loop_tiles r (N.to_nat (last - (first + 1)))
                first (first + 1) Hbounds Hsize) as (ranges & Hranges & Htiles & _);
      [lia | unfold last; lia |].
    assert (first + 1 + N.of_nat (N.to_nat (last - (first + 1)))
            = size (directory_entries_ r))%N as Hend by (unfold last in *; lia).
    pose proof (findAllLocalDataBlocks_loop_cuts r (N.to_nat (last - (first + 1)))
                  first (first + 1) Hbounds Hsize Hend) as Hcuts.
    rewrite Hranges in Hcuts. fold last in Hcuts.
    injection Hcuts as Hcuts.
    exists ranges. split; [by rewrite Hloop |].
    split; [done |].
    split; [rewrite Hcuts; apply length_ranges_between |].
    split; [done |].
    split.
    + intros i e' Hi He'.
      pose proof (getFieldIndex_from_le _ _ 0%N _ _ Hi He') as Hlow.
      fold (Marc.getFieldIndex r (str "LOK")) in Hlow. fold first in Hlow.
      pose proof (lookup_inside _ _ _ Hi) as Hhigh. fold last in Hhigh.
      apply (tiles_cover ranges first last); [done | lia].
    + intros second Hone. unfold LocalBlockSpec.headers_behind in Hone.
      fold last in Hone. by rewrite Hcuts, Hone.
Qed.

Lemma findAllLocalDataBlocks_ranges_witness :
  Marc.findAllLocalDataBlocks Samples.no_local_data = Ok [] ∧
  ∃ ranges, Marc.findAllLocalDataBlocks Samples.two_local_blocks = Ok ranges ∧
            ranges = [(1, 3); (3, 6)]%N.
Proof.
  split.
  - apply (proj1 (findAllLocalDataBlocks_ranges Samples.no_local_data)).
    repeat constructor; by vm_compute.
  - assert (Marc.entries_in_bounds Samples.two_local_blocks) as Hbounds
      by (repeat constructor; by vm_compute).
    assert (size (directory_entries_ Samples.two_local_blocks) < 2 ^ 63)%N as Hsize
      by (by vm_compute).
    destruct (proj2 (findAllLocalDataBlocks_ranges Samples.two_local_blocks)
                2 _ Hbounds Hsize eq_refl eq_refl)
      as (ranges & Hranges & Hcuts & _).
    exists ranges. split; [done |]. rewrite Hcuts. by vm_compute.
Defined.

(** C2 as stated fails.  The LOK fields of the first record hold two
    headers, at the indices 2 and 3, and the first LOK field opens a range
    of its own: three ranges.  The LOK fields of the second record form the
    two blocks from 1 and from 3, and the field with the tag SPR behind them
    opens a third range. *)
Lemma findAllLocalDataBlocks_third_range_counterexample :
  (DirEntry.getTag <$> directory_entries_ Samples.headless_block
   = [str "001"; str "LOK"; str "LOK"; str "LOK"] ∧
   List.filter (LocalBlockSpec.is_header Samples.headless_block)
     (LocalBlockSpec.indices 0 4) = [2; 3]%N ∧
   Marc.findAllLocalDataBlocks Samples.headless_block
   = Ok [(1, 2); (2, 3); (3, 4)]%N)
  ∧
  (DirEntry.getTag <$> directory_entries_ Samples.header_behind_blocks
   = [str "001"; str "LOK"; str "LOK"; str "LOK"; str "LOK"; str "SPR"] ∧
   List.filter (LocalBlockSpec.is_header Samples.header_behind_blocks)
     (LocalBlockSpec.indices 0 5) = [1; 3]%N ∧
   Marc.findAllLocalDataBlocks Samples.header_behind_blocks
   = Ok [(1, 3); (3, 5); (5, 6)]%N).
Proof. repeat split; by vm_compute. Qed.

End LocalBlocks.

(** ** Combining two records *)

Section Combine.

Implicit Types (r s : MarcRecord) (e : DirectoryEntry).

(** C6.  When [s] has at least one field, [r.combine(s)] appends the data
    of [s] to the data of [r] and, behind the entries of [r], every entry
    of [s] but the first, in order, its offset increased by the length that
    the data of [r] had; [getFieldData] on an appended entry returns what
    [getFieldData] returned on [s] for the field it comes from.  (The
    offsets have to stay within the 32 bits of an entry.) *)
Theorem combine_appends r s first others :
  directory_entries_ s = first :: others →
  (size (directory_entries_ r) + size (directory_entries_ s) < 2 ^ 63)%N →
  Forall (λ e, (DirEntry.getFieldOffset e + size (raw_data_ r) < 2 ^ 32)%N) others →
  ∃ r',
    Marc.combine r s = Ok r' ∧
    raw_data_ r' = raw_data_ r ++ raw_data_ s ∧
    directory_entries_ r' =
      directory_entries_ r ++ map (Marc.shifted (size (raw_data_ r))) others ∧
    ∀ (k : nat), k < length others →
      Marc.getFieldData r' (size (directory_entries_ r) + N.of_nat k)
      = Marc.getFieldData s (1 + N.of_nat k).
Proof.
  intros Hs Hsize Hoffsets.
  unfold Marc.combine. rewrite Hs.
  eexists. split; [reflexivity |]. simpl.
  assert (map (λ e, DirEntry.setFieldOffset e
                      (DirEntry.getFieldOffset e + size (raw_data_ r)))
              others
          = map (Marc.shifted (size (raw_data_ r))) others) as ->.
  { apply map_ext_Forall. eapply Forall_impl; [exact Hoffsets |].
    intros e He. unfold DirEntry.setFieldOffset, Marc.shifted. f_equal.
    by apply to_unsigned_small. }
  split; [done |]. split; [done |].
  intros k Hk.
  destruct (lookup_lt_is_Some_2 others k Hk) as [e He].
  rewrite Hs in Hsize. unfold size in Hsize. simpl in Hsize.
  rewrite (getFieldData_entry _ _ (Marc.shifted (size (raw_data_ r)) e)).
  - rewrite (getFieldData_entry s _ e).
    + unfold DirEntry.getFieldOffset, DirEntry.getFieldLength, Marc.shifted. simpl.
      rewrite (N.add_comm (field_offset_ e)). apply substr_app_shift.
    + rewrite Hs.
      replace (N.to_nat (1 + N.of_nat k)) with (S k) by lia. done.
    + rewrite Hs. unfold size. simpl. lia.
  - simpl. unfold size.
    replace (N.to_nat (N.of_nat (length (directory_entries_ r)) + N.of_nat k))
      with (length (directory_entries_ r) + k) by lia.
    rewrite lookup_app_r by lia.
    replace (length (directory_entries_ r) + k - length (directory_entries_ r))
      with k by lia.
    by rewrite list_lookup_fmap, He.
  - simpl. unfold size. rewrite length_app, length_map. lia.
Qed.

Lemma combine_appends_witness :
  ∃ r',
    Marc.combine Samples.three_fields Samples.split_runs = Ok r' ∧
    raw_data_ r' = raw_data_ Samples.three_fields ++ raw_data_ Samples.split_runs ∧
    directory_entries_ r' =
      directory_entries_ Samples.three_fields
      ++ map (Marc.shifted (size (raw_data_ Samples.three_fields)))
             [Samples.entry "100" 3 4; Samples.entry "200" 3 7; Samples.entry "100" 3 10] ∧
    ∀ (k : nat), k < 3 →
      Marc.getFieldData r' (size (directory_entries_ Samples.three_fields) + N.of_nat k)
      = Marc.getFieldData Samples.split_runs (1 + N.of_nat k).
Proof.
  apply (combine_appends Samples.three_fields Samples.split_runs
           (Samples.entry "001" 4 0)).
  - reflexivity.
  - by vm_compute.
  - repeat constructor; by vm_compute.
Defined.

End Combine.

(** ** Merging control fields *)

Section MergeControlFields.

Import MergePrintAndOnline.

Lemma N_of_ascii_inj (x y : ascii) : N_of_ascii x = N_of_ascii y → x = y.
Proof.
  intros Heq. rewrite <- (ascii_N_embedding x), <- (ascii_N_embedding y).
  by rewrite Heq.
Qed.

Lemma string_lt_irrefl (a : std_string) : string_lt a a = false.
Proof.
  induction a as [| x a IH]; simpl; [done |].
  by rewrite N.ltb_irrefl.
Qed.

Lemma string_lt_asym (a b : std_string) : string_lt a b = true → string_lt b a = false.
Proof.
  revert b. induction a as [| x a IH]; intros [| y b]; simpl; try done.
  destruct (N.ltb_spec (N_of_ascii x) (N_of_ascii y)),
           (N.ltb_spec (N_of_ascii y) (N_of_ascii x)); try done; try lia.
  apply IH.
Qed.

Lemma string_lt_connex (a b : std_string) :
  string_lt a b = false → string_lt b a = false → a = b.
Proof.
  revert b. induction a as [| x a IH]; intros [| y b]; simpl; try done.
  destruct (N.ltb_spec (N_of_ascii x) (N_of_ascii y)),
           (N.ltb_spec (N_of_ascii y) (N_of_ascii x)); try done.
  intros Hab Hba. f_equal; [apply N_of_ascii_inj; lia | by apply IH].
Qed.

Lemma std_max_comm (a b : std_string) : std_max a b = std_max b a.
Proof.
  unfold std_max.
  destruct (string_lt a b) eqn:Hab, (string_lt b a) eqn:Hba; try done.
  - by rewrite (string_lt_asym _ _ Hab) in Hba.
  - by apply string_lt_connex.
Qed.

(** C10.  For the tag 005 [MergeControlFields] returns the greater of the
    two contents in the lexicographic order of [std::string]: it is one of
    the two and neither is greater; exchanging the contents does not change
    the result; for every other tag it returns the first contents. *)
Theorem MergeControlFields_maximum (tag c1 c2 : std_string) :
  let merged := field_contents (MergeControlFields (str "005") c1 c2) in
  (merged = c1 ∨ merged = c2) ∧
  string_lt merged c1 = false ∧
  string_lt merged c2 = false ∧
  MergeControlFields (str "005") c1 c2 = MergeControlFields (str "005") c2 c1 ∧
  (tag ≠ str "005" →
   MergeControlFields tag c1 c2 = {| field_tag := tag; field_contents := c1 |}).
Proof.
  unfold MergeControlFields. rewrite bool_decide_eq_true_2 by done. simpl.
  repeat split.
  - unfold std_max. destruct (string_lt c1 c2); auto.
  - unfold std_max. destruct (string_lt c1 c2) eqn:Hlt.
    + by apply string_lt_asym.
    + apply string_lt_irrefl.
  - unfold std_max. destruct (string_lt c1 c2) eqn:Hlt; [| done].
    apply string_lt_irrefl.
  - f_equal. apply std_max_comm.
  - intros Htag. by rewrite bool_decide_eq_false_2.
Qed.

Lemma MergeControlFields_maximum_witness :
  MergeControlFields (str "008") (str "20190101") (str "20200101")
  = {| field_tag := str "008"; field_contents := str "20190101" |}.
Proof.
  apply (MergeControlFields_maximum (str "008") (str "20190101") (str "20200101")).
  by vm_compute.
Defined.

End MergeControlFields.

(** ** Fields of a local block *)

Section FieldsInLocalBlock.

Import LocalBlockSpec.

Implicit Types (r : MarcRecord) (e : DirectoryEntry).
Implicit Types (i index first second : size_t).
Implicit Types (field_tag pattern content : std_string).

Lemma StartsWith_size content prefix :
  StartsWith content prefix = true → (size prefix <= size content)%N.
Proof.
  revert content. induction prefix as [| p prefix IH]; intros content Hprefix.
  - unfold size. cbn [length]. lia.
  - destruct content as [| c content]; [done |].
    cbn [StartsWith] in Hprefix. apply andb_prop in Hprefix as [_ Hrest].
    specialize (IH _ Hrest). unfold size in *. cbn [length]. lia.
Qed.

Lemma prefixed_size content field_tag :
  size field_tag = 3%N →
  StartsWith content (str "  " ++ [Subfields.delimiter] ++ str "0" ++ field_tag) = true →
  (7 <= size content)%N.
Proof.
  intros Htag Hprefix%StartsWith_size.
  unfold size in *. rewrite !length_app in Hprefix. cbn [length str] in Hprefix.
  change (length (str "  ")) with 2 in Hprefix.
  change (length (str "0")) with 1 in Hprefix.
  lia.
Qed.

(** The test of the indicators on the two bytes, or fewer, that
    [current_field.substr(7, 2)] hands over. *)
Lemma IndicatorsMatch_passes p0 p1 content :
  (7 <= size content)%N →
  (p1 = Marc.question_mark ∨ (8 <= size content)%N) →
  (indicators ← substr content 7 2; Marc.IndicatorsMatch [p0; p1] indicators)
  = Ok (indicator_passes p0 content 7 && indicator_passes p1 content 8).
Proof.
  intros Hlen Hsecond.
  rewrite substr_Ok by lia. cbn [mbind outcome_bind].
  unfold size in Hlen, Hsecond.
  do 7 (destruct content as [| ? content]; [cbn [length] in Hlen; lia |]).
  change (drop (N.to_nat 7) (a :: a0 :: a1 :: a2 :: a3 :: a4 :: a5 :: content))
    with content.
  unfold indicator_passes, byte_or_nul. cbn [lookup list_lookup].
  unfold Marc.IndicatorsMatch.
  change (char_at [p0; p1] 0) with (Ok p0).
  change (char_at [p0; p1] 1) with (Ok p1).
  cbn [mbind outcome_bind].
  destruct content as [| c7 [| c8 content]].
  - destruct Hsecond as [-> | Hlong]; [| cbn [length] in Hlong; lia].
    change (take (N.to_nat 2) []) with (@nil ascii).
    change (char_at [] 0) with (Ok zero).
    cbn [default from_option id].
    rewrite (bool_decide_eq_false_2 (Marc.question_mark ≠ Marc.question_mark))
      by (by intros Hne).
    rewrite (bool_decide_eq_true_2 (Marc.question_mark = Marc.question_mark)) by done.
    repeat case_bool_decide; simplify_eq; cbn; try done;
      repeat case_bool_decide; simplify_eq; done.
  - change (take (N.to_nat 2) [c7]) with [c7].
    change (char_at [c7] 0) with (Ok c7).
    change (char_at [c7] 1) with (Ok zero).
    cbn [default from_option id].
    repeat case_bool_decide; simplify_eq; cbn; try done;
      repeat case_bool_decide; simplify_eq; done.
  - change (take (N.to_nat 2) (c7 :: c8 :: content)) with [c7; c8].
    change (char_at [c7; c8] 0) with (Ok c7).
    change (char_at [c7; c8] 1) with (Ok c8).
    cbn [default from_option id].
    repeat case_bool_decide; simplify_eq; cbn; try done;
      repeat case_bool_decide; simplify_eq; done.
Qed.

(** With the two bytes at the offsets 7 and 8 in place, passing the test is
    matching the pattern. *)
Lemma picked_selected field_tag p0 p1 content :
  (9 <= size content)%N →
  picked field_tag [p0; p1] content = selected field_tag [p0; p1] content.
Proof.
  intros Hlen. unfold size in Hlen.
  do 9 (destruct content as [| ? content]; [cbn [length] in Hlen; lia |]).
  done.
Qed.

Lemma filter_agree {A : Type} (f g : A → bool) (l : list A) :
  (∀ x, x ∈ l → f x = g x) → List.filter f l = List.filter g l.
Proof.
  induction l as [| x l IH]; intros Hagree; [done |].
  cbn [List.filter]. rewrite (Hagree x) by apply list_elem_of_here.
  rewrite IH; [done |]. intros y Hy. apply Hagree. by apply list_elem_of_further.
Qed.

Lemma findFieldsInLocalBlock_loop_picks r field_tag p0 p1 (iterations : nat) index :
  let FIELD_PREFIX := str "  " ++ [Subfields.delimiter] ++ str "0" ++ field_tag in
  size field_tag = 3%N →
  Marc.entries_in_bounds r →
  (size (directory_entries_ r) < 2 ^ 63)%N →
  (index + N.of_nat iterations <= size (directory_entries_ r))%N →
  (p1 = Marc.question_mark ∨
   ∀ i content, (index <= i < index + N.of_nat iterations)%N →
     Marc.getFieldData r i = Ok content →
     StartsWith content FIELD_PREFIX = true → (8 <= size content)%N) →
  Marc.findFieldsInLocalBlock_loop r FIELD_PREFIX [p0; p1] iterations index
  = Ok (List.filter (picks r field_tag [p0; p1])
          ((λ k, index + N.of_nat k)%N <$> seq 0 iterations)).
Proof.
  intros FIELD_PREFIX Htag Hbounds Hsize. revert index.
  induction iterations as [| n IH]; intros index Hrange Hlong; [done |].
  cbn [Marc.findFieldsInLocalBlock_loop].
  destruct (getFieldData_returns r index Hbounds Hsize) as [content Hcontent]; [lia |].
  rewrite Hcontent. cbn [mbind outcome_bind].
  rewrite IH; [| lia |].
  2:{ destruct Hlong as [-> | Hlong]; [by left | right].
      intros i c Hi. apply Hlong. lia. }
  cbn [seq fmap list_fmap List.filter].
  rewrite N.add_0_r.
  assert ((λ k, (index + N.of_nat k)%N) <$> seq 1 n
          = (λ k, (index + 1 + N.of_nat k)%N) <$> seq 0 n) as ->.
  { rewrite <- fmap_S_seq, <- list_fmap_compose.
    apply list_fmap_ext. intros _ k _. simpl. lia. }
  assert (picks r field_tag [p0; p1] index = picked field_tag [p0; p1] content)
    as -> by (unfold picks; by rewrite Hcontent).
  unfold picked. fold FIELD_PREFIX.
  destruct (StartsWith content FIELD_PREFIX) eqn:Hprefix; [| done].
  rewrite IndicatorsMatch_passes.
  - cbn [mbind outcome_bind andb]. by destruct (_ && _).
  - by apply (prefixed_size content field_tag).
  - destruct Hlong as [-> | Hlong]; [by left | right].
    apply (Hlong index); [lia | done | done].
Qed.

(** Nothing but the test of the pattern ends in [Error]. *)
Lemma no_exit_bind {A B : Type} (m : outcome A) (k : A → outcome B) :
  no_exit m → (∀ a, no_exit (k a)) → no_exit (m ≫= k).
Proof.
  intros Hm Hk msg. destruct m as [a | | msg' |]; cbn [mbind outcome_bind]; try done.
  - apply Hk.
  - by destruct (Hm msg').
Qed.

Lemma no_exit_char_at content (pos : size_t) : no_exit (char_at content pos).
Proof. intros msg. unfold char_at. by repeat case_match. Qed.

Lemma no_exit_substr content (pos n : size_t) : no_exit (substr content pos n).
Proof. intros msg. unfold substr. by case_match. Qed.

Lemma no_exit_getFieldData r i : no_exit (Marc.getFieldData r i).
Proof.
  unfold Marc.getFieldData.
  apply no_exit_bind.
  { intros msg. unfold Marc.past_the_end. by case_match. }
  intros [|]; [done |].
  apply no_exit_bind; [| intros e; apply no_exit_substr].
  intros msg. unfold at_. by repeat case_match.
Qed.

Lemma no_exit_IndicatorsMatch pattern content :
  no_exit (Marc.IndicatorsMatch pattern content).
Proof.
  unfold Marc.IndicatorsMatch.
  apply no_exit_bind; [apply no_exit_char_at |]. intros p0.
  apply no_exit_bind.
  { case_match; [| done].
    apply no_exit_bind; [apply no_exit_char_at | done]. }
  intros [|]; [done |].
  apply no_exit_bind; [apply no_exit_char_at |]. intros p1.
  apply no_exit_bind.
  { case_match; [| done].
    apply no_exit_bind; [apply no_exit_char_at | done]. }
  by intros [|].
Qed.

Lemma no_exit_findFieldsInLocalBlock_loop r prefix pattern (iterations : nat) index :
  no_exit (Marc.findFieldsInLocalBlock_loop r prefix pattern iterations index).
Proof.
  revert index. induction iterations as [| n IH]; intros index; [done |].
  cbn [Marc.findFieldsInLocalBlock_loop].
  apply no_exit_bind; [apply no_exit_getFieldData |]. intros content.
  apply no_exit_bind.
  { case_match; [| done].
    apply no_exit_bind; [apply no_exit_substr |].
    intros indicators. apply no_exit_IndicatorsMatch. }
  intros found. apply no_exit_bind; [apply IH | done].
Qed.

(** C7, as amended.  [findFieldsInLocalBlock] terminates the process
    through [Error] exactly when the pattern is not two characters long, on
    every record.  Otherwise, for a tag of three characters, a record that
    satisfies the invariant of the data model and a range that ends within
    the directory, and when the second character of the pattern is ['?'] or
    the fields of the range that start with the prefix hold 8 bytes at
    least, it returns the indices of the range whose field content starts
    with the prefix and passes the test of the indicators: a ['?'] passes
    without a look at the content, another character passes when it is the
    byte of the content at the offset 7, respectively 8, and a content that
    ends in front of that offset counts as a NUL there.  When the fields of
    the range that start with the prefix hold the two bytes at the offsets
    7 and 8, these are the indices whose characters at the offsets 7 and 8
    match the pattern, ['?'] matching any character. *)
Theorem findFieldsInLocalBlock_selects r field_tag pattern first second :
  ((∃ msg, Marc.findFieldsInLocalBlock r field_tag pattern (first, second) = Exit msg)
   ↔ size pattern ≠ 2%N)
  ∧ (size pattern = 2%N →
     size field_tag = 3%N →
     Marc.entries_in_bounds r →
     (size (directory_entries_ r) < 2 ^ 63)%N →
     (second <= size (directory_entries_ r))%N →
     (pattern !! 1 = Some Marc.question_mark ∨
      ∀ i content, (first <= i < second)%N →
        Marc.getFieldData r i = Ok content →
        StartsWith content (str "  " ++ [Subfields.delimiter] ++ str "0" ++ field_tag)
        = true →
        (8 <= size content)%N) →
     Marc.findFieldsInLocalBlock r field_tag pattern (first, second)
     = Ok (fields_picked r field_tag pattern (first, second))
     ∧ ((∀ i content, (first <= i < second)%N →
           Marc.getFieldData r i = Ok content →
           StartsWith content (str "  " ++ [Subfields.delimiter] ++ str "0" ++ field_tag)
           = true →
           (9 <= size content)%N) →
        fields_picked r field_tag pattern (first, second)
        = fields_in_block r field_tag pattern (first, second))).
Proof.
  split; [split |].
  - intros [msg Hexit] Htwo. unfold Marc.findFieldsInLocalBlock in Hexit.
    rewrite bool_decide_eq_false_2 in Hexit by (by intros Hne).
    by apply no_exit_findFieldsInLocalBlock_loop in Hexit.
  - intros Hne. unfold Marc.findFieldsInLocalBlock.
    rewrite bool_decide_eq_true_2 by done. eauto.
  - intros Htwo Htag Hbounds Hsize Hsecond Hlong.
    destruct pattern as [| p0 [| p1 [| ? ?]]];
      try (unfold size in Htwo; cbn [length] in Htwo; lia).
    split.
    + unfold Marc.findFieldsInLocalBlock.
      rewrite bool_decide_eq_false_2 by (by intros Hne). simpl.
      destruct (N.le_gt_cases first second) as [Hle | Hgt].
      * apply findFieldsInLocalBlock_loop_picks; [done | done | done | lia |].
        destruct Hlong as [[= ->] | Hlong]; [by left | right].
        intros i c Hi. apply Hlong. lia.
      * unfold fields_picked, indices. simpl.
        by replace (N.to_nat (second - first)) with 0 by lia.
    + intros Hnine. unfold fields_picked, fields_in_block. cbn [fst snd].
      apply filter_agree. intros i Hi%elem_of_indices.
      unfold picks, selects.
      destruct (Marc.getFieldData r i) as [content | | |] eqn:Hcontent; try done.
      destruct (StartsWith content
                  (str "  " ++ [Subfields.delimiter] ++ str "0" ++ field_tag))
        eqn:Hprefix.
      * apply picked_selected. by apply (Hnine i).
      * unfold picked, selected. by rewrite Hprefix.
Qed.

Lemma findFieldsInLocalBlock_selects_witness :
  Marc.findFieldsInLocalBlock Samples.two_local_blocks (str "852") (str "?1") (3, 6)%N
  = Ok [4%N].
Proof.
  refine (proj1 (proj2 (findFieldsInLocalBlock_selects Samples.two_local_blocks
                          (str "852") (str "?1") 3%N 6%N) _ _ _ _ _ _)).
  - reflexivity.
  - reflexivity.
  - repeat constructor; by vm_compute.
  - by vm_compute.
  - by vm_compute.
  - right. intros i content Hi.
    assert (i = 3 ∨ i = 4 ∨ i = 5)%N as [-> | [-> | ->]] by lia;
      intros [= <-]; by vm_compute.
Defined.

(** C7 as stated fails on a local field that ends with the tag: it has no
    characters at the offsets 7 and 8, and yet the pattern "??" selects it;
    with the pattern "?1" the test reads behind the end of the indicators. *)
Lemma findFieldsInLocalBlock_short_field_counterexample :
  Marc.getFieldData Samples.short_local_field 1 = Ok (Samples.local "852") ∧
  size (Samples.local "852") = 7%N ∧
  Marc.findFieldsInLocalBlock Samples.short_local_field (str "852") (str "??") (1, 2)%N
  = Ok [1%N] ∧
  fields_in_block Samples.short_local_field (str "852") (str "??") (1, 2)%N = [] ∧
  Marc.findFieldsInLocalBlock Samples.short_local_field (str "852") (str "?1") (1, 2)%N
  = Undefined.
Proof. repeat split; by vm_compute. Qed.

End FieldsInLocalBlock.

(** ** The bibliographic level patch *)

Section PatchUpArticle.

Import FixArticleBiblioLevels.

Implicit Types (record : Record_) (g : globals) (serials : gset std_string).

Lemma after_any_no_rparen (l : std_string) :
  Forall (λ c, c ≠ Regex.rparen) l → Regex.after_any l = None.
Proof.
  induction 1 as [| c l Hc _ IH]; simpl; [done |].
  rewrite IH. rewrite (bool_decide_eq_false_2 (c = Regex.rparen)) by done.
  by destruct (bool_decide _).
Qed.

Lemma is_digit_not_rparen (c : ascii) :
  Regex.is_digit c || bool_decide (c = Regex.letter_X) = true → c ≠ Regex.rparen.
Proof. intros Hc ->. by vm_compute in Hc. Qed.

(** A control number of nine characters holds no closing parenthesis. *)
Lemma serial_id_no_rparen (id : std_string) :
  Regex.serial_id id = Some id → Forall (λ c, c ≠ Regex.rparen) id.
Proof.
  unfold Regex.serial_id. intros Hid.
  destruct (bool_decide (length (take 9 id) = 9)) eqn:Hlen; [| done].
  apply bool_decide_eq_true_1 in Hlen. simpl in Hid.
  destruct (forallb Regex.is_digit (take 8 (take 9 id))) eqn:Hdigits; [| done].
  simpl in Hid.
  destruct (take 9 id !! 8) as [c |] eqn:Hlast; [| done].
  destruct (Regex.is_digit c || bool_decide (c = Regex.letter_X)) eqn:Hc; [| done].
  injection Hid as Hid. rewrite Hid in *.
  do 9 (destruct id as [| ? id]; [done |]).
  destruct id; [| done].
  simpl in Hdigits, Hlast. injection Hlast as ->.
  repeat (apply andb_prop in Hdigits as [? Hdigits]).
  repeat (apply Forall_cons_2;
          [apply is_digit_not_rparen;
           first [exact Hc | apply orb_true_intro; left; assumption] |]).
  apply Forall_nil_2.
Qed.

Lemma after_any_greedy (before id : std_string) :
  Forall (λ c, c ≠ Regex.newline) before → Regex.serial_id id = Some id →
  Regex.after_any (before ++ Regex.rparen :: id) = Some id.
Proof.
  intros Hbefore Hid.
  induction Hbefore as [| c before Hc _ IH]; simpl.
  - by rewrite after_any_no_rparen by by apply serial_id_no_rparen.
  - rewrite bool_decide_eq_false_2 by done. by rewrite IH.
Qed.

(** The pattern on a parenthesised prefix followed by a control number: the
    group is the control number. *)
Lemma parent_id_match_prefixed (c : ascii) (before id : std_string) :
  Forall (λ c, c ≠ Regex.newline) (c :: before) → Regex.serial_id id = Some id →
  Regex.parent_id_match (Regex.lparen :: c :: before ++ Regex.rparen :: id) = Some id.
Proof.
  intros Hbefore Hid. inversion Hbefore as [| ? ? Hc Hrest]; subst.
  cbn [Regex.parent_id_match Regex.match_here].
  rewrite bool_decide_eq_true_2 by done.
  rewrite (bool_decide_eq_false_2 (c = Regex.newline)) by done.
  cbn [andb negb]. by rewrite after_any_greedy.
Qed.

Lemma getFieldIndex_from_range (entries : list DirectoryEntry) tag (i : Z) :
  let index := getFieldIndex_from entries tag i in
  (0 <= i)%Z → index = (-1)%Z ∨ (i <= index < i + Z.of_nat (length entries))%Z.
Proof.
  revert i. induction entries as [| e entries IH]; intros i index Hi; [by left |].
  unfold index. simpl. case_bool_decide; [right; lia |].
  destruct (IH (i + 1)%Z) as [-> | Hin]; [lia | by left | right; lia].
Qed.

(** With the field contents in parallel with the directory
    [HasSerialParent] returns. *)
Lemma HasSerialParent_returns serials (c0 c1 c2 code : ascii) record :
  length (fields record) = length (dir_entries record) →
  ∃ found, HasSerialParent serials [c0; c1; c2; code] record = Ok found.
Proof.
  intros Hparallel. unfold HasSerialParent.
  change (substr [c0; c1; c2; code] 0 3) with (Ok [c0; c1; c2]).
  change (char_at [c0; c1; c2; code] 3) with (Ok code).
  cbn [mbind outcome_bind].
  case_bool_decide as Hindex; [eauto |].
  destruct (getFieldIndex_from_range (dir_entries record) [c0; c1; c2] 0%Z) as [| Hin];
    [done | done |].
  fold (getFieldIndex record [c0; c1; c2]) in Hin.
  destruct (lookup_lt_is_Some_2 (fields record)
              (N.to_nat (Z.to_N (getFieldIndex record [c0; c1; c2])))) as [field Hfield];
    [lia |].
  rewrite (at_lookup _ _ _ Hfield). cbn [mbind outcome_bind].
  case_bool_decide; [eauto |].
  destruct (Regex.parent_id_match _); eauto.
Qed.

(** C8, as amended.  The record has bibliographic level 'a' and its field
    contents are in parallel with its directory; the first subfield w of its
    first 773 field is made of a parenthesised prefix, of one byte at least
    and without a newline, and of a control number of eight digits and a
    digit or X (as in "(DE-576)123456789"); and the control number is among
    the collected serials: [PatchUpArticle] sets byte 7 of the leader to 'b'
    and then writes the record. *)
Theorem PatchUpArticle_serial_parent g record (i : nat) field c before id :
  at_ (leader record) 7 = Ok "a"%char →
  length (fields record) = length (dir_entries record) →
  getFieldIndex record (str "773") = Z.of_nat i →
  fields record !! i = Some field →
  Subfields.getFirstSubfieldValue (Subfields.parse field) "w"%char
    = Regex.lparen :: c :: before ++ Regex.rparen :: id →
  Forall (λ c, c ≠ Regex.newline) (c :: before) →
  Regex.serial_id id = Some id →
  id ∈ serial_control_numbers g →
  ∃ record' g',
    PatchUpArticle g record = Ok (record', g', true) ∧
    leader record' = <[7 := "b"%char]> (leader record) ∧
    leader record' !! 7 = Some "b"%char ∧
    output g' = output g ++ [record'].
Proof.
  intros Hlevel Hparallel Hindex Hfield Hw Hbefore Hid Hserial.
  assert (HasSerialParent (serial_control_numbers g) (str "773w") record = Ok true)
    as H773.
  { unfold HasSerialParent.
    change (substr (str "773w") 0 3) with (Ok (str "773")).
    change (char_at (str "773w") 3) with (Ok "w"%char).
    cbn [mbind outcome_bind]. rewrite Hindex.
    rewrite bool_decide_eq_false_2 by lia.
    rewrite (at_lookup (fields record) (Z.to_N (Z.of_nat i)) field)
      by (by replace (N.to_nat (Z.to_N (Z.of_nat i))) with i by lia).
    cbn [mbind outcome_bind]. rewrite Hw.
    rewrite bool_decide_eq_false_2 by done.
    rewrite parent_id_match_prefixed by done.
    by rewrite bool_decide_eq_true_2. }
  assert (HasAtLeastOneSerialParent (serial_control_numbers g)
            (str "800w:810w:830w:773w") record = Ok true) as Hparent.
  { unfold HasAtLeastOneSerialParent.
    change (Split (str "800w:810w:830w:773w") ":"%char)
      with [["8"; "0"; "0"; "w"]; ["8"; "1"; "0"; "w"]; ["8"; "3"; "0"; "w"];
            str "773w"]%char.
    cbn [HasAtLeastOneSerialParent_loop].
    destruct (HasSerialParent_returns (serial_control_numbers g)
                "8" "0" "0" "w" record Hparallel) as [[] ->]; [done |].
    cbn [mbind outcome_bind].
    destruct (HasSerialParent_returns (serial_control_numbers g)
                "8" "1" "0" "w" record Hparallel) as [[] ->]; [done |].
    cbn [mbind outcome_bind].
    destruct (HasSerialParent_returns (serial_control_numbers g)
                "8" "3" "0" "w" record Hparallel) as [[] ->]; [done |].
    cbn [mbind outcome_bind].
    by rewrite H773. }
  unfold PatchUpArticle. rewrite Hlevel. cbn [mbind outcome_bind].
  rewrite bool_decide_eq_false_2 by (by intros Hne).
  rewrite Hparent. cbn [mbind outcome_bind negb].
  eexists _, _. split; [reflexivity |]. simpl.
  split; [done |]. split; [| done].
  apply list_lookup_insert_eq.
  unfold at_ in Hlevel.
  destruct (N.ltb_spec 7 (size (leader record))) as [Hlt | _]; [| done].
  unfold size in Hlt. lia.
Qed.

Lemma PatchUpArticle_serial_parent_witness :
  ∃ record' g',
    PatchUpArticle (Samples.collected "123456789") (Samples.article "(DE-576)123456789")
    = Ok (record', g', true) ∧
    leader record' = <[7 := "b"%char]> (leader (Samples.article "(DE-576)123456789")) ∧
    leader record' !! 7 = Some "b"%char ∧
    output g' = output (Samples.collected "123456789") ++ [record'].
Proof.
  apply (PatchUpArticle_serial_parent
           (Samples.collected "123456789") (Samples.article "(DE-576)123456789")
           1 (str "08" ++ [Subfields.delimiter] ++ str "iIn" ++ [Subfields.delimiter]
                ++ str "w(DE-576)123456789")
           "D"%char (str "E-576") (str "123456789")).
  - reflexivity.
  - reflexivity.
  - reflexivity.
  - reflexivity.
  - reflexivity.
  - repeat constructor; by vm_compute.
  - reflexivity.
  - unfold Samples.collected. cbn [serial_control_numbers].
    by apply elem_of_singleton_2.
Defined.

(** C8 as stated fails: "123" is no control number for the pattern of
    [HasSerialParent], the record is written with its level unchanged. *)
Lemma PatchUpArticle_short_id_counterexample :
  str "123" ∈ serial_control_numbers (Samples.collected "123") ∧
  leader (Samples.article "(DE-576)123") !! 7 = Some "a"%char ∧
  PatchUpArticle (Samples.collected "123") (Samples.article "(DE-576)123")
  = Ok (Samples.article "(DE-576)123",
        write (Samples.article "(DE-576)123") (Samples.collected "123"),
        true) ∧
  leader (Samples.article "(DE-576)123") !! 7 ≠ Some "b"%char.
Proof.
  split; [unfold Samples.collected; cbn [serial_control_numbers];
          by apply elem_of_singleton_2 |].
  split; [reflexivity |].
  split; [reflexivity | done].
Qed.

End PatchUpArticle.

(** ** Looking up a tag *)

Section Lookup.

Implicit Types (r : MarcRecord) (e : DirectoryEntry) (tag : std_string).

Lemma getFieldIndex_from_cases entries tag (i : size_t) :
  (Marc.getFieldIndex_from entries tag i = Marc.FIELD_NOT_FOUND ∧
   Forall (λ x, DirEntry.getTag x ≠ tag) entries)
  ∨ (∃ (k : nat) e,
       Marc.getFieldIndex_from entries tag i = (i + N.of_nat k)%N ∧
       entries !! k = Some e ∧ DirEntry.getTag e = tag ∧
       Forall (λ x, DirEntry.getTag x ≠ tag) (take k entries)).
Proof.
  revert i. induction entries as [| x entries IH]; intros i; simpl.
  - left. by split.
  - case_bool_decide as Hx.
    + right. exists 0, x. repeat split; [f_equal; lia | done | by apply Forall_nil_2].
    + destruct (IH (i + 1)%N) as [[-> Hnone] | (k & e & -> & Hk & He & Hbefore)].
      * left. split; [done | by apply Forall_cons_2].
      * right. exists (S k), e. repeat split; [lia | done | done |].
        simpl. by apply Forall_cons_2.
Qed.

(** X1.  [getFieldIndex(tag)] returns [FIELD_NOT_FOUND] when no entry has
    the tag, and otherwise the index of the first entry with the tag: an
    index within the directory, different from [FIELD_NOT_FOUND], with no
    entry of that tag in front of it. *)
Theorem getFieldIndex_first_match r tag :
  (size (directory_entries_ r) < 2 ^ 64 - 1)%N →
  (Marc.getFieldIndex r tag = Marc.FIELD_NOT_FOUND ∧
   Forall (λ x, DirEntry.getTag x ≠ tag) (directory_entries_ r))
  ∨ (∃ (k : nat) e,
       Marc.getFieldIndex r tag = N.of_nat k ∧
       Marc.getFieldIndex r tag ≠ Marc.FIELD_NOT_FOUND ∧
       directory_entries_ r !! k = Some e ∧ DirEntry.getTag e = tag ∧
       Forall (λ x, DirEntry.getTag x ≠ tag) (take k (directory_entries_ r))).
Proof.
  intros Hsize. unfold Marc.getFieldIndex.
  destruct (getFieldIndex_from_cases (directory_entries_ r) tag 0)
    as [? | (k & e & Hindex & Hk & He & Hbefore)]; [by left |].
  right. exists k, e. rewrite Hindex, N.add_0_l.
  repeat split; try done.
  apply lookup_lt_Some in Hk. unfold size in Hsize.
  unfold Marc.FIELD_NOT_FOUND, SIZE_MAX. lia.
Qed.

Lemma getFieldIndex_first_match_witness :
  (Marc.getFieldIndex Samples.split_runs (str "100") = Marc.FIELD_NOT_FOUND ∧
   Forall (λ x, DirEntry.getTag x ≠ str "100") (directory_entries_ Samples.split_runs))
  ∨ (∃ (k : nat) e,
       Marc.getFieldIndex Samples.split_runs (str "100") = N.of_nat k ∧
       Marc.getFieldIndex Samples.split_runs (str "100") ≠ Marc.FIELD_NOT_FOUND ∧
       directory_entries_ Samples.split_runs !! k = Some e ∧
       DirEntry.getTag e = str "100" ∧
       Forall (λ x, DirEntry.getTag x ≠ str "100")
              (take k (directory_entries_ Samples.split_runs))).
Proof.
  apply (getFieldIndex_first_match Samples.split_runs (str "100")).
  by vm_compute.
Defined.

(** On a record that has no field with the tag,
    [extractFirstSubfield(tag, code)] returns the empty string: it tests for
    [FIELD_NOT_FOUND] itself and does not reach the accessors. *)
Lemma extractFirstSubfield_absent r tag (code : ascii) :
  Forall (λ x, DirEntry.getTag x ≠ tag) (directory_entries_ r) →
  Marc.extractFirstSubfield r tag code = Ok [].
Proof.
  intros Hnone. unfold Marc.extractFirstSubfield, Marc.getFieldIndex.
  rewrite getFieldIndex_from_absent by done.
  by rewrite bool_decide_eq_true_2.
Qed.

(** X2.  [getLanguage] returns the default language code on a record
    without a 041 field: [extractFirstSubfield] tests for [FIELD_NOT_FOUND]
    and returns the empty string then.  Whenever [getLanguage] returns with
    a default that is not empty, what it returns is not empty. *)
Theorem getLanguage_default r (default_language_code : std_string) :
  (Forall (λ x, DirEntry.getTag x ≠ str "041") (directory_entries_ r) →
   Marc.getLanguage r default_language_code = Ok default_language_code)
  ∧ (∀ language,
       Marc.getLanguage r default_language_code = Ok language →
       default_language_code ≠ [] → language ≠ []).
Proof.
  split.
  - intros Hnone. unfold Marc.getLanguage.
    rewrite extractFirstSubfield_absent by done. cbn [mbind outcome_bind].
    by rewrite bool_decide_eq_false_2 by (by intros Hne).
  - intros language. unfold Marc.getLanguage.
    destruct (Marc.extractFirstSubfield r (str "041") "a") as [found | | |];
      cbn [mbind outcome_bind]; try done.
    case_bool_decide; intros [= <-]; done.
Qed.

Lemma getLanguage_default_witness :
  Marc.getLanguage Samples.three_fields (str "ger") = Ok (str "ger").
Proof.
  apply (getLanguage_default Samples.three_fields (str "ger")).
  repeat constructor; by vm_compute.
Defined.

(** X3.  On a record that has no field with the tag, [getFieldData(tag)]
    hands [FIELD_NOT_FOUND] to [getFieldData(index)], whose guard does not
    recognise it: the behaviour is undefined. *)
Theorem getFieldData_tag_absent r tag :
  (size (directory_entries_ r) < 2 ^ 63)%N →
  Forall (λ x, DirEntry.getTag x ≠ tag) (directory_entries_ r) →
  Marc.getFieldData_tag r tag = Undefined.
Proof.
  intros Hsize Hnone. unfold Marc.getFieldData_tag, Marc.getFieldIndex.
  rewrite getFieldIndex_from_absent by done.
  apply accessors_upper_half; [done | by vm_compute | by vm_compute].
Qed.

Lemma getFieldData_tag_absent_witness :
  Marc.getFieldData_tag Samples.three_fields (str "SPR") = Undefined.
Proof.
  apply (getFieldData_tag_absent Samples.three_fields (str "SPR")).
  - by vm_compute.
  - repeat constructor; by vm_compute.
Defined.

(** The length stored in an entry minus one. *)
Lemma unsigned_length_pred (n : N) :
  (1 <= n)%N → (n <= 2 ^ 32)%N → to_unsigned (n + 2 ^ 32 - 1) = (n - 1)%N.
Proof.
  intros Hone Hmax.
  replace (n + 2 ^ 32 - 1)%N with (n - 1 + 1 + 2 ^ 32 - 1)%N by lia.
  apply unsigned_pred. lia.
Qed.

(** X4.  On a record that satisfies the invariant of the data model, when a
    field with the tag exists, [getFieldData(tag)] returns the content of the
    first such field: the [field_length - 1] bytes of [raw_data_] from the
    offset of its entry on, that is the field without its terminator. *)
Theorem getFieldData_tag_present r tag (k : nat) e :
  Marc.entries_in_bounds r →
  (size (directory_entries_ r) < 2 ^ 63)%N →
  (size (raw_data_ r) < 2 ^ 32)%N →
  directory_entries_ r !! k = Some e → DirEntry.getTag e = tag →
  Forall (λ x, DirEntry.getTag x ≠ tag) (take k (directory_entries_ r)) →
  ∃ content,
    Marc.getFieldData_tag r tag = Ok content ∧
    content = take (N.to_nat (DirEntry.getFieldLength e) - 1)
                   (drop (N.to_nat (DirEntry.getFieldOffset e)) (raw_data_ r)) ∧
    size content = (DirEntry.getFieldLength e - 1)%N.
Proof.
  intros Hbounds Hsize Hraw Hk He Hbefore.
  destruct (proj1 (Forall_forall _ _) Hbounds e (list_elem_of_lookup_2 _ _ _ Hk))
    as [Hone Hend].
  unfold Marc.getFieldData_tag, Marc.getFieldIndex.
  pose proof (lookup_lt_Some _ _ _ Hk) as Hlt.
  assert (Marc.getFieldIndex_from (directory_entries_ r) tag 0 = N.of_nat k) as ->.
  { rewrite <- (take_drop_middle _ _ _ Hk).
    rewrite getFieldIndex_from_found by done.
    unfold size. rewrite length_take. lia. }
  rewrite (getFieldData_entry r (N.of_nat k) e) by (by rewrite ?Nat2N.id).
  rewrite unsigned_length_pred by lia.
  rewrite substr_Ok by lia.
  eexists. split; [reflexivity |].
  replace (N.to_nat (DirEntry.getFieldLength e - 1))
    with (N.to_nat (DirEntry.getFieldLength e) - 1) by lia.
  split; [done |].
  unfold size in *. rewrite length_take, length_drop. lia.
Qed.

Lemma getFieldData_tag_present_witness :
  ∃ content,
    Marc.getFieldData_tag Samples.split_runs (str "100") = Ok content ∧
    content = take (N.to_nat 3 - 1) (drop (N.to_nat 4) (raw_data_ Samples.split_runs)) ∧
    size content = (3 - 1)%N.
Proof.
  apply (getFieldData_tag_present Samples.split_runs (str "100") 1
           (Samples.entry "100" 3 4)).
  - repeat constructor; by vm_compute.
  - by vm_compute.
  - by vm_compute.
  - reflexivity.
  - reflexivity.
  - repeat constructor; by vm_compute.
Defined.

End Lookup.

(** ** The order of the directory *)

Section TagOrder.

Import Directory.

Implicit Types (r : MarcRecord) (e : DirectoryEntry) (tag : std_string).
Implicit Types (entries : list DirectoryEntry).

Lemma string_lt_trans (a b c : std_string) :
  string_lt a b = true → string_lt b c = true → string_lt a c = true.
Proof.
  revert b c. induction a as [| x a IH]; intros [| y b] [| z c]; simpl; try done.
  destruct (N.ltb_spec (N_of_ascii x) (N_of_ascii y)),
           (N.ltb_spec (N_of_ascii y) (N_of_ascii x)),
           (N.ltb_spec (N_of_ascii y) (N_of_ascii z)),
           (N.ltb_spec (N_of_ascii z) (N_of_ascii y)),
           (N.ltb_spec (N_of_ascii x) (N_of_ascii z)),
           (N.ltb_spec (N_of_ascii z) (N_of_ascii x));
    try done; try lia.
  apply IH.
Qed.

Lemma tag_le_refl (a : std_string) : tag_le a a.
Proof. apply string_lt_irrefl. Qed.

Lemma tag_le_trans (a b c : std_string) : tag_le a b → tag_le b c → tag_le a c.
Proof.
  unfold tag_le. intros Hab Hbc.
  destruct (string_lt c a) eqn:Hca; [| done].
  destruct (string_lt a b) eqn:Hlt.
  - by rewrite (string_lt_trans c a b) in Hbc.
  - by rewrite <- (string_lt_connex a b Hlt Hab), Hca in Hbc.
Qed.

Lemma tag_le_antisym (a b : std_string) : tag_le a b → tag_le b a → a = b.
Proof. unfold tag_le. intros Hab Hba. by apply string_lt_connex. Qed.

Lemma tag_sorted_lookup entries (i j : nat) e1 e2 :
  tag_sorted entries → i < j →
  entries !! i = Some e1 → entries !! j = Some e2 →
  tag_le (DirEntry.getTag e1) (DirEntry.getTag e2).
Proof.
  intros Hsorted Hij Hi Hj.
  rewrite <- (take_drop j entries) in Hsorted.
  apply (StronglySorted_app_1_elem_of _ _ _ e1 e2 Hsorted).
  - apply list_elem_of_lookup. exists i. by rewrite lookup_take_lt.
  - apply list_elem_of_lookup. exists 0. by rewrite lookup_drop, Nat.add_0_r.
Qed.

Lemma insertion_location_before entries tag :
  Forall (λ e, tag_le (DirEntry.getTag e) tag)
         (take (Marc.insertion_location entries tag) entries).
Proof.
  induction entries as [| e entries IH]; simpl; [done |].
  destruct (string_ge tag (DirEntry.getTag e)) eqn:Hge; simpl; [| done].
  apply Forall_cons_2; [| done].
  unfold string_ge in Hge. by apply negb_true_iff in Hge.
Qed.

Lemma insertion_location_stop entries tag e :
  entries !! Marc.insertion_location entries tag = Some e →
  string_lt tag (DirEntry.getTag e) = true.
Proof.
  induction entries as [| x entries IH]; simpl; [done |].
  destruct (string_ge tag (DirEntry.getTag x)) eqn:Hge; simpl; [done |].
  intros [= <-]. unfold string_ge in Hge. by apply negb_false_iff in Hge.
Qed.

(** X5.  [insertField] keeps a directory in the order of its tags, and the
    new entry comes behind every entry whose tag is not greater, in front of
    every entry whose tag is greater. *)
Theorem insertField_keeps_order r tag (value : std_string) :
  tag_sorted (directory_entries_ r) →
  let location := N.to_nat (Marc.insertField r tag value).2 in
  let entries' := directory_entries_ (Marc.insertField r tag value).1 in
  tag_sorted entries' ∧
  Forall (λ e, tag_le (DirEntry.getTag e) tag) (take location entries') ∧
  Forall (λ e, string_lt tag (DirEntry.getTag e) = true) (drop (S location) entries').
Proof.
  intros Hsorted location entries'.
  unfold location, entries'. rewrite insertField_entries. simpl. rewrite Nat2N.id.
  set (p := Marc.insertion_location (directory_entries_ r) tag).
  set (new := DirEntry.make tag (size value + 1) (size (raw_data_ r))).
  pose proof (insertion_location_le (directory_entries_ r) tag) as Hle. fold p in Hle.
  pose proof (insertion_location_before (directory_entries_ r) tag) as Hbefore.
  fold p in Hbefore.
  assert (Forall (λ e, string_lt tag (DirEntry.getTag e) = true)
                 (drop p (directory_entries_ r))) as Hbehind.
  { apply Forall_forall. intros x [k Hk]%list_elem_of_lookup_1.
    rewrite lookup_drop in Hk.
    destruct k as [| k].
    - rewrite Nat.add_0_r in Hk. by apply (insertion_location_stop _ _ _ Hk).
    - destruct (lookup_lt_is_Some_2 (directory_entries_ r) p) as [h Hh];
        [apply lookup_lt_Some in Hk; lia |].
      pose proof (insertion_location_stop _ _ _ Hh) as Hstop.
      pose proof (tag_sorted_lookup _ p (p + S k) h x Hsorted ltac:(lia) Hh Hk) as Hhx.
      unfold tag_le in Hhx.
      destruct (string_lt tag (DirEntry.getTag x)) eqn:Hlt; [done |].
      destruct (string_lt (DirEntry.getTag x) tag) eqn:Hgt.
      + by rewrite (string_lt_trans _ _ _ Hgt Hstop) in Hhx.
      + rewrite (string_lt_connex _ _ Hlt Hgt) in Hstop. by rewrite Hstop in Hhx. }
  assert (length (take p (directory_entries_ r)) = p) as Hlen
    by (rewrite length_take; lia).
  split; [| split].
  - rewrite <- (take_drop p (directory_entries_ r)) in Hsorted.
    apply StronglySorted_app in Hsorted as (Hcross & Hleft & Hright).
    apply StronglySorted_app_2; [| done |].
    + intros x1 x2 Hx1 [-> | Hx2]%elem_of_cons; [| by apply Hcross].
      by apply (proj1 (Forall_forall _ _) Hbefore).
    + apply StronglySorted_cons. split; [| done].
      eapply Forall_impl; [exact Hbehind |].
      intros x Hx. simpl. unfold tag_le. by apply string_lt_asym.
  - by rewrite take_app_length' by done.
  - rewrite drop_app_ge by lia. rewrite Hlen.
    by replace (S p - p) with 1 by lia.
Qed.

Lemma insertField_keeps_order_witness :
  tag_sorted (directory_entries_ (Marc.insertField Samples.three_fields (str "150") (str "zz")).1)
  ∧ Forall (λ e, tag_le (DirEntry.getTag e) (str "150"))
      (take (N.to_nat (Marc.insertField Samples.three_fields (str "150") (str "zz")).2)
         (directory_entries_ (Marc.insertField Samples.three_fields (str "150") (str "zz")).1))
  ∧ Forall (λ e, string_lt (str "150") (DirEntry.getTag e) = true)
      (drop (S (N.to_nat (Marc.insertField Samples.three_fields (str "150") (str "zz")).2))
         (directory_entries_ (Marc.insertField Samples.three_fields (str "150") (str "zz")).1)).
Proof.
  apply (insertField_keeps_order Samples.three_fields (str "150") (str "zz")).
  repeat constructor; by vm_compute.
Defined.

Lemma StronglySorted_indices (k n : nat) : StronglySorted N.lt (N.of_nat <$> seq k n).
Proof.
  revert k. induction n as [| n IH]; intros k; simpl; [constructor |].
  apply StronglySorted_cons. split; [| apply IH].
  apply Forall_forall. intros i [j [-> Hj]]%list_elem_of_fmap.
  apply elem_of_seq in Hj. lia.
Qed.

(** X6.  On a directory in the order of its tags [getFieldIndices(t)]
    returns the index of every entry with tag [t] and no other index, in
    ascending order. *)
Theorem getFieldIndices_sorted r tag :
  tag_sorted (directory_entries_ r) →
  (size (directory_entries_ r) < 2 ^ 64 - 1)%N →
  (∀ i : size_t,
     i ∈ Marc.getFieldIndices r tag ↔
     ∃ e, directory_entries_ r !! N.to_nat i = Some e ∧ DirEntry.getTag e = tag)
  ∧ StronglySorted N.lt (Marc.getFieldIndices r tag).
Proof.
  intros Hsorted Hsize. unfold Marc.getFieldIndices, Marc.getFieldIndex.
  destruct (getFieldIndex_from_cases (directory_entries_ r) tag 0)
    as [[-> Hnone] | (k & first & -> & Hk & Hfirst & Hbefore)].
  - destruct (N.ltb_spec Marc.FIELD_NOT_FOUND (size (directory_entries_ r))) as [Hlt | _].
    { unfold Marc.FIELD_NOT_FOUND, SIZE_MAX in Hlt. lia. }
    split; [| constructor].
    intros i. split; [by intros ?%elem_of_nil |].
    intros (e & He & Htag).
    by destruct (proj1 (Forall_forall _ _) Hnone e (list_elem_of_lookup_2 _ _ _ He)).
  - pose proof (lookup_lt_Some _ _ _ Hk) as Hlt.
    rewrite N.add_0_l.
    destruct (N.ltb_spec (N.of_nat k) (size (directory_entries_ r))) as [_ | Hge];
      [| unfold size in Hge; lia].
    rewrite Nat2N.id.
    set (n := Marc.run_length (drop k (directory_entries_ r)) tag).
    assert (Marc.getFieldIndices_from (drop k (directory_entries_ r)) tag (N.of_nat k)
            = N.of_nat <$> seq k n) as ->.
    { rewrite <- (take_drop n (drop k (directory_entries_ r))) at 1.
      rewrite (getFieldIndices_from_run (take n (drop k (directory_entries_ r)))
                 (drop n (drop k (directory_entries_ r))) tag k
                 (run_length_run _ tag)).
      - rewrite length_take. f_equal. f_equal.
        pose proof (run_length_le (drop k (directory_entries_ r)) tag). lia.
      - intros e He. apply (run_length_stop (drop k (directory_entries_ r)) tag).
        by rewrite head_lookup, lookup_drop, Nat.add_0_r in He. }
    split; [| apply StronglySorted_indices].
    assert (n ≤ length (directory_entries_ r) - k) as Hn.
    { unfold n. etransitivity; [apply run_length_le |]. by rewrite length_drop. }
    intros i. rewrite list_elem_of_fmap. split.
    + intros (j & -> & Hj). apply elem_of_seq in Hj. rewrite Nat2N.id.
      destruct (lookup_lt_is_Some_2 (directory_entries_ r) j) as [e He]; [lia |].
      exists e. split; [done |].
      pose proof (run_length_run (drop k (directory_entries_ r)) tag) as Hrun.
      fold n in Hrun.
      apply (proj1 (Forall_forall _ _) Hrun e).
      apply list_elem_of_lookup. exists (j - k).
      rewrite lookup_take_lt, lookup_drop by lia.
      by replace (k + (j - k)) with j by lia.
    + intros (e & He & Htag). exists (N.to_nat i). split; [lia |].
      apply elem_of_seq.
      pose proof (lookup_lt_Some _ _ _ He) as Hi.
      assert (k ≤ N.to_nat i) as Hlow.
      { destruct (decide (k ≤ N.to_nat i)) as [| Hbelow]; [done |].
        assert (e ∈ take k (directory_entries_ r)) as Hin.
        { apply list_elem_of_lookup. exists (N.to_nat i).
          by rewrite lookup_take_lt by lia. }
        by destruct (proj1 (Forall_forall _ _) Hbefore e Hin). }
      split; [done |].
      destruct (decide (N.to_nat i < k + n)) as [| Habove]; [done |].
      destruct (lookup_lt_is_Some_2 (directory_entries_ r) (k + n)) as [h Hh]; [lia |].
      assert (DirEntry.getTag h ≠ tag) as Hstop.
      { apply (run_length_stop (drop k (directory_entries_ r)) tag).
        by rewrite lookup_drop. }
      destruct (decide (N.to_nat i = k + n)) as [Heq | Hne].
      { rewrite Heq in He. by simplify_eq. }
      assert (0 < n) as Hpos.
      { unfold n. destruct (drop k (directory_entries_ r)) as [| x l] eqn:Hdrop.
        - apply (f_equal length) in Hdrop. rewrite length_drop in Hdrop. simpl in Hdrop. lia.
        - assert (x = first) as ->.
          { pose proof (lookup_drop (directory_entries_ r) k 0) as Hx.
            rewrite Hdrop, Nat.add_0_r, Hk in Hx. by injection Hx. }
          simpl. rewrite bool_decide_eq_true_2 by done. lia. }
      pose proof (tag_sorted_lookup _ k (k + n) first h Hsorted ltac:(lia) Hk Hh) as Hlow'.
      pose proof (tag_sorted_lookup _ (k + n) (N.to_nat i) h e Hsorted ltac:(lia) Hh He)
        as Hhigh.
      rewrite Hfirst in Hlow'. rewrite Htag in Hhigh.
      by destruct Hstop; apply tag_le_antisym.
Qed.

Lemma getFieldIndices_sorted_witness :
  (∀ i : size_t,
     i ∈ Marc.getFieldIndices Samples.two_local_blocks (str "LOK") ↔
     ∃ e, directory_entries_ Samples.two_local_blocks !! N.to_nat i = Some e
          ∧ DirEntry.getTag e = str "LOK")
  ∧ StronglySorted N.lt (Marc.getFieldIndices Samples.two_local_blocks (str "LOK")).
Proof.
  apply (getFieldIndices_sorted Samples.two_local_blocks (str "LOK")).
  - repeat constructor; by vm_compute.
  - by vm_compute.
Defined.

End TagOrder.

(** ** The invariant of the data model under the mutations *)

Section Invariant.

Implicit Types (r s : MarcRecord) (e : DirectoryEntry) (tag value : std_string).
Implicit Types (entries : list DirectoryEntry).

Lemma entry_in_bounds_grow r r' e :
  (size (raw_data_ r) <= size (raw_data_ r'))%N →
  Marc.entry_in_bounds r e → Marc.entry_in_bounds r' e.
Proof. unfold Marc.entry_in_bounds. intros Hgrow [Hone Hend]. split; [done | lia]. Qed.

(** The bytes of an entry within bounds are not touched by an append. *)
Lemma entry_substr_append r e (w : std_string) :
  Marc.entry_in_bounds r e →
  substr (raw_data_ r ++ w) (DirEntry.getFieldOffset e)
         (to_unsigned (DirEntry.getFieldLength e + 2 ^ 32 - 1))
  = substr (raw_data_ r) (DirEntry.getFieldOffset e)
           (to_unsigned (DirEntry.getFieldLength e + 2 ^ 32 - 1)).
Proof.
  intros [Hone Hend]. apply substr_app_inside.
  assert (to_unsigned (DirEntry.getFieldLength e + 2 ^ 32 - 1)
          <= DirEntry.getFieldLength e - 1)%N.
  { unfold to_unsigned.
    replace (DirEntry.getFieldLength e + 2 ^ 32 - 1)%N
      with (DirEntry.getFieldLength e - 1 + 1 * 2 ^ 32)%N by lia.
    rewrite N.Div0.mod_add. apply N.Div0.mod_le. }
  lia.
Qed.

(** X7.  [insertField] keeps the invariant of the data model, and the
    fields that the record had keep their content; those from the place of
    the insertion on have moved up by one index. *)
Theorem insertField_keeps_fields r tag value :
  Marc.entries_in_bounds r →
  (size (directory_entries_ r) + 1 < 2 ^ 63)%N →
  (size (raw_data_ r) + size value + 1 < 2 ^ 32)%N →
  let r' := (Marc.insertField r tag value).1 in
  let location := (Marc.insertField r tag value).2 in
  Marc.entries_in_bounds r' ∧
  ∀ j : size_t, (j < size (directory_entries_ r))%N →
    Marc.getFieldData r' (if (j <? location)%N then j else j + 1)%N
    = Marc.getFieldData r j.
Proof.
  intros Hbounds Hsize Hraw r' location.
  pose proof (insertion_location_le (directory_entries_ r) tag) as Hle.
  set (p := Marc.insertion_location (directory_entries_ r) tag) in *.
  set (new := DirEntry.make tag (size value + 1) (size (raw_data_ r))).
  assert (directory_entries_ r' =
          take p (directory_entries_ r) ++ new :: drop p (directory_entries_ r))
    as Hentries by done.
  assert (raw_data_ r' = raw_data_ r ++ value ++ [Marc.field_terminator])
    as Hdata by done.
  assert (size (raw_data_ r') = size (raw_data_ r) + size value + 1)%N as Hgrown.
  { rewrite Hdata, !size_app. unfold size. simpl. lia. }
  split.
  - unfold Marc.entries_in_bounds. rewrite Hentries.
    apply Forall_app. split; [| apply Forall_cons_2].
    + apply Forall_take. eapply Forall_impl; [exact Hbounds |].
      intros e. apply entry_in_bounds_grow. lia.
    + unfold Marc.entry_in_bounds, new, DirEntry.make,
        DirEntry.getFieldLength, DirEntry.getFieldOffset. simpl.
      rewrite !to_unsigned_small by lia.
      rewrite !size_app. unfold size in *. simpl. lia.
    + apply Forall_drop. eapply Forall_impl; [exact Hbounds |].
      intros e. apply entry_in_bounds_grow. lia.
  - intros j Hj.
    destruct (lookup_lt_is_Some_2 (directory_entries_ r) (N.to_nat j)) as [e He];
      [unfold size in Hj; lia |].
    pose proof (proj1 (Forall_forall _ _) Hbounds e (list_elem_of_lookup_2 _ _ _ He))
      as Hin.
    rewrite (getFieldData_entry r j e He) by lia.
    assert (size (directory_entries_ r') < 2 ^ 63)%N as Hsize'.
    { unfold r'. rewrite insertField_size. lia. }
    assert (location = N.of_nat p) as -> by done.
    assert (length (take p (directory_entries_ r)) = p) as Hlen
      by (rewrite length_take; lia).
    destruct (N.ltb_spec j (N.of_nat p)) as [Hbefore | Hbehind].
    + rewrite (getFieldData_entry r' j e) by
        (rewrite ?Hentries, ?lookup_app_l, ?lookup_take_lt by lia; done).
      rewrite Hdata. by apply entry_substr_append.
    + rewrite (getFieldData_entry r' (j + 1) e); [| | done].
      * rewrite Hdata. by apply entry_substr_append.
      * rewrite Hentries. rewrite lookup_app_r by lia. rewrite Hlen.
        replace (N.to_nat (j + 1) - p) with (S (N.to_nat j - p)) by lia.
        simpl. rewrite lookup_drop.
        by replace (p + (N.to_nat j - p)) with (N.to_nat j) by lia.
Qed.

Lemma insertField_keeps_fields_witness :
  Marc.entries_in_bounds (Marc.insertField Samples.three_fields (str "150") (str "zz")).1
  ∧ ∀ j : size_t, (j < size (directory_entries_ Samples.three_fields))%N →
      Marc.getFieldData (Marc.insertField Samples.three_fields (str "150") (str "zz")).1
        (if (j <? (Marc.insertField Samples.three_fields (str "150") (str "zz")).2)%N
         then j else j + 1)%N
      = Marc.getFieldData Samples.three_fields j.
Proof.
  apply (insertField_keeps_fields Samples.three_fields (str "150") (str "zz")).
  - repeat constructor; by vm_compute.
  - by vm_compute.
  - by vm_compute.
Defined.

Lemma getFieldIndex_from_tags entries1 entries2 tag (i : size_t) :
  DirEntry.getTag <$> entries1 = DirEntry.getTag <$> entries2 →
  Marc.getFieldIndex_from entries1 tag i = Marc.getFieldIndex_from entries2 tag i.
Proof.
  revert entries2 i.
  induction entries1 as [| e1 entries1 IH]; intros [| e2 entries2] i Htags; try done.
  simpl in *. injection Htags as -> Htags. case_bool_decide; [done |]. by apply IH.
Qed.

(** X8.  [updateField] keeps the invariant of the data model, the number of
    entries and their tags: [getFieldIndex] returns after the update what it
    returned before, for every tag. *)
Theorem updateField_keeps_directory r (i : size_t) (new_value : std_string) r' :
  Marc.updateField r i new_value = Ok r' →
  Marc.entries_in_bounds r →
  (size (raw_data_ r) + size new_value + 1 < 2 ^ 32)%N →
  Marc.entries_in_bounds r' ∧
  DirEntry.getTag <$> directory_entries_ r' = DirEntry.getTag <$> directory_entries_ r ∧
  ∀ tag, Marc.getFieldIndex r' tag = Marc.getFieldIndex r tag.
Proof.
  unfold Marc.updateField, at_. intros Hupdate Hbounds Hraw.
  destruct (i <? size (directory_entries_ r))%N; [| done].
  destruct (directory_entries_ r !! N.to_nat i) as [e |] eqn:He; [| done].
  cbn [mbind outcome_bind] in Hupdate. injection Hupdate as <-. simpl.
  assert (DirEntry.getTag <$>
            <[N.to_nat i := DirEntry.setFieldOffset
                              (DirEntry.setFieldLength e (size new_value + 1))
                              (size (raw_data_ r))]> (directory_entries_ r)
          = DirEntry.getTag <$> directory_entries_ r) as Htags.
  { rewrite list_fmap_insert. apply list_insert_id.
    by rewrite list_lookup_fmap, He. }
  split; [| split; [done |]].
  - unfold Marc.entries_in_bounds. simpl.
    assert (∀ x, Marc.entry_in_bounds r x →
                 Marc.entry_in_bounds
                   {| leader_ := leader_ r;
                      directory_entries_ :=
                        <[N.to_nat i := DirEntry.setFieldOffset
                                          (DirEntry.setFieldLength e (size new_value + 1))
                                          (size (raw_data_ r))]> (directory_entries_ r);
                      raw_data_ := raw_data_ r ++ new_value ++ [Marc.field_terminator] |} x)
      as Hgrow.
    { intros x. apply entry_in_bounds_grow. simpl. rewrite size_app. lia. }
    apply Forall_insert; [by eapply Forall_impl |].
    unfold Marc.entry_in_bounds, DirEntry.setFieldOffset, DirEntry.setFieldLength,
      DirEntry.getFieldLength, DirEntry.getFieldOffset. simpl.
    rewrite !to_unsigned_small by lia.
    rewrite !size_app. unfold size. simpl. lia.
  - intros tag. unfold Marc.getFieldIndex. simpl.
    by apply getFieldIndex_from_tags.
Qed.

Lemma updateField_keeps_directory_witness :
  ∃ r', Marc.updateField Samples.three_fields 1 (str "xyz") = Ok r' ∧
        Marc.entries_in_bounds r' ∧
        DirEntry.getTag <$> directory_entries_ r'
        = DirEntry.getTag <$> directory_entries_ Samples.three_fields ∧
        ∀ tag, Marc.getFieldIndex r' tag = Marc.getFieldIndex Samples.three_fields tag.
Proof.
  eexists. split; [reflexivity |].
  eapply (updateField_keeps_directory Samples.three_fields 1 (str "xyz")).
  - reflexivity.
  - repeat constructor; by vm_compute.
  - by vm_compute.
Defined.

(** X9.  [deleteField] at the index that [insertField] returned takes the
    new entry out again: the directory is the one from before the
    insertion, while the bytes of the value stay at the end of
    [raw_data_]. *)
Theorem deleteField_insertField r tag value :
  (size (directory_entries_ r) + 1 < 2 ^ 63)%N →
  Marc.deleteField (Marc.insertField r tag value).1 (Marc.insertField r tag value).2
  = Ok {| leader_ := leader_ r;
          directory_entries_ := directory_entries_ r;
          raw_data_ := raw_data_ r ++ value ++ [Marc.field_terminator] |}.
Proof.
  intros Hsize.
  pose proof (insertion_location_le (directory_entries_ r) tag) as Hle.
  unfold Marc.deleteField. rewrite insertField_size.
  unfold Marc.insertField. cbn [fst snd leader_ raw_data_ directory_entries_].
  set (p := Marc.insertion_location (directory_entries_ r) tag) in *.
  unfold size in Hsize.
  rewrite to_ptrdiff_small by lia.
  destruct (Z.leb_spec 0 (Z.of_N (N.of_nat p))); [| lia].
  destruct (Z.ltb_spec (Z.of_N (N.of_nat p))
              (Z.of_N (size (directory_entries_ r) + 1))) as [_ | Hge];
    [| unfold size in Hge; lia].
  cbn [andb]. do 2 f_equal.
  replace (Z.to_nat (Z.of_N (N.of_nat p))) with (length (take p (directory_entries_ r)))
    by (rewrite length_take; lia).
  rewrite delete_middle. apply take_drop.
Qed.

Lemma deleteField_insertField_witness :
  Marc.deleteField (Marc.insertField Samples.three_fields (str "150") (str "zz")).1
                   (Marc.insertField Samples.three_fields (str "150") (str "zz")).2
  = Ok {| leader_ := leader_ Samples.three_fields;
          directory_entries_ := directory_entries_ Samples.three_fields;
          raw_data_ := raw_data_ Samples.three_fields ++ str "zz" ++ [Marc.field_terminator] |}.
Proof.
  apply (deleteField_insertField Samples.three_fields (str "150") (str "zz")).
  by vm_compute.
Defined.

(** X10.  [deleteField(i)] and [deleteFields] with the one range
    [[i, i + 1)] do the same: they take out entry [i] and leave the other
    entries in their order when [i] is an index of the directory, and are
    undefined when it is not. *)
Theorem deleteField_as_deleteFields r (i : size_t) :
  (size (directory_entries_ r) < 2 ^ 63)%N →
  (i < 2 ^ 64)%N →
  Marc.deleteFields r [(i, i + 1)%N] = Marc.deleteField r i ∧
  ((i < size (directory_entries_ r))%N →
   Marc.deleteField r i
   = Ok {| leader_ := leader_ r;
           directory_entries_ :=
             take (N.to_nat i) (directory_entries_ r)
             ++ drop (S (N.to_nat i)) (directory_entries_ r);
           raw_data_ := raw_data_ r |}) ∧
  ((size (directory_entries_ r) <= i)%N → Marc.deleteField r i = Undefined).
Proof.
  intros Hsize Hrange.
  assert ((i < size (directory_entries_ r))%N →
          Marc.deleteField r i
          = Ok {| leader_ := leader_ r;
                  directory_entries_ :=
                    take (N.to_nat i) (directory_entries_ r)
                    ++ drop (S (N.to_nat i)) (directory_entries_ r);
                  raw_data_ := raw_data_ r |}) as Hinside.
  { intros Hi. unfold Marc.deleteField. rewrite to_ptrdiff_small by lia.
    destruct (Z.leb_spec 0 (Z.of_N i)); [| lia].
    destruct (Z.ltb_spec (Z.of_N i) (Z.of_N (size (directory_entries_ r)))); [| lia].
    cbn [andb]. rewrite delete_take_drop.
    by replace (Z.to_nat (Z.of_N i)) with (N.to_nat i) by lia. }
  assert ((size (directory_entries_ r) <= i)%N → Marc.deleteField r i = Undefined)
    as Houtside.
  { intros Hi. unfold Marc.deleteField, to_ptrdiff.
    destruct (N.ltb_spec i (2 ^ 63)).
    - destruct (Z.ltb_spec (Z.of_N i) (Z.of_N (size (directory_entries_ r)))); [lia |].
      by rewrite andb_false_r.
    - destruct (Z.leb_spec 0 (Z.of_N i - 2 ^ 64)); [| done].
      destruct (Z.ltb_spec (Z.of_N i - 2 ^ 64)
                  (Z.of_N (size (directory_entries_ r)))); [| done].
      unfold size in *. lia. }
  split; [| by split].
  destruct (N.lt_ge_cases i (size (directory_entries_ r))) as [Hi | Hi].
  - rewrite (Hinside Hi).
    unfold Marc.deleteFields, Marc.deleteFields_loop, Marc.range. cbn [fst snd].
    destruct (N.leb_spec 0 i); [| lia].
    destruct (N.leb_spec i (size (directory_entries_ r))); [| lia].
    destruct (N.leb_spec (i + 1) (size (directory_entries_ r))); [| lia].
    destruct (N.leb_spec (size (directory_entries_ r)) (size (directory_entries_ r)));
      [| lia].
    cbn [andb mbind outcome_bind]. do 2 f_equal. simpl. f_equal.
    + f_equal. lia.
    + rewrite take_ge by (rewrite length_drop; unfold size; lia).
      f_equal. lia.
  - rewrite (Houtside Hi).
    unfold Marc.deleteFields, Marc.deleteFields_loop, Marc.range. cbn [fst snd].
    destruct (N.leb_spec 0 i); [| lia].
    destruct (N.leb_spec i (size (directory_entries_ r))); cbn [andb mbind outcome_bind];
      [| done].
    destruct (N.leb_spec (i + 1) (size (directory_entries_ r))); [lia | done].
Qed.

Lemma deleteField_as_deleteFields_witness :
  Marc.deleteFields Samples.three_fields [(1, 1 + 1)%N]
  = Marc.deleteField Samples.three_fields 1.
Proof.
  refine (proj1 (deleteField_as_deleteFields Samples.three_fields 1 _ _)).
  - by vm_compute.
  - by vm_compute.
Defined.

(** X11.  [combine] keeps the invariant of the data model when both records
    satisfy it, and the fields that the record had keep their index and
    their content. *)
Theorem combine_keeps_fields r s first others :
  directory_entries_ s = first :: others →
  Marc.entries_in_bounds r → Marc.entries_in_bounds s →
  (size (directory_entries_ r) + size (directory_entries_ s) < 2 ^ 63)%N →
  (size (raw_data_ r) + size (raw_data_ s) < 2 ^ 32)%N →
  ∃ r', Marc.combine r s = Ok r' ∧
        Marc.entries_in_bounds r' ∧
        ∀ j : size_t, (j < size (directory_entries_ r))%N →
          Marc.getFieldData r' j = Marc.getFieldData r j.
Proof.
  intros Hs Hr_bounds Hs_bounds Hsize Hraw.
  unfold Marc.combine. rewrite Hs. eexists. split; [reflexivity |].
  unfold Marc.entries_in_bounds in Hs_bounds.
  rewrite Hs in Hsize, Hs_bounds. unfold size in Hsize. simpl in Hsize.
  apply Forall_cons in Hs_bounds as [_ Hothers].
  split.
  - unfold Marc.entries_in_bounds. simpl. apply Forall_app. split.
    + eapply Forall_impl; [exact Hr_bounds |].
      intros e. apply entry_in_bounds_grow. simpl. rewrite size_app. lia.
    + apply Forall_fmap. eapply Forall_impl; [exact Hothers |].
      intros e [Hone Hend]. simpl.
      unfold Marc.entry_in_bounds, DirEntry.setFieldOffset,
        DirEntry.getFieldLength, DirEntry.getFieldOffset in *. simpl.
      rewrite to_unsigned_small by lia. rewrite size_app. lia.
  - intros j Hj.
    destruct (lookup_lt_is_Some_2 (directory_entries_ r) (N.to_nat j)) as [e He];
      [unfold size in Hj; lia |].
    rewrite (getFieldData_entry r j e He) by (unfold size; lia).
    rewrite (getFieldData_entry _ j e).
    + simpl. apply entry_substr_append.
      exact (proj1 (Forall_forall _ _) Hr_bounds e (list_elem_of_lookup_2 _ _ _ He)).
    + simpl. by rewrite lookup_app_l by (unfold size in Hj; lia).
    + simpl. unfold size. rewrite length_app, length_map. lia.
Qed.

Lemma combine_keeps_fields_witness :
  ∃ r', Marc.combine Samples.three_fields Samples.split_runs = Ok r' ∧
        Marc.entries_in_bounds r' ∧
        ∀ j : size_t, (j < size (directory_entries_ Samples.three_fields))%N →
          Marc.getFieldData r' j = Marc.getFieldData Samples.three_fields j.
Proof.
  apply (combine_keeps_fields Samples.three_fields Samples.split_runs
           (Samples.entry "001" 4 0)
           [Samples.entry "100" 3 4; Samples.entry "200" 3 7; Samples.entry "100" 3 10]).
  - reflexivity.
  - repeat constructor; by vm_compute.
  - repeat constructor; by vm_compute.
  - by vm_compute.
  - by vm_compute.
Defined.

End Invariant.

(** ** Looking up the tag of an inserted field *)

Section InsertedField.

Import Directory.

Implicit Types (r : MarcRecord) (e : DirectoryEntry) (tag value : std_string).

(** C1, as amended.  After [insertField(tag, value)], [getFieldIndex(tag)]
    returns the index of the new entry, and [getFieldData] of it is [value],
    when no field with the tag lies in front of the place of the insertion:
    that is the case when the record has no field with the tag.  When a
    field with the tag lies in front of that place, [getFieldIndex(tag)]
    returns after the insertion what it returned before, the index of the
    first, older field, and [getFieldData] of it is the content of that
    field, as before: that is the case when the directory is in the order
    of its tags and the record has a field with the tag. *)
Theorem insertField_then_getFieldIndex r tag value :
  (size (directory_entries_ r) + 1 < 2 ^ 63)%N →
  (size (raw_data_ r) < 2 ^ 32)%N →
  (size value + 1 < 2 ^ 32)%N →
  let r' := (Marc.insertField r tag value).1 in
  let location := (Marc.insertField r tag value).2 in
  let older := Marc.getFieldIndex r tag in
  ((location <= older)%N →
   Marc.getFieldIndex r' tag = location ∧
   Marc.getFieldData r' (Marc.getFieldIndex r' tag) = Ok value)
  ∧ (Forall (λ e, DirEntry.getTag e ≠ tag) (directory_entries_ r) →
     (location <= older)%N)
  ∧ ((older < location)%N → Marc.entries_in_bounds r →
     Marc.getFieldIndex r' tag = older ∧
     Marc.getFieldData r' (Marc.getFieldIndex r' tag) = Marc.getFieldData r older)
  ∧ (tag_sorted (directory_entries_ r) →
     ∀ (k : nat) e, directory_entries_ r !! k = Some e → DirEntry.getTag e = tag →
                    (older < location)%N).
Proof.
  intros Hsize Hraw Hvalue r' location older.
  pose proof (insertion_location_le (directory_entries_ r) tag) as Hle.
  set (p := Marc.insertion_location (directory_entries_ r) tag) in *.
  assert (location = N.of_nat p) as Hlocation by done.
  set (new := DirEntry.make tag (size value + 1) (size (raw_data_ r))).
  assert (directory_entries_ r' =
          take p (directory_entries_ r) ++ new :: drop p (directory_entries_ r))
    as Hentries by done.
  assert (length (take p (directory_entries_ r)) = p) as Hlen
    by (rewrite length_take; lia).
  assert (Forall (λ e, DirEntry.getTag e ≠ tag) (take p (directory_entries_ r)) →
          Marc.getFieldIndex r' tag = location ∧
          Marc.getFieldData r' (Marc.getFieldIndex r' tag) = Ok value) as Hnew.
  { intros Hfront.
    assert (Marc.getFieldIndex r' tag = location) as Hindex.
    { unfold Marc.getFieldIndex. rewrite Hentries.
      rewrite getFieldIndex_from_found by done.
      unfold size. rewrite Hlen. lia. }
    split; [done |]. rewrite Hindex. by apply insertField_getFieldData. }
  destruct (getFieldIndex_from_cases (directory_entries_ r) tag 0)
    as [[Hnone Habsent] | (k & e & Hfound & Hk & He & Hbefore)].
  - (* no field with the tag *)
    change (older = Marc.FIELD_NOT_FOUND) in Hnone.
    assert (location <= older)%N as Hbehind.
    { rewrite Hnone, Hlocation. unfold Marc.FIELD_NOT_FOUND, SIZE_MAX.
      unfold size in Hsize. lia. }
    split; [intros _; apply Hnew; by apply Forall_take |].
    split; [done |].
    split; [lia |].
    intros _ k e Hk He.
    apply list_elem_of_lookup_2 in Hk.
    by destruct (proj1 (Forall_forall _ _) Habsent e Hk).
  - (* the first field with the tag is at k *)
    change (older = (0 + N.of_nat k)%N) in Hfound.
    rewrite N.add_0_l in Hfound.
    pose proof (lookup_lt_Some _ _ _ Hk) as Hklt.
    split.
    { intros Hbehind. apply Hnew.
      replace (take p (directory_entries_ r))
        with (take p (take k (directory_entries_ r)))
        by (rewrite take_take; f_equal; lia).
      by apply Forall_take. }
    split.
    { intros Habsent. apply list_elem_of_lookup_2 in Hk.
      by destruct (proj1 (Forall_forall _ _) Habsent e Hk). }
    split.
    + intros Hfront Hbounds.
      assert (k < p) as Hkp by lia.
      assert (directory_entries_ r' !! k = Some e) as Hk'.
      { rewrite Hentries, lookup_app_l by lia. by rewrite lookup_take_lt. }
      assert (Marc.getFieldIndex r' tag = older) as Hindex.
      { unfold Marc.getFieldIndex.
        rewrite <- (take_drop_middle _ _ _ Hk').
        rewrite getFieldIndex_from_found; [| | done].
        - unfold size. rewrite length_take.
          apply lookup_lt_Some in Hk'. lia.
        - rewrite Hentries, take_app_le by lia.
          rewrite take_take. by replace (k `min` p) with k by lia. }
      split; [done |]. rewrite Hindex, Hfound.
      rewrite (getFieldData_entry r (N.of_nat k) e) by (rewrite ?Nat2N.id; done || lia).
      rewrite (getFieldData_entry r' (N.of_nat k) e).
      * apply entry_substr_append.
        apply (proj1 (Forall_forall _ _) Hbounds e).
        by apply list_elem_of_lookup_2 in Hk.
      * by rewrite Nat2N.id.
      * unfold r'. rewrite insertField_size. lia.
    + intros Hsorted k' e' Hk' He'.
      destruct (Nat.lt_ge_cases k p) as [Hkp | Hpk]; [lia |].
      destruct (lookup_lt_is_Some_2 (directory_entries_ r) p) as [x Hx]; [lia |].
      pose proof (insertion_location_stop _ _ _ Hx) as Hstop.
      destruct (decide (p = k)) as [-> | Hne].
      * simplify_eq. by rewrite string_lt_irrefl in Hstop.
      * pose proof (tag_sorted_lookup _ p k x e Hsorted ltac:(lia) Hx Hk) as Horder.
        unfold tag_le in Horder. rewrite He in Horder. congruence.
Qed.

Lemma insertField_then_getFieldIndex_witness :
  (Marc.getFieldIndex (Marc.insertField Samples.unsorted (str "100") (str "zz")).1
     (str "100") = 1%N ∧
   Marc.getFieldData (Marc.insertField Samples.unsorted (str "100") (str "zz")).1
     (Marc.getFieldIndex (Marc.insertField Samples.unsorted (str "100") (str "zz")).1
        (str "100"))
   = Ok (str "zz"))
  ∧ (Marc.getFieldIndex (Marc.insertField Samples.three_fields (str "100") (str "zz")).1
       (str "100") = 1%N ∧
     Marc.getFieldData (Marc.insertField Samples.three_fields (str "100") (str "zz")).1
       (Marc.getFieldIndex
          (Marc.insertField Samples.three_fields (str "100") (str "zz")).1 (str "100"))
     = Marc.getFieldData Samples.three_fields 1%N).
Proof.
  split.
  - refine (proj1 (insertField_then_getFieldIndex Samples.unsorted (str "100") (str "zz")
                     _ _ _) _).
    + by vm_compute.
    + by vm_compute.
    + by vm_compute.
    + by vm_compute.
  - refine (proj1 (proj2 (proj2 (insertField_then_getFieldIndex Samples.three_fields
                                   (str "100") (str "zz") _ _ _))) _ _).
    + by vm_compute.
    + by vm_compute.
    + by vm_compute.
    + by vm_compute.
    + repeat constructor; by vm_compute.
Defined.

End InsertedField.

(** ** [filterTags] with any set of tags *)

Section FilterAny.

Import Directory.

Implicit Types (r : MarcRecord) (e : DirectoryEntry) (tag : std_string).
Implicit Types (entries new_entries : list DirectoryEntry).
Implicit Types (drop_tags : gset std_string).

Lemma survivors_InRun drop_tags tag entries :
  survivors drop_tags (InRun tag) entries
  = match drop (Marc.run_length entries tag) entries with
    | [] => []
    | e :: entries' => e :: survivors drop_tags Scanning entries'
    end.
Proof.
  induction entries as [| e entries IH]; simpl; [done |].
  case_bool_decide; simpl; [apply IH | done].
Qed.

Lemma drop_S_lookup {A : Type} (l : list A) (n : nat) (x : A) :
  l !! n = Some x → drop n l = x :: drop (S n) l.
Proof.
  revert n. induction l as [| y l IH]; intros [| n] Hn; simpl in *; try done.
  - by injection Hn as ->.
  - by apply IH.
Qed.

(** The blocks that [filterTags] computes, handed to the loop of
    [deleteFields]: the entries from [copy_start] to [entry] are copied, and
    the scan goes on at [entry]. *)
Lemma deleteFields_filterTags_survivors entries drop_tags :
  ∀ fuel entry copy_start new_entries,
    copy_start ≤ entry →
    copy_start ≤ length entries →
    length entries - entry ≤ fuel →
    Marc.deleteFields_loop entries
      (Marc.filterTags_loop fuel entries drop_tags entry)
      new_entries (N.of_nat copy_start)
    = Ok (new_entries
          ++ take (entry - copy_start) (drop copy_start entries)
          ++ survivors drop_tags Scanning (drop entry entries)).
Proof.
  assert (∀ entry copy_start new_entries,
    copy_start ≤ length entries → length entries ≤ entry →
    Marc.deleteFields_loop entries [] new_entries (N.of_nat copy_start)
    = Ok (new_entries
          ++ take (entry - copy_start) (drop copy_start entries)
          ++ survivors drop_tags Scanning (drop entry entries))) as Hdone.
  { intros entry copy_start new_entries Hcs Hend. simpl.
    unfold size. rewrite range_Ok by lia. simpl.
    rewrite !take_ge by (rewrite length_drop; lia).
    rewrite (drop_ge entries entry) by lia. by rewrite app_nil_r. }
  induction fuel as [| fuel IH]; intros entry copy_start new_entries Hle Hcs Hfuel.
  { simpl. apply Hdone; [done | lia]. }
  cbn [Marc.filterTags_loop]. destruct (entries !! entry) as [e |] eqn:He.
  2:{ apply lookup_ge_None in He. by apply Hdone. }
  pose proof (lookup_lt_Some _ _ _ He) as Hlt.
  case_bool_decide as Htag.
  - set (n := Marc.run_length (drop entry entries) (DirEntry.getTag e)).
    assert (n = S (Marc.run_length (drop (S entry) entries) (DirEntry.getTag e))) as Hn.
    { unfold n. rewrite (drop_S_lookup _ _ _ He). simpl.
      by rewrite bool_decide_eq_true_2. }
    assert (n ≤ length entries - entry) as Hbound.
    { unfold n. etransitivity; [apply run_length_le |]. by rewrite length_drop. }
    cbn [Marc.deleteFields_loop fst snd]. rewrite range_Ok by lia.
    cbn [mbind outcome_bind].
    rewrite IH by lia.
    f_equal. rewrite <- (assoc_L (++)). do 2 f_equal.
    rewrite (drop_S_lookup _ _ _ He).
    cbn [survivors]. rewrite bool_decide_eq_true_2 by done.
    rewrite survivors_InRun, drop_drop.
    replace (S entry + Marc.run_length (drop (S entry) entries) (DirEntry.getTag e))
      with (entry + n) by lia.
    replace (S (entry + n) - (entry + n)) with 1 by lia.
    destruct (entries !! (entry + n)) as [x |] eqn:Hx.
    + by rewrite (drop_S_lookup _ _ _ Hx).
    + apply lookup_ge_None in Hx. by rewrite !drop_ge by lia.
  - rewrite IH by lia.
    f_equal. f_equal.
    rewrite (drop_S_lookup _ _ _ He).
    cbn [survivors]. rewrite bool_decide_eq_false_2 by done.
    replace (S entry - copy_start) with (S (entry - copy_start)) by lia.
    rewrite (take_S_r _ _ e).
    + by rewrite <- (assoc_L (++)).
    + rewrite lookup_drop.
      by replace (copy_start + (entry - copy_start)) with entry by lia.
Qed.

Lemma filterTags_one_pass r drop_tags :
  Marc.filterTags r drop_tags
  = Ok {| leader_ := leader_ r;
          directory_entries_ := survivors drop_tags Scanning (directory_entries_ r);
          raw_data_ := raw_data_ r |}.
Proof.
  unfold Marc.filterTags, Marc.deleteFields.
  change 0%N with (N.of_nat 0).
  by rewrite deleteFields_filterTags_survivors by lia.
Qed.

(** X12.  For every record and every set of tags [filterTags] returns; it
    leaves the leader and [raw_data_] as they are, and the directory that
    it leaves is what one pass over the entries gives: an entry with a tag
    of the set opens a run, the run takes the entries that follow with that
    same tag, and the entry behind the run stays whatever its tag. *)
Theorem filterTags_survivors r drop_tags :
  Marc.filterTags r drop_tags
  = Ok {| leader_ := leader_ r;
          directory_entries_ := survivors drop_tags Scanning (directory_entries_ r);
          raw_data_ := raw_data_ r |}.
Proof. apply filterTags_one_pass. Qed.

Lemma survivors_sublist drop_tags state entries :
  survivors drop_tags state entries `sublist_of` entries.
Proof.
  revert state. induction entries as [| e entries IH]; intros state; simpl; [done |].
  destruct state; case_bool_decide;
    (by apply sublist_cons) || (by apply sublist_skip).
Qed.

Lemma survivors_keep_others drop_tags state entries :
  match state with Scanning => True | InRun tag => tag ∈ drop_tags end →
  filter (λ e, DirEntry.getTag e ∉ drop_tags) (survivors drop_tags state entries)
  = filter (λ e, DirEntry.getTag e ∉ drop_tags) entries.
Proof.
  revert state. induction entries as [| e entries IH]; intros state Hstate; simpl; [done |].
  destruct state as [| tag]; case_bool_decide as He.
  - rewrite filter_cons_False by (by intros Hne). by apply IH.
  - rewrite !filter_cons_True by done. f_equal. by apply IH.
  - rewrite filter_cons_False by (rewrite He; by intros Hne). by apply IH.
  - rewrite !filter_cons. case_decide; [f_equal |]; by apply IH.
Qed.

(** X13.  [filterTags] adds nothing and reorders nothing, and it takes out
    no entry whose tag is not in the set: the entries with other tags are
    all there afterwards, in their order. *)
Theorem filterTags_keeps_others r drop_tags :
  ∃ r', Marc.filterTags r drop_tags = Ok r' ∧
        directory_entries_ r' `sublist_of` directory_entries_ r ∧
        filter (λ e, DirEntry.getTag e ∉ drop_tags) (directory_entries_ r')
        = filter (λ e, DirEntry.getTag e ∉ drop_tags) (directory_entries_ r).
Proof.
  eexists. split; [apply filterTags_one_pass |]. simpl.
  split; [apply survivors_sublist | by apply survivors_keep_others].
Qed.

(** X14.  The entry that directly follows a run taken out by [filterTags]
    stays in the directory even when its own tag is in the set: the outer
    loop steps over it.  Here [a] with a tag of the set is the first entry
    with such a tag, and [b] with another tag of the set follows it. *)
Theorem filterTags_steps_over r drop_tags front a b rest :
  directory_entries_ r = front ++ a :: b :: rest →
  Forall (λ e, DirEntry.getTag e ∉ drop_tags) front →
  DirEntry.getTag a ∈ drop_tags →
  DirEntry.getTag b ∈ drop_tags →
  DirEntry.getTag b ≠ DirEntry.getTag a →
  ∃ r', Marc.filterTags r drop_tags = Ok r' ∧
        directory_entries_ r' = front ++ b :: survivors drop_tags Scanning rest ∧
        b ∈ directory_entries_ r'.
Proof.
  intros Hentries Hfront Ha Hb Hne.
  eexists. split; [apply filterTags_one_pass |]. simpl.
  assert (survivors drop_tags Scanning (directory_entries_ r)
          = front ++ b :: survivors drop_tags Scanning rest) as ->.
  { rewrite Hentries. clear Hentries.
    induction Hfront as [| e front He _ IH]; simpl.
    - rewrite bool_decide_eq_true_2 by done.
      by rewrite bool_decide_eq_false_2 by done.
    - rewrite bool_decide_eq_false_2 by done. by rewrite IH. }
  split; [done |].
  apply elem_of_app. right. by apply elem_of_cons; left.
Qed.

Lemma filterTags_steps_over_witness :
  ∃ r', Marc.filterTags Samples.three_fields {[ str "100"; str "200" ]} = Ok r' ∧
        directory_entries_ r'
        = [Samples.entry "001" 4 0]
          ++ Samples.entry "200" 3 7
          :: survivors {[ str "100"; str "200" ]} Scanning [] ∧
        Samples.entry "200" 3 7 ∈ directory_entries_ r'.
Proof.
  apply (filterTags_steps_over Samples.three_fields {[ str "100"; str "200" ]}
           [Samples.entry "001" 4 0] (Samples.entry "100" 3 4)
           (Samples.entry "200" 3 7) []).
  - reflexivity.
  - repeat constructor.
    intros [Hin | Hin]%elem_of_union; apply elem_of_singleton in Hin; discriminate Hin.
  - apply elem_of_union. left. by apply elem_of_singleton.
  - apply elem_of_union. right. by apply elem_of_singleton.
  - by vm_compute.
Defined.

End FilterAny.

(** ** The ranges of the local blocks *)

Section Tiling.

Import Directory.

Implicit Types (r : MarcRecord) (e : DirectoryEntry).

(** X15.  On a record that satisfies the invariant of the data model and
    has a LOK field, [findAllLocalDataBlocks] returns at least one range;
    the ranges are not empty and follow one another without a gap from the
    first LOK field to the end of the directory, and every range but the
    first starts at a field that is a block header. *)
Theorem findAllLocalDataBlocks_tiles r (k : nat) e :
  Marc.entries_in_bounds r →
  (size (directory_entries_ r) < 2 ^ 63)%N →
  directory_entries_ r !! k = Some e → DirEntry.getTag e = str "LOK" →
  ∃ ranges,
    Marc.findAllLocalDataBlocks r = Ok ranges ∧
    tiles ranges (Marc.getFieldIndex r (str "LOK")) (size (directory_entries_ r)) ∧
    Forall (λ range, Marc.starts_local_block r range.1) (tail ranges).
Proof.
  intros Hbounds Hsize Hk He.
  pose proof (getFieldIndex_from_le _ _ 0%N _ _ Hk He) as Hfirst.
  fold (Marc.getFieldIndex r (str "LOK")) in Hfirst.
  pose proof (lookup_lt_Some _ _ _ Hk) as Hlt.
  unfold Marc.findAllLocalDataBlocks.
  set (first := Marc.getFieldIndex r (str "LOK")) in *.
  rewrite bool_decide_eq_false_2.
  2:{ unfold Marc.FIELD_NOT_FOUND, SIZE_MAX. unfold size in Hsize. lia. }
  apply findAllLocalDataBlocks_loop_tiles; [done | done | lia |].
  unfold size in *. lia.
Qed.

Lemma findAllLocalDataBlocks_tiles_witness :
  ∃ ranges,
    Marc.findAllLocalDataBlocks Samples.two_local_blocks = Ok ranges ∧
    tiles ranges (Marc.getFieldIndex Samples.two_local_blocks (str "LOK"))
          (size (directory_entries_ Samples.two_local_blocks)) ∧
    Forall (λ range, Marc.starts_local_block Samples.two_local_blocks range.1)
           (tail ranges).
Proof.
  eapply (findAllLocalDataBlocks_tiles Samples.two_local_blocks 2).
  - repeat constructor; by vm_compute.
  - by vm_compute.
  - reflexivity.
  - reflexivity.
Defined.

End Tiling.

(** ** The language code of the 008 field *)

Section LanguageCode.

Implicit Types (r : MarcRecord) (e : DirectoryEntry) (value : std_string).

Lemma getFieldIndex_first r tag (k : nat) e :
  directory_entries_ r !! k = Some e → DirEntry.getTag e = tag →
  Forall (λ x, DirEntry.getTag x ≠ tag) (take k (directory_entries_ r)) →
  Marc.getFieldIndex r tag = N.of_nat k.
Proof.
  intros Hk He Hbefore. unfold Marc.getFieldIndex.
  rewrite <- (take_drop_middle _ _ _ Hk).
  rewrite getFieldIndex_from_found by done.
  apply lookup_lt_Some in Hk. unfold size. rewrite length_take. lia.
Qed.

(** X16.  [getLanguageCode] returns the empty string on a record without
    008 field and when the first 008 field is shorter than 38 bytes with its
    terminator.  When that field has 38 content bytes or more, on a record
    that satisfies the invariant of the data model, it returns the three
    bytes at the offsets 35 to 37 of the content that [getFieldData]
    returns. *)
Theorem getLanguageCode_cases r :
  (Forall (λ x, DirEntry.getTag x ≠ str "008") (directory_entries_ r) →
   Marc.getLanguageCode r = Ok [])
  ∧ (∀ (k : nat) e,
       directory_entries_ r !! k = Some e → DirEntry.getTag e = str "008" →
       Forall (λ x, DirEntry.getTag x ≠ str "008") (take k (directory_entries_ r)) →
       (size (directory_entries_ r) < 2 ^ 63)%N →
       ((DirEntry.getFieldLength e < 38)%N → Marc.getLanguageCode r = Ok [])
       ∧ ((39 <= DirEntry.getFieldLength e)%N →
          Marc.entry_in_bounds r e → (size (raw_data_ r) < 2 ^ 32)%N →
          ∃ content,
            Marc.getFieldData r (N.of_nat k) = Ok content ∧
            Marc.getLanguageCode r = Ok (take 3 (drop 35 content)) ∧
            length (take 3 (drop 35 content)) = 3)).
Proof.
  split.
  - intros Hnone. unfold Marc.getLanguageCode, Marc.getFieldIndex.
    rewrite getFieldIndex_from_absent by done.
    by rewrite bool_decide_eq_true_2.
  - intros k e Hk He Hbefore Hsize.
    pose proof (lookup_lt_Some _ _ _ Hk) as Hlt.
    assert (Marc.getLanguageCode r =
            if (DirEntry.getFieldLength e <? 38)%N then Ok []
            else substr (raw_data_ r) (to_unsigned (DirEntry.getFieldOffset e + 35)) 3)
      as Hcode.
    { unfold Marc.getLanguageCode.
      rewrite (getFieldIndex_first r (str "008") k e) by done.
      rewrite bool_decide_eq_false_2
        by (unfold Marc.FIELD_NOT_FOUND, SIZE_MAX; unfold size in Hsize; lia).
      by rewrite (at_lookup _ (N.of_nat k) e) by (by rewrite Nat2N.id). }
    split.
    + intros Hshort. rewrite Hcode.
      by destruct (N.ltb_spec (DirEntry.getFieldLength e) 38); [| lia].
    + intros Hlong [Hone Hend] Hraw.
      rewrite (getFieldData_entry r (N.of_nat k) e) by (by rewrite ?Nat2N.id).
      rewrite unsigned_length_pred by lia.
      rewrite substr_Ok by lia.
      eexists. split; [reflexivity |].
      rewrite Hcode.
      destruct (N.ltb_spec (DirEntry.getFieldLength e) 38); [lia |].
      rewrite to_unsigned_small by lia.
      rewrite substr_Ok by lia.
      set (data := drop (N.to_nat (DirEntry.getFieldOffset e)) (raw_data_ r)).
      assert (N.to_nat (DirEntry.getFieldLength e) - 1 ≤ length data) as Hdata.
      { unfold data. rewrite length_drop. unfold size in Hend. lia. }
      assert (take 3 (drop 35 (take (N.to_nat (DirEntry.getFieldLength e - 1)) data))
              = take 3 (drop 35 data)) as ->.
      { rewrite !take_drop_commute. rewrite take_take. do 2 f_equal. lia. }
      split.
      * do 2 f_equal. unfold data. rewrite drop_drop. f_equal. lia.
      * rewrite length_take, length_drop. lia.
Qed.

Lemma getLanguageCode_cases_witness :
  Marc.getLanguageCode Samples.three_fields = Ok [] ∧
  ∃ content,
    Marc.getFieldData Samples.with_008 (N.of_nat 1) = Ok content ∧
    Marc.getLanguageCode Samples.with_008 = Ok (take 3 (drop 35 content)) ∧
    length (take 3 (drop 35 content)) = 3.
Proof.
  split.
  - apply (getLanguageCode_cases Samples.three_fields).
    repeat constructor; by vm_compute.
  - refine (proj2 (proj2 (getLanguageCode_cases Samples.with_008) 1
                     (Samples.entry "008" 41 4) _ _ _ _) _ _ _).
    + reflexivity.
    + reflexivity.
    + repeat constructor; by vm_compute.
    + by vm_compute.
    + by vm_compute.
    + by vm_compute.
    + by vm_compute.
Defined.

Lemma insertField_getFieldIndex_fresh r tag value :
  Forall (λ e, DirEntry.getTag e ≠ tag) (directory_entries_ r) →
  Marc.getFieldIndex (Marc.insertField r tag value).1 tag
  = (Marc.insertField r tag value).2.
Proof.
  intros Hfresh. unfold Marc.getFieldIndex. rewrite insertField_entries. simpl.
  rewrite getFieldIndex_from_found; [| by apply Forall_take | done].
  pose proof (insertion_location_le (directory_entries_ r) tag).
  unfold size. rewrite length_take. lia.
Qed.

(** X17.  The test of [getLanguageCode] counts the terminator: after
    [insertField("008", value)] on a record without 008 field it returns the
    empty string when the value has fewer than 37 bytes, and otherwise the
    three bytes from offset 35 on of the value followed by its terminator;
    for a value of 37 bytes these are its last two bytes and the field
    terminator. *)
Theorem getLanguageCode_after_insertField r value :
  Forall (λ e, DirEntry.getTag e ≠ str "008") (directory_entries_ r) →
  (size (directory_entries_ r) + 1 < 2 ^ 63)%N →
  (size (raw_data_ r) + size value + 1 < 2 ^ 32)%N →
  let r' := (Marc.insertField r (str "008") value).1 in
  ((size value < 37)%N → Marc.getLanguageCode r' = Ok [])
  ∧ ((37 <= size value)%N →
     Marc.getLanguageCode r' = Ok (take 3 (drop 35 (value ++ [Marc.field_terminator]))))
  ∧ (size value = 37%N →
     Marc.getLanguageCode r' = Ok (drop 35 value ++ [Marc.field_terminator])).
Proof.
  intros Hfresh Hsize Hraw r'.
  assert (Marc.getLanguageCode r' =
          if (size value + 1 <? 38)%N then Ok []
          else substr (raw_data_ r ++ value ++ [Marc.field_terminator])
                      (size (raw_data_ r) + 35) 3) as Hcode.
  { unfold Marc.getLanguageCode, r'.
    rewrite insertField_getFieldIndex_fresh by done.
    pose proof (insertion_location_le (directory_entries_ r) (str "008")) as Hle.
    rewrite bool_decide_eq_false_2.
    2:{ unfold Marc.FIELD_NOT_FOUND, SIZE_MAX, Marc.insertField. cbn [snd].
        unfold size in Hsize. lia. }
    rewrite (at_lookup _ _ _ (insertField_lookup r (str "008") value)).
    cbn [mbind outcome_bind].
    unfold DirEntry.getFieldLength, DirEntry.getFieldOffset, DirEntry.make.
    cbn [field_length_ field_offset_].
    rewrite (to_unsigned_small (size value + 1)) by lia.
    rewrite (to_unsigned_small (size (raw_data_ r))) by lia.
    destruct (N.ltb_spec (size value + 1) 38); [done |].
    by rewrite to_unsigned_small by lia. }
  assert ((37 <= size value)%N →
          Marc.getLanguageCode r'
          = Ok (take 3 (drop 35 (value ++ [Marc.field_terminator])))) as Hlong.
  { intros Hlen. rewrite Hcode.
    destruct (N.ltb_spec (size value + 1) 38); [lia |].
    rewrite substr_app_shift.
    by rewrite substr_Ok by (rewrite size_app; lia). }
  split; [| split; [done |]].
  - intros Hshort. rewrite Hcode.
    by destruct (N.ltb_spec (size value + 1) 38); [| lia].
  - intros Hlen. rewrite Hlong by lia. f_equal.
    unfold size in Hlen.
    rewrite drop_app_le by lia.
    rewrite take_ge; [done |].
    rewrite length_app, length_drop. simpl. lia.
Qed.

Lemma getLanguageCode_after_insertField_witness :
  Marc.getLanguageCode
    (Marc.insertField Samples.three_fields (str "008")
       (str "160101s2016    gw            000 0 ge")).1
  = Ok (str "ge" ++ [Marc.field_terminator]).
Proof.
  refine (proj2 (proj2 (getLanguageCode_after_insertField Samples.three_fields
                          (str "160101s2016    gw            000 0 ge") _ _ _)) _).
  - repeat constructor; by vm_compute.
  - by vm_compute.
  - by vm_compute.
  - reflexivity.
Defined.

(** X18.  [insertSubfield] inserts the field made of the two indicators,
    the delimiter, the code and the value, which [getFieldData] returns at
    the index of the new entry.  It returns [true] exactly when that index is
    not 0, that is when the record had a first entry whose tag is not
    greater than the new tag; on a record without entries it inserts the
    field and returns [false]. *)
Theorem insertSubfield_result r tag (code indicator1 indicator2 : ascii) value :
  (size (directory_entries_ r) + 1 < 2 ^ 63)%N →
  (size (raw_data_ r) < 2 ^ 32)%N →
  (size value + 5 < 2 ^ 32)%N →
  let inserted := Marc.insertSubfield r tag code value indicator1 indicator2 in
  Marc.getFieldData inserted.1
    (N.of_nat (Marc.insertion_location (directory_entries_ r) tag))
  = Ok (indicator1 :: indicator2 :: Subfields.delimiter :: code :: value)
  ∧ (inserted.2 = true ↔
     ∃ e, head (directory_entries_ r) = Some e ∧
          Directory.tag_le (DirEntry.getTag e) tag)
  ∧ (directory_entries_ r = [] → inserted.2 = false).
Proof.
  intros Hsize Hraw Hvalue inserted.
  set (field := [indicator1] ++ [indicator2] ++ [Subfields.delimiter] ++ [code] ++ value).
  assert (size field = size value + 4)%N as Hfield by (unfold size; simpl; lia).
  split; [| split].
  - apply (insertField_getFieldData r tag field); [done | done | lia].
  - unfold inserted, Marc.insertSubfield, Marc.insertField. cbn [fst snd].
    unfold Directory.tag_le.
    destruct (directory_entries_ r) as [| e entries]; simpl.
    + split; [done | by intros (e & He & _)].
    + unfold string_ge. destruct (string_lt tag (DirEntry.getTag e)) eqn:Hlt; simpl.
      * split; [done |]. intros (x & [= <-] & Hx). congruence.
      * split; [by eauto |]. intros _.
        by destruct (Marc.insertion_location entries tag).
  - intros Hempty. unfold inserted, Marc.insertSubfield, Marc.insertField.
    by rewrite Hempty.
Qed.

Lemma insertSubfield_result_witness :
  Marc.getFieldData
    (Marc.insertSubfield Samples.three_fields (str "041") "a" (str "ger") " " " ").1
    (N.of_nat (Marc.insertion_location (directory_entries_ Samples.three_fields)
                 (str "041")))
  = Ok (" " :: " " :: Subfields.delimiter :: "a" :: str "ger")%char.
Proof.
  apply (insertSubfield_result Samples.three_fields (str "041") "a" " " " " (str "ger")).
  - by vm_compute.
  - by vm_compute.
  - by vm_compute.
Defined.

End LanguageCode.

(** ** The two passes of the bibliographic level patch *)

Section TwoPasses.

Import FixArticleBiblioLevels.

Implicit Types (record : Record_) (g : globals) (serials : gset std_string).
Implicit Types (id : std_string).

Lemma serial_id_idem (l id : std_string) :
  Regex.serial_id l = Some id → Regex.serial_id id = Some id.
Proof.
  unfold Regex.serial_id. intros Hid.
  destruct (bool_decide (length (take 9 l) = 9) && _ && _) eqn:Hl; [| done].
  injection Hid as <-.
  assert (take 9 (take 9 l) = take 9 l) as -> by (rewrite take_take; f_equal; lia).
  by rewrite Hl.
Qed.

Lemma after_any_valid (l id : std_string) :
  Regex.after_any l = Some id → Regex.serial_id id = Some id.
Proof.
  induction l as [| c l IH]; simpl; [done |].
  destruct (bool_decide (c = Regex.newline)).
  - case_bool_decide; [| done]. apply serial_id_idem.
  - destruct (Regex.after_any l) as [group |]; [intros [= <-]; by apply IH |].
    case_bool_decide; [| done]. apply serial_id_idem.
Qed.

(** What the pattern of [HasSerialParent] captures is a control number of
    nine characters. *)
Lemma parent_id_match_valid (l id : std_string) :
  Regex.parent_id_match l = Some id → Regex.serial_id id = Some id.
Proof.
  assert (∀ l, Regex.match_here l = Some id → Regex.serial_id id = Some id) as Hhere.
  { intros [| c0 [| c1 l']]; simpl; try done.
    destruct (_ && _); [apply after_any_valid | done]. }
  induction l as [| c l IH].
  - simpl. done.
  - cbn [Regex.parent_id_match].
    destruct (Regex.match_here (c :: l)) as [group |] eqn:Hmatch.
    + intros [= <-]. by apply Hhere in Hmatch.
    + apply IH.
Qed.

Lemma HasSerialParent_true serials (subfield : std_string) record :
  HasSerialParent serials subfield record = Ok true →
  ∃ id, id ∈ serials ∧ Regex.serial_id id = Some id.
Proof.
  unfold HasSerialParent.
  destruct (substr subfield 0 3) as [tag | | |]; cbn [mbind outcome_bind]; try done.
  destruct (char_at subfield 3) as [code | | |]; cbn [mbind outcome_bind]; try done.
  case_bool_decide; [done |].
  destruct (at_ (fields record) _) as [field | | |]; cbn [mbind outcome_bind]; try done.
  case_bool_decide; [done |].
  destruct (Regex.parent_id_match _) as [id |] eqn:Hmatch; [| done].
  intros [= Hin]. apply bool_decide_eq_true_1 in Hin.
  exists id. split; [done |]. by apply parent_id_match_valid in Hmatch.
Qed.

Lemma HasAtLeastOneSerialParent_true serials (subfield_list : std_string) record :
  HasAtLeastOneSerialParent serials subfield_list record = Ok true →
  ∃ id, id ∈ serials ∧ Regex.serial_id id = Some id.
Proof.
  unfold HasAtLeastOneSerialParent.
  induction (Split subfield_list ":") as [| subfield subfields IH]; simpl; [done |].
  destruct (HasSerialParent serials subfield record) as [[] | | |] eqn:Hparent;
    cbn [mbind outcome_bind]; try done.
  intros _. by apply HasSerialParent_true in Hparent.
Qed.

Lemma PatchUpArticle_inv g record record' g' (result : bool) :
  PatchUpArticle g record = Ok (record', g', result) →
  result = true ∧
  output g' = output g ++ [record'] ∧
  serial_control_numbers g' = serial_control_numbers g ∧
  dir_entries record' = dir_entries record ∧
  fields record' = fields record ∧
  ((record' = record ∧ patch_count g' = patch_count g)
   ∨ (at_ (leader record) 7 = Ok "a"%char ∧
      HasAtLeastOneSerialParent (serial_control_numbers g)
        (str "800w:810w:830w:773w") record = Ok true ∧
      leader record' = <[7 := "b"%char]> (leader record) ∧
      patch_count g' = to_unsigned (patch_count g + 1))).
Proof.
  unfold PatchUpArticle.
  destruct (at_ (leader record) 7) as [level | | |] eqn:Hlevel;
    cbn [mbind outcome_bind]; try done.
  case_bool_decide as Hne.
  { intros [= <- <- <-]. repeat split; try done. by left. }
  subst level.
  destruct (HasAtLeastOneSerialParent _ _ record) as [[] | | |] eqn:Hparent;
    cbn [mbind outcome_bind negb]; try done.
  - intros [= <- <- <-]. repeat split; try done. right. by repeat split.
  - intros [= <- <- <-]. repeat split; try done. by left.
Qed.

Lemma at_leader_lookup (l : std_string) (c : ascii) :
  at_ l 7 = Ok c → l !! 7 = Some c.
Proof.
  unfold at_. destruct (7 <? size l)%N; [| done].
  change (N.to_nat 7) with 7. by destruct (l !! 7); intros [= ->].
Qed.

(** X19.  Whenever [PatchUpArticle] returns it returns [true] and has
    written one record, the one it leaves; the set of serials is untouched;
    the record keeps its directory and its fields, and either is unchanged,
    or had an 'a' as byte 7 of the leader and has a 'b' there now, the
    counter of patches being one higher. *)
Theorem PatchUpArticle_effect g record record' g' (result : bool) :
  PatchUpArticle g record = Ok (record', g', result) →
  result = true ∧
  output g' = output g ++ [record'] ∧
  serial_control_numbers g' = serial_control_numbers g ∧
  dir_entries record' = dir_entries record ∧
  fields record' = fields record ∧
  ((record' = record ∧ patch_count g' = patch_count g)
   ∨ (leader record !! 7 = Some "a"%char ∧
      leader record' = <[7 := "b"%char]> (leader record) ∧
      patch_count g' = to_unsigned (patch_count g + 1))).
Proof.
  intros (-> & Hout & Hserials & Hdir & Hfields & Hcases)%PatchUpArticle_inv.
  repeat split; try done.
  destruct Hcases as [? | (Hlevel & _ & Hleader & Hcount)]; [by left |].
  right. repeat split; try done. by apply at_leader_lookup.
Qed.

Lemma PatchUpArticle_effect_witness :
  true = true ∧
  output (write (Samples.article "(DE-576)123") (Samples.collected "123"))
  = output (Samples.collected "123") ++ [Samples.article "(DE-576)123"] ∧
  serial_control_numbers (write (Samples.article "(DE-576)123") (Samples.collected "123"))
  = serial_control_numbers (Samples.collected "123") ∧
  dir_entries (Samples.article "(DE-576)123") = dir_entries (Samples.article "(DE-576)123") ∧
  fields (Samples.article "(DE-576)123") = fields (Samples.article "(DE-576)123") ∧
  ((Samples.article "(DE-576)123" = Samples.article "(DE-576)123" ∧
    patch_count (write (Samples.article "(DE-576)123") (Samples.collected "123"))
    = patch_count (Samples.collected "123"))
   ∨ (leader (Samples.article "(DE-576)123") !! 7 = Some "a"%char ∧
      leader (Samples.article "(DE-576)123")
      = <[7 := "b"%char]> (leader (Samples.article "(DE-576)123")) ∧
      patch_count (write (Samples.article "(DE-576)123") (Samples.collected "123"))
      = to_unsigned (patch_count (Samples.collected "123") + 1))).
Proof.
  apply (PatchUpArticle_effect (Samples.collected "123") (Samples.article "(DE-576)123")).
  reflexivity.
Defined.

(** X20.  [PatchUpArticle] changes a record only when the set of serials
    holds a control number of the form that [HasSerialParent] looks for,
    eight digits followed by a digit or X: with a set without such a
    member, the empty set for one, every record is written as it is. *)
Theorem PatchUpArticle_needs_serial g record record' g' (result : bool) :
  (∀ id, id ∈ serial_control_numbers g → Regex.serial_id id ≠ Some id) →
  PatchUpArticle g record = Ok (record', g', result) →
  record' = record ∧ patch_count g' = patch_count g.
Proof.
  intros Hnone (_ & _ & _ & _ & _ & Hcases)%PatchUpArticle_inv.
  destruct Hcases as [? | (_ & Hparent & _)]; [done |].
  apply HasAtLeastOneSerialParent_true in Hparent as (id & Hin & Hid).
  by destruct (Hnone id Hin).
Qed.

Lemma PatchUpArticle_needs_serial_witness :
  Samples.article "(DE-576)123456789" = Samples.article "(DE-576)123456789" ∧
  patch_count (write (Samples.article "(DE-576)123456789")
                 {| serial_control_numbers := ∅; output := []; patch_count := 0 |})
  = patch_count {| serial_control_numbers := ∅; output := []; patch_count := 0 |}.
Proof.
  apply (PatchUpArticle_needs_serial
           {| serial_control_numbers := ∅; output := []; patch_count := 0 |}
           (Samples.article "(DE-576)123456789") _ _ true).
  - intros id Hin. by apply not_elem_of_empty in Hin.
  - reflexivity.
Defined.

(** X21.  Whenever [RecordSerialControlNumbers] returns it returns [true];
    it writes no record and patches none, and removes nothing from the set
    of serials.  When byte 7 of the leader is 's' the first field of the
    record, its control number, is added to the set; otherwise the set is
    unchanged. *)
Theorem RecordSerialControlNumbers_effect g record g' (result : bool) :
  RecordSerialControlNumbers g record = Ok (g', result) →
  result = true ∧
  output g' = output g ∧
  patch_count g' = patch_count g ∧
  serial_control_numbers g ⊆ serial_control_numbers g' ∧
  ((leader record !! 7 = Some "s"%char ∧
    ∃ control_number, fields record !! 0 = Some control_number ∧
      serial_control_numbers g' = {[ control_number ]} ∪ serial_control_numbers g)
   ∨ (leader record !! 7 ≠ Some "s"%char ∧ g' = g)).
Proof.
  unfold RecordSerialControlNumbers.
  destruct (at_ (leader record) 7) as [level | | |] eqn:Hlevel;
    cbn [mbind outcome_bind]; try done.
  apply at_leader_lookup in Hlevel.
  case_bool_decide as Hs.
  - subst level.
    destruct (at_ (fields record) 0) as [control_number | | |] eqn:Hfirst;
      cbn [mbind outcome_bind]; try done.
    intros [= <- <-]. simpl. repeat split; try done.
    + apply union_subseteq_r.
    + left. split; [done |]. exists control_number. split; [| done].
      unfold at_ in Hfirst. destruct (0 <? size (fields record))%N; [| done].
      change (N.to_nat 0) with 0 in Hfirst.
      by destruct (fields record !! 0); simplify_eq.
  - intros [= <- <-]. repeat split; try done.
    right. split; [| done]. rewrite Hlevel. by intros [= ->].
Qed.

Lemma RecordSerialControlNumbers_effect_witness :
  ∃ g', RecordSerialControlNumbers (Samples.collected "123") (Samples.serial "123456789")
        = Ok (g', true) ∧
        serial_control_numbers (Samples.collected "123") ⊆ serial_control_numbers g'.
Proof.
  eexists. split; [reflexivity |].
  eapply (RecordSerialControlNumbers_effect (Samples.collected "123")
            (Samples.serial "123456789") _ true).
  reflexivity.
Defined.

Lemma HasAtLeastOneSerialParent_returns serials record :
  length (fields record) = length (dir_entries record) →
  ∃ found,
    HasAtLeastOneSerialParent serials (str "800w:810w:830w:773w") record = Ok found.
Proof.
  intros Hparallel. unfold HasAtLeastOneSerialParent.
  change (Split (str "800w:810w:830w:773w") ":"%char)
    with [["8"; "0"; "0"; "w"]; ["8"; "1"; "0"; "w"]; ["8"; "3"; "0"; "w"];
          ["7"; "7"; "3"; "w"]]%char.
  cbn [HasAtLeastOneSerialParent_loop].
  destruct (HasSerialParent_returns serials "8" "0" "0" "w" record Hparallel) as [[] ->];
    cbn [mbind outcome_bind]; [eauto |].
  destruct (HasSerialParent_returns serials "8" "1" "0" "w" record Hparallel) as [[] ->];
    cbn [mbind outcome_bind]; [eauto |].
  destruct (HasSerialParent_returns serials "8" "3" "0" "w" record Hparallel) as [[] ->];
    cbn [mbind outcome_bind]; [eauto |].
  destruct (HasSerialParent_returns serials "7" "7" "3" "w" record Hparallel) as [[] ->];
    cbn [mbind outcome_bind]; eauto.
Qed.

Lemma at_leader_returns (l : std_string) : (8 <= size l)%N → ∃ c, at_ l 7 = Ok c.
Proof.
  intros Hlen. unfold at_.
  destruct (N.ltb_spec 7 (size l)); [| lia].
  destruct (lookup_lt_is_Some_2 l (N.to_nat 7)) as [c ->]; [unfold size in Hlen; lia |].
  eauto.
Qed.

Lemma PatchUpArticle_returns g record :
  well_formed record →
  ∃ record' g', PatchUpArticle g record = Ok (record', g', true).
Proof.
  intros (Hleader & Hparallel & _). unfold PatchUpArticle.
  destruct (at_leader_returns _ Hleader) as [level ->]. cbn [mbind outcome_bind].
  case_bool_decide; [eauto |].
  destruct (HasAtLeastOneSerialParent_returns (serial_control_numbers g) record Hparallel)
    as [[] ->]; cbn [mbind outcome_bind negb]; eauto.
Qed.

Lemma RecordSerialControlNumbers_returns g record :
  well_formed record →
  ∃ g', RecordSerialControlNumbers g record = Ok (g', true).
Proof.
  intros (Hleader & _ & Hfields). unfold RecordSerialControlNumbers.
  destruct (at_leader_returns _ Hleader) as [level ->]. cbn [mbind outcome_bind].
  case_bool_decide; [| eauto].
  destruct (fields record) as [| control_number others] eqn:Hfirst; [done |].
  change (at_ (control_number :: others) 0) with (Ok control_number).
  cbn [mbind outcome_bind]. eauto.
Qed.

Lemma RecordSerialControlNumbers_inv g record g' (result : bool) :
  RecordSerialControlNumbers g record = Ok (g', result) →
  output g' = output g ∧
  serial_control_numbers g ⊆ serial_control_numbers g' ∧
  (∀ control_number,
     leader record !! 7 = Some "s"%char → fields record !! 0 = Some control_number →
     control_number ∈ serial_control_numbers g').
Proof.
  unfold RecordSerialControlNumbers.
  destruct (at_ (leader record) 7) as [level | | |] eqn:Hlevel;
    cbn [mbind outcome_bind]; try done.
  apply at_leader_lookup in Hlevel.
  case_bool_decide as Hs.
  - destruct (fields record) as [| first others]; [done |].
    change (at_ (first :: others) 0) with (Ok first). cbn [mbind outcome_bind].
    intros [= <- <-]. simpl. repeat split; [apply union_subseteq_r |].
    intros control_number _ [= <-]. apply elem_of_union. left. by apply elem_of_singleton.
  - intros [= <- <-]. repeat split; [done |].
    intros control_number Hlevel'. rewrite Hlevel in Hlevel'. by injection Hlevel'.
Qed.

Lemma ProcessRecords_collect (input : list Record_) :
  ∀ g, Forall well_formed input →
    ∃ g', ProcessRecords RecordSerialControlNumbers input g = Ok (g', true) ∧
          output g' = output g ∧
          serial_control_numbers g ⊆ serial_control_numbers g' ∧
          (∀ record control_number,
             record ∈ input →
             leader record !! 7 = Some "s"%char →
             fields record !! 0 = Some control_number →
             control_number ∈ serial_control_numbers g').
Proof.
  induction input as [| record input IH]; intros g Hwf.
  - exists g. repeat split; [done |]. by intros record cn ?%elem_of_nil.
  - apply Forall_cons in Hwf as [Hrecord Hinput].
    destruct (RecordSerialControlNumbers_returns g record Hrecord) as [g1 Hg1].
    cbn [ProcessRecords]. rewrite Hg1. cbn [mbind outcome_bind fst snd].
    apply RecordSerialControlNumbers_inv in Hg1 as (Hout1 & Hsub1 & Hadd1).
    destruct (IH g1 Hinput) as (g' & -> & Hout & Hsub & Hadd).
    exists g'. repeat split; [congruence | by etransitivity |].
    intros x cn [-> | Hx]%elem_of_cons Hlevel Hfirst.
    + apply Hsub. by apply Hadd1.
    + by apply (Hadd x).
Qed.

Lemma CollectSerials_returns (inputs : list (list Record_)) :
  ∀ g, Forall (Forall well_formed) inputs →
    ∃ g', CollectSerials inputs g = Ok g' ∧
          output g' = output g ∧
          (∀ input record control_number,
             input ∈ inputs → record ∈ input →
             leader record !! 7 = Some "s"%char →
             fields record !! 0 = Some control_number →
             control_number ∈ serial_control_numbers g').
Proof.
  assert (∀ inputs g, Forall (Forall well_formed) inputs →
    ∃ g', CollectSerials inputs g = Ok g' ∧
          output g' = output g ∧
          serial_control_numbers g ⊆ serial_control_numbers g' ∧
          (∀ input record control_number,
             input ∈ inputs → record ∈ input →
             leader record !! 7 = Some "s"%char →
             fields record !! 0 = Some control_number →
             control_number ∈ serial_control_numbers g')) as Hgeneral.
  { clear inputs. induction inputs as [| input inputs IH]; intros g Hwf.
    - exists g. repeat split; [done |]. by intros input record cn ?%elem_of_nil.
    - apply Forall_cons in Hwf as [Hinput Hinputs].
      destruct (ProcessRecords_collect input g Hinput) as (g1 & Hg1 & Hout1 & Hsub1 & Hadd1).
      cbn [CollectSerials]. rewrite Hg1. cbn [mbind outcome_bind fst snd].
      destruct (IH g1 Hinputs) as (g' & -> & Hout & Hsub & Hadd).
      exists g'. repeat split; [congruence | by etransitivity |].
      intros x record cn [-> | Hx]%elem_of_cons Hrecord Hlevel Hfirst.
      + apply Hsub. by apply (Hadd1 record).
      + by apply (Hadd x record). }
  intros g Hwf. destruct (Hgeneral inputs g Hwf) as (g' & ? & ? & _ & ?). eauto.
Qed.

Lemma ProcessRecords_patch (input : list Record_) :
  ∀ g, Forall well_formed input →
    ∃ g' written,
      ProcessRecords
        (λ g record, patched ← PatchUpArticle g record; Ok (patched.1.2, patched.2))
        input g = Ok (g', true) ∧
      output g' = output g ++ written ∧
      Forall2 (λ record out,
                 ∃ g1 g2, serial_control_numbers g1 = serial_control_numbers g ∧
                          PatchUpArticle g1 record = Ok (out, g2, true))
              input written.
Proof.
  induction input as [| record input IH]; intros g Hwf.
  - exists g, []. repeat split; [by rewrite app_nil_r | constructor].
  - apply Forall_cons in Hwf as [Hrecord Hinput].
    destruct (PatchUpArticle_returns g record Hrecord) as (record' & g1 & Hg1).
    cbn [ProcessRecords]. rewrite Hg1. cbn [mbind outcome_bind fst snd].
    pose proof (PatchUpArticle_inv _ _ _ _ _ Hg1) as (_ & Hout1 & Hserials1 & _).
    destruct (IH g1 Hinput) as (g' & written & -> & Hout & Hall).
    exists g', (record' :: written). repeat split.
    + rewrite Hout, Hout1. by rewrite <- (assoc_L (++)).
    + constructor; [by exists g, g1 |].
      eapply Forall2_impl; [exact Hall |].
      intros x out (ga & gb & Hga & Hpatch). exists ga, gb. split; [congruence | done].
Qed.

(** The two passes over well-formed inputs: what the first pass has
    collected, and a call of [PatchUpArticle] for every record of the first
    input, in their order. *)
Lemma collect_and_patch_returns (first : list Record_) (others : list (list Record_)) :
  Forall (Forall well_formed) (first :: others) →
  ∃ g g',
    collect_and_patch (first :: others) = Ok g' ∧
    (∀ input record control_number,
       input ∈ first :: others → record ∈ input →
       leader record !! 7 = Some "s"%char →
       fields record !! 0 = Some control_number →
       control_number ∈ serial_control_numbers g) ∧
    Forall2 (λ record out,
               ∃ g1 g2, serial_control_numbers g1 = serial_control_numbers g ∧
                        PatchUpArticle g1 record = Ok (out, g2, true))
            first (output g').
Proof.
  intros Hwf. unfold collect_and_patch.
  destruct (CollectSerials_returns (first :: others)
              {| serial_control_numbers := ∅; output := []; patch_count := 0 |} Hwf)
    as (g & -> & Hout & Hadd).
  cbn [mbind outcome_bind].
  change (at_ (first :: others) 0) with (Ok first). cbn [mbind outcome_bind].
  apply Forall_cons in Hwf as [Hfirst _].
  destruct (ProcessRecords_patch first g Hfirst) as (g' & written & Hg' & Hwritten & Hall).
  unfold PatchUpSerialComponentParts. rewrite Hg'. cbn [mbind outcome_bind fst snd].
  exists g, g'. repeat split; [done |].
  rewrite Hwritten, Hout. done.
Qed.

(** X22.  On well-formed inputs the two passes return, and the records
    written are those of the first input, one for one and in their order:
    each has the directory and the fields of the record it comes from, and
    is either that record unchanged or that record with the 'a' at byte 7
    of its leader turned into a 'b'. *)
Theorem collect_and_patch_output (first : list Record_) (others : list (list Record_)) :
  Forall (Forall well_formed) (first :: others) →
  ∃ g', collect_and_patch (first :: others) = Ok g' ∧
        Forall2 (λ record out,
                   dir_entries out = dir_entries record ∧
                   fields out = fields record ∧
                   (out = record
                    ∨ (leader record !! 7 = Some "a"%char ∧
                       leader out = <[7 := "b"%char]> (leader record))))
                first (output g').
Proof.
  intros Hwf.
  destruct (collect_and_patch_returns first others Hwf) as (g & g' & Hrun & _ & Hall).
  exists g'. split; [done |].
  eapply Forall2_impl; [exact Hall |].
  intros record out (g1 & g2 & _ & Hpatch).
  apply PatchUpArticle_inv in Hpatch as (_ & _ & _ & Hdir & Hfields & Hcases).
  repeat split; try done.
  destruct Hcases as [[-> _] | (Hlevel & _ & Hleader & _)]; [by left |].
  right. split; [by apply at_leader_lookup | done].
Qed.

Lemma collect_and_patch_output_witness :
  ∃ g', collect_and_patch
          ([Samples.article "(DE-576)123456789"] :: [[Samples.serial "123456789"]])
        = Ok g' ∧
        Forall2 (λ record out,
                   dir_entries out = dir_entries record ∧
                   fields out = fields record ∧
                   (out = record
                    ∨ (leader record !! 7 = Some "a"%char ∧
                       leader out = <[7 := "b"%char]> (leader record))))
                [Samples.article "(DE-576)123456789"] (output g').
Proof.
  apply (collect_and_patch_output [Samples.article "(DE-576)123456789"]
           [[Samples.serial "123456789"]]).
  repeat constructor; by vm_compute.
Defined.

Lemma HasSerialParent_773 serials record (i : nat) field c before id :
  getFieldIndex record (str "773") = Z.of_nat i →
  fields record !! i = Some field →
  Subfields.getFirstSubfieldValue (Subfields.parse field) "w"%char
    = Regex.lparen :: c :: before ++ Regex.rparen :: id →
  Forall (λ c, c ≠ Regex.newline) (c :: before) →
  Regex.serial_id id = Some id →
  id ∈ serials →
  HasSerialParent serials (str "773w") record = Ok true.
Proof.
  intros Hindex Hfield Hw Hbefore Hid Hserial. unfold HasSerialParent.
  change (substr (str "773w") 0 3) with (Ok (str "773")).
  change (char_at (str "773w") 3) with (Ok "w"%char).
  cbn [mbind outcome_bind]. rewrite Hindex.
  rewrite bool_decide_eq_false_2 by lia.
  rewrite (at_lookup (fields record) (Z.to_N (Z.of_nat i)) field)
    by (by replace (N.to_nat (Z.to_N (Z.of_nat i))) with i by lia).
  cbn [mbind outcome_bind]. rewrite Hw.
  rewrite bool_decide_eq_false_2 by done.
  rewrite parent_id_match_prefixed by done.
  by rewrite bool_decide_eq_true_2.
Qed.

Lemma HasAtLeastOneSerialParent_773 serials record :
  length (fields record) = length (dir_entries record) →
  HasSerialParent serials (str "773w") record = Ok true →
  HasAtLeastOneSerialParent serials (str "800w:810w:830w:773w") record = Ok true.
Proof.
  intros Hparallel H773. unfold HasAtLeastOneSerialParent.
  change (Split (str "800w:810w:830w:773w") ":"%char)
    with [["8"; "0"; "0"; "w"]; ["8"; "1"; "0"; "w"]; ["8"; "3"; "0"; "w"];
          str "773w"]%char.
  cbn [HasAtLeastOneSerialParent_loop].
  destruct (HasSerialParent_returns serials "8" "0" "0" "w" record Hparallel) as [[] ->];
    cbn [mbind outcome_bind]; [done |].
  destruct (HasSerialParent_returns serials "8" "1" "0" "w" record Hparallel) as [[] ->];
    cbn [mbind outcome_bind]; [done |].
  destruct (HasSerialParent_returns serials "8" "3" "0" "w" record Hparallel) as [[] ->];
    cbn [mbind outcome_bind]; [done |].
  by rewrite H773.
Qed.

(** X23.  The two passes together: when some input holds a serial whose
    control number is eight digits and a digit or X, and the record at
    position [k] of the first input is an article whose first 773 field
    names that control number behind a parenthesised prefix in its first
    subfield w, the record written at position [k] has a 'b' at byte 7 of
    its leader. *)
Theorem collect_and_patch_article (first : list Record_) (others : list (list Record_))
    (input : list Record_) (serial article : Record_) (k i : nat) field c before id :
  Forall (Forall well_formed) (first :: others) →
  input ∈ first :: others → serial ∈ input →
  leader serial !! 7 = Some "s"%char →
  fields serial !! 0 = Some id →
  Regex.serial_id id = Some id →
  first !! k = Some article →
  leader article !! 7 = Some "a"%char →
  getFieldIndex article (str "773") = Z.of_nat i →
  fields article !! i = Some field →
  Subfields.getFirstSubfieldValue (Subfields.parse field) "w"%char
    = Regex.lparen :: c :: before ++ Regex.rparen :: id →
  Forall (λ c, c ≠ Regex.newline) (c :: before) →
  ∃ g' out, collect_and_patch (first :: others) = Ok g' ∧
            output g' !! k = Some out ∧
            leader out = <[7 := "b"%char]> (leader article) ∧
            leader out !! 7 = Some "b"%char.
Proof.
  intros Hwf Hinput Hserial Hs Hid Hvalid Hk Ha Hindex Hfield Hw Hbefore.
  destruct (collect_and_patch_returns first others Hwf) as (g & g' & Hrun & Hadd & Hall).
  pose proof (Hadd input serial id Hinput Hserial Hs Hid) as Hcollected.
  destruct (Forall2_lookup_l _ _ _ _ _ Hall Hk) as (out & Hout & g1 & g2 & Hg1 & Hpatch).
  exists g', out. split; [done |]. split; [done |].
  assert (well_formed article) as (Hleader & Hparallel & _).
  { apply Forall_cons in Hwf as [Hfirst _].
    apply (proj1 (Forall_forall _ _) Hfirst). by eapply list_elem_of_lookup_2. }
  apply PatchUpArticle_inv in Hpatch as (_ & _ & _ & _ & _ & Hcases).
  assert (HasAtLeastOneSerialParent (serial_control_numbers g1)
            (str "800w:810w:830w:773w") article = Ok true) as Hparent.
  { apply HasAtLeastOneSerialParent_773; [done |].
    apply (HasSerialParent_773 _ _ i field c before id); try done.
    by rewrite Hg1. }
  assert (at_ (leader article) 7 = Ok "a"%char) as Hlevel.
  { destruct (at_leader_returns _ Hleader) as [level Hlevel].
    pose proof (at_leader_lookup _ _ Hlevel). congruence. }
  unfold PatchUpArticle in Hcases.
  destruct Hcases as [[-> _] | (_ & _ & Hpatched & _)].
  - (* the record cannot have stayed as it is *)
    exfalso.
    destruct (Forall2_lookup_l _ _ _ _ _ Hall Hk) as (out' & Hout' & ga & gb & Hga & Hsame).
    assert (out' = article) as -> by congruence.
    unfold PatchUpArticle in Hsame. rewrite Hlevel in Hsame.
    cbn [mbind outcome_bind] in Hsame.
    rewrite bool_decide_eq_false_2 in Hsame by (by intros Hne).
    rewrite (HasAtLeastOneSerialParent_773 (serial_control_numbers ga) article Hparallel)
      in Hsame.
    + cbn [mbind outcome_bind negb] in Hsame. injection Hsame as Hleader' _.
      apply (f_equal leader) in Hleader'. simpl in Hleader'.
      apply (f_equal (λ l, l !! 7)) in Hleader'.
      rewrite list_lookup_insert_eq in Hleader' by (unfold size in Hleader; lia).
      congruence.
    + apply (HasSerialParent_773 _ _ i field c before id); try done. by rewrite Hga.
  - split; [done |]. rewrite Hpatched.
    apply list_lookup_insert_eq. unfold size in Hleader. lia.
Qed.

Lemma collect_and_patch_article_witness :
  ∃ g' out,
    collect_and_patch
      ([Samples.article "(DE-576)123456789"] :: [[Samples.serial "123456789"]]) = Ok g' ∧
    output g' !! 0 = Some out ∧
    leader out = <[7 := "b"%char]> (leader (Samples.article "(DE-576)123456789")) ∧
    leader out !! 7 = Some "b"%char.
Proof.
  apply (collect_and_patch_article [Samples.article "(DE-576)123456789"]
           [[Samples.serial "123456789"]] [Samples.serial "123456789"]
           (Samples.serial "123456789") (Samples.article "(DE-576)123456789") 0 1
           (str "08" ++ [Subfields.delimiter] ++ str "iIn" ++ [Subfields.delimiter]
              ++ str "w(DE-576)123456789")
           "D"%char (str "E-576") (str "123456789")).
  - repeat constructor; by vm_compute.
  - apply elem_of_cons. right. by apply elem_of_cons; left.
  - by apply elem_of_cons; left.
  - reflexivity.
  - reflexivity.
  - reflexivity.
  - reflexivity.
  - reflexivity.
  - reflexivity.
  - reflexivity.
  - reflexivity.
  - repeat constructor; by vm_compute.
Defined.

End TwoPasses.

(** ** Helpers of the merge of print and online records *)

Section MergeHelpers.

Import MergePrintAndOnline.

(** X24.  [NormaliseISSN] takes the hyphen out of an ISSN written as four
    characters, a hyphen and four characters, and logs nothing then; what
    it returns without a warning has eight characters; with a warning it
    returns its argument; and normalising twice returns what normalising
    once returns. *)
Theorem NormaliseISSN_normal_form (issn : std_string) :
  (NormaliseISSN (NormaliseISSN issn).1).1 = (NormaliseISSN issn).1 ∧
  ((NormaliseISSN issn).2 = [] → size (NormaliseISSN issn).1 = 8%N) ∧
  ((NormaliseISSN issn).2 ≠ [] → (NormaliseISSN issn).1 = issn) ∧
  (∀ front back : std_string,
     length front = 4 → length back = 4 →
     NormaliseISSN (front ++ "-"%char :: back) = (front ++ back, [])).
Proof.
  assert (∀ front back : std_string,
            length front = 4 → length back = 4 →
            NormaliseISSN (front ++ "-"%char :: back) = (front ++ back, [])) as Hhyphen.
  { intros front back Hfront Hback. unfold NormaliseISSN.
    do 4 (destruct front as [| ? front]; [done |]). destruct front; [| done].
    do 4 (destruct back as [| ? back]; [done |]). destruct back; [| done].
    reflexivity. }
  assert (size (NormaliseISSN issn).1 = 8%N ∧ (NormaliseISSN issn).2 = []
          ∨ (NormaliseISSN issn).1 = issn ∧ size issn ≠ 8%N
            ∧ (NormaliseISSN issn).2 ≠ []) as Hcases.
  { unfold NormaliseISSN. case_bool_decide as H8; [by left |].
    destruct (bool_decide (size issn = 9%N) && bool_decide (issn !! 4 = Some "-"%char))
      eqn:H9; [| by right].
    left. split; [| done]. simpl.
    apply andb_prop in H9 as [Hlen%bool_decide_eq_true_1 _].
    unfold size in *. rewrite length_app, length_take, length_drop. lia. }
  repeat split; [| | | done].
  - destruct Hcases as [[Hlen _] | (Hsame & Hlen & _)].
    + unfold NormaliseISSN at 1. by rewrite bool_decide_eq_true_2.
    + by rewrite Hsame.
  - destruct Hcases as [[Hlen _] | (_ & _ & Hwarn)]; done.
  - destruct Hcases as [[_ Hquiet] | (Hsame & _)]; done.
Qed.

Lemma NormaliseISSN_normal_form_witness :
  NormaliseISSN (str "0028" ++ "-"%char :: str "0836") = (str "0028" ++ str "0836", []).
Proof.
  apply (NormaliseISSN_normal_form (str "0028-0836")); reflexivity.
Defined.

Lemma SubfieldPrefixIsIdentical_heads (code1 code2 : ascii) (value1 value2 : std_string)
    (rest1 rest2 : list (ascii * std_string)) (subfield_codes : list ascii) :
  SubfieldPrefixIsIdentical ((code1, value1) :: rest1) ((code2, value2) :: rest2)
    subfield_codes = true
  ↔ subfield_codes = [] ∨
    (code1 = code2 ∧ value1 = value2 ∧ Forall (λ c, c = code1) subfield_codes).
Proof.
  induction subfield_codes as [| c codes IH].
  - split; [by left | done].
  - cbn [SubfieldPrefixIsIdentical fst snd].
    destruct (decide (code1 = c)) as [-> | H1].
    2:{ rewrite bool_decide_eq_true_2 by done. cbn [orb]. split; [done |].
        intros [? | (_ & _ & Hall)]; [done |].
        apply Forall_cons in Hall as [-> _]. done. }
    rewrite (bool_decide_eq_false_2 (c ≠ c)) by (by intros Hne). cbn [orb].
    destruct (decide (code2 = c)) as [-> | H2].
    2:{ rewrite bool_decide_eq_true_2 by done. split; [done |].
        intros [? | (<- & _)]; done. }
    rewrite (bool_decide_eq_false_2 (c ≠ c)) by (by intros Hne).
    destruct (decide (value1 = value2)) as [-> | Hvalue].
    2:{ rewrite bool_decide_eq_true_2 by done. split; [done |].
        intros [? | (_ & ? & _)]; done. }
    rewrite bool_decide_eq_false_2 by (by intros Hne).
    rewrite IH. split.
    + intros Hcodes. right. repeat split. apply Forall_cons_2; [done |].
      destruct Hcodes as [-> | (_ & _ & Hall)]; [by apply Forall_nil_2 | done].
    + intros [? | (_ & _ & Hall)]; [done |].
      apply Forall_cons in Hall as [_ Hall]. right. by repeat split.
Qed.

(** X25.  The two iterators of [SubfieldPrefixIsIdentical] stay at the first
    subfields: the function returns [true] exactly when there are no codes
    to compare or the first subfields of both fields have the same value and
    every code to compare is their code.  For two different codes, as in the
    call of [MergeRecords] with 'a' and 'b', it returns [false] whatever the
    fields are. *)
Theorem SubfieldPrefixIsIdentical_first_only
    (subfields1 subfields2 : list (ascii * std_string)) (subfield_codes : list ascii) :
  (SubfieldPrefixIsIdentical subfields1 subfields2 subfield_codes = true ↔
   subfield_codes = [] ∨
   ∃ code value rest1 rest2,
     subfields1 = (code, value) :: rest1 ∧ subfields2 = (code, value) :: rest2 ∧
     Forall (λ c, c = code) subfield_codes)
  ∧ (∀ code1 code2 codes,
       code1 ≠ code2 →
       SubfieldPrefixIsIdentical subfields1 subfields2 (code1 :: code2 :: codes) = false).
Proof.
  assert (∀ codes,
          SubfieldPrefixIsIdentical subfields1 subfields2 codes = true ↔
          codes = [] ∨
          ∃ code value rest1 rest2,
            subfields1 = (code, value) :: rest1 ∧ subfields2 = (code, value) :: rest2 ∧
            Forall (λ c, c = code) codes) as Hiff.
  { intros codes.
    destruct subfields1 as [| [code1 value1] rest1].
    { destruct codes; simpl; [split; [by left | done] |].
      split; [done | by intros [? | (? & ? & ? & ? & ? & _)]]. }
    destruct subfields2 as [| [code2 value2] rest2].
    { destruct codes; simpl; [split; [by left | done] |].
      split; [done | by intros [? | (? & ? & ? & ? & _ & ? & _)]]. }
    rewrite SubfieldPrefixIsIdentical_heads. split.
    - intros [-> | (<- & <- & Hall)]; [by left |].
      right. by exists code1, value1, rest1, rest2.
    - intros [-> | (code & value & r1 & r2 & [= -> -> ->] & [= -> -> ->] & Hall)];
        [by left | by right]. }
  split; [apply Hiff |].
  intros code1 code2 codes Hne.
  destruct (SubfieldPrefixIsIdentical subfields1 subfields2 (code1 :: code2 :: codes))
    eqn:Hresult; [| done].
  apply Hiff in Hresult as [? | (code & _ & _ & _ & _ & _ & Hall)]; [done |].
  apply Forall_cons in Hall as [-> Hall]. apply Forall_cons in Hall as [-> _]. done.
Qed.

Lemma SubfieldPrefixIsIdentical_first_only_witness :
  SubfieldPrefixIsIdentical
    [("a"%char, str "Berlin"); ("b"%char, str "Springer")]
    [("a"%char, str "Berlin"); ("b"%char, str "Springer")]
    ["a"%char; "b"%char] = false.
Proof.
  apply (SubfieldPrefixIsIdentical_first_only
           [("a"%char, str "Berlin"); ("b"%char, str "Springer")]
           [("a"%char, str "Berlin"); ("b"%char, str "Springer")] []).
  discriminate.
Defined.

Lemma std_max_assoc (a b c : std_string) :
  std_max (std_max a b) c = std_max a (std_max b c).
Proof.
  unfold std_max.
  destruct (string_lt a b) eqn:Hab, (string_lt b c) eqn:Hbc;
    rewrite ?Hab, ?Hbc; try done.
  - by rewrite (string_lt_trans a b c).
  - destruct (string_lt a c) eqn:Hac; [| done].
    destruct (string_lt c b) eqn:Hcb.
    + by rewrite (string_lt_trans a c b) in Hab.
    + by rewrite (string_lt_connex b c Hbc Hcb) in Hab; rewrite Hab in Hac.
Qed.

(** X26.  For the tag 005 the merge of the contents of control fields can
    be done in any grouping and a content merged with itself is that
    content: the result is the greatest of the contents merged. *)
Theorem MergeControlFields_005_assoc (c1 c2 c3 : std_string) :
  let merge := λ a b, field_contents (MergeControlFields (str "005") a b) in
  merge (merge c1 c2) c3 = merge c1 (merge c2 c3) ∧
  merge c1 c1 = c1 ∧
  string_lt (merge (merge c1 c2) c3) c1 = false ∧
  string_lt (merge (merge c1 c2) c3) c2 = false ∧
  string_lt (merge (merge c1 c2) c3) c3 = false.
Proof.
  unfold MergeControlFields. rewrite bool_decide_eq_true_2 by done. simpl.
  assert (∀ a b, string_lt (std_max a b) a = false) as Hleft.
  { intros a b. unfold std_max. destruct (string_lt a b) eqn:Hlt.
    - by apply string_lt_asym.
    - apply string_lt_irrefl. }
  assert (∀ a b, string_lt (std_max a b) b = false) as Hright.
  { intros a b. unfold std_max. destruct (string_lt a b) eqn:Hlt; [| done].
    apply string_lt_irrefl. }
  assert (∀ a b c, string_lt a b = false → string_lt b c = false → string_lt a c = false)
    as Htrans.
  { intros a b c Hab Hbc. exact (tag_le_trans c b a Hbc Hab). }
  repeat split.
  - apply std_max_assoc.
  - unfold std_max. by rewrite string_lt_irrefl.
  - apply (Htrans _ (std_max c1 c2)); [apply Hleft | apply Hleft].
  - apply (Htrans _ (std_max c1 c2)); [apply Hleft | apply Hright].
  - apply Hright.
Qed.

End MergeHelpers.
